(** * Home-PA scheduling core: a shallow embedding of [suggestionLogic.py]

    The development follows the Python module top-down: numeric helpers,
    the data classes, the knapsack selector, the ordering search, the gap
    placement engine and the orchestrator, and then the properties proved
    about them.

    Conventions of the embedding.
    - Python floats are modelled by exact rationals ([Q]); comparisons are
      the boolean comparisons of [Q], so two representations of the same
      number behave alike, as two equal floats do.
    - [math.hypot] is a parameter [hypot] of the development (it has no
      rational counterpart); [hypot_rat] is an executable instance used to
      evaluate the scheduler on concrete inputs.
    - Python exceptions are values of [exn]; loops that are not structural
      take a fuel argument and report [NoFuel] when it runs out, which
      the totality lemmas exclude.
    - Dictionaries are finite maps ([gmap string _]). *)

From Stdlib Require Import QArith Qround Qabs Lqa Lia List String Ascii ZArith.
From Stdlib Require Import Permutation Sorted Arith.
From stdpp Require Import gmap strings.
Import ListNotations.

Open Scope string_scope.
Open Scope list_scope.
Open Scope Q_scope.

(** ** Results of fallible computations *)

Inductive exn : Type :=
| ValueError
| ZeroDivisionError
| IndexError
| AssertionError.

Inductive res (A : Type) : Type :=
| Ok (a : A)
| Raise (e : exn)
| NoFuel.

Arguments Ok {A} a.
Arguments Raise {A} e.
Arguments NoFuel {A}.

Definition bind {A B : Type} (m : res A) (k : A -> res B) : res B :=
  match m with
  | Ok a => k a
  | Raise e => Raise e
  | NoFuel => NoFuel
  end.

Notation "'do' x <- m 'in' k" := (bind m (fun x => k))
  (at level 10, x pattern, m at level 100, k at level 200, only parsing).

(** ** Numbers *)

Definition Qleb (x y : Q) : bool := Qle_bool x y.
Definition Qltb (x y : Q) : bool := negb (Qle_bool y x).
Definition Qgtb (x y : Q) : bool := Qltb y x.
Definition Qgeb (x y : Q) : bool := Qle_bool y x.
Definition Qeqb (x y : Q) : bool := Qeq_bool x y.

(** Python's [round]: to the nearest integer, ties to the even one. *)
Definition py_round (x : Q) : Z :=
  let f := Qfloor x in
  match Qcompare (x - inject_Z f) (1 # 2) with
  | Lt => f
  | Gt => (f + 1)%Z
  | Eq => if Z.even f then f else (f + 1)%Z
  end.

(** Float division raises [ZeroDivisionError] on a zero divisor. *)
Definition py_div (x y : Q) : res Q :=
  if Qeqb y 0 then Raise ZeroDivisionError else Ok (x / y).

(** [sum(...)]: a left fold starting from 0. *)
Definition py_sum (l : list Q) : Q := fold_left Qplus l 0.

Definition Coordinate : Type := (Q * Q)%type.

Definition MINUTES_PER_DISTANCE_UNIT : Q := 3.
Definition MANDATORY_NEED_THRESHOLD : Q := 1.
Definition HOME_LABEL : string := "home".

Definition clamp01 (value : Q) : Q :=
  if Qltb value 0 then 0
  else if Qgtb value 1 then 1
  else value.

Definition coord_eqb (a b : Coordinate) : bool :=
  Qeqb (fst a) (fst b) && Qeqb (snd a) (snd b).

(** ** Strings: [normalize_location_preference] (ASCII strings) *)

Definition is_space (c : ascii) : bool :=
  let n := nat_of_ascii c in
  ((9 <=? n)%nat && (n <=? 13)%nat) || ((28 <=? n)%nat && (n <=? 32)%nat).

Fixpoint lstrip (l : list ascii) : list ascii :=
  match l with
  | [] => []
  | c :: l' => if is_space c then lstrip l' else l
  end.

Definition strip (s : string) : string :=
  string_of_list_ascii
    (rev (lstrip (rev (lstrip (list_ascii_of_string s))))).

Definition lower_ascii (c : ascii) : ascii :=
  let n := nat_of_ascii c in
  if ((65 <=? n)%nat && (n <=? 90)%nat) then ascii_of_nat (n + 32) else c.

Definition lower (s : string) : string :=
  string_of_list_ascii (map lower_ascii (list_ascii_of_string s)).

Definition replace_space_underscore (s : string) : string :=
  string_of_list_ascii
    (map (fun c => if Ascii.eqb c " "%char then "_"%char else c)
         (list_ascii_of_string s)).

Definition normalize_location_preference (value : option string)
  : option string :=
  match value with
  | None => None
  | Some v =>
      let normalized := strip v in
      if String.eqb normalized "" then None
      else if String.eqb (replace_space_underscore (lower normalized))
                         "near_home"
      then Some "near_home"
      else Some normalized
  end.

(** Truthiness of an [Optional[str]]: [None] and the empty string are
    falsy. *)
Definition truthy (o : option string) : bool :=
  match o with
  | None => false
  | Some s => negb (String.eqb s "")
  end.

(** [a or b] on an optional string. *)
Definition or_else (o : option string) (d : string) : string :=
  match o with
  | Some s => if String.eqb s "" then d else s
  | None => d
  end.

Definition opt_string_eqb (a b : option string) : bool :=
  match a, b with
  | None, None => true
  | Some x, Some y => String.eqb x y
  | _, _ => false
  end.

(** ** Data classes *)

Module Gap.
Record t : Type := mk {
    gap_id : string;
    duration : Q;
    start_location : Coordinate;
    end_location : Coordinate;
    start_label : option string;
    end_label : option string
  }.

  (** [__post_init__]: the duration must be positive. *)
Definition valid (g : t) : Prop := 0 < duration g.

Definition make (gap_id : string) (duration : Q)
      (start_location end_location : Coordinate)
      (start_label end_label : option string) : res t :=
    if Qleb duration 0 then Raise ValueError
    else Ok (mk gap_id duration start_location end_location
                start_label end_label).
End Gap.

Module Suggestion.
  (** The stored fields; [location_preference] holds the value left by
      [__post_init__], that is, the normalized one. *)
Record t : Type := mk {
    suggestion_id : string;
    need : Q;
    importance : Q;
    duration : Q;
    location : Coordinate;
    location_preference : option string
  }.

  (** Fields derived by [__post_init__]. *)
Definition score (s : t) : Q := clamp01 (need s) + clamp01 (importance s).
Definition min_duration (s : t) : Q := duration s.
Definition max_duration (s : t) : Q := duration s.

Definition valid (s : t) : Prop := 0 < duration s.

Definition make (suggestion_id : string) (need importance duration : Q)
      (location : Coordinate) (location_preference : option string) : res t :=
    if Qleb duration 0 then Raise ValueError
    else Ok (mk suggestion_id need importance duration location
                (normalize_location_preference location_preference)).

  (** The generated [__eq__]: field by field. *)
Definition eqb (a b : t) : bool :=
    String.eqb (suggestion_id a) (suggestion_id b)
    && Qeqb (need a) (need b)
    && Qeqb (importance a) (importance b)
    && Qeqb (duration a) (duration b)
    && coord_eqb (location a) (location b)
    && opt_string_eqb (location_preference a) (location_preference b).
End Suggestion.

Module ScheduledBlock.
Record t : Type := mk {
    suggestion_id : string;
    gap_id : string;
    start_offset : Q;
    duration : Q;
    location : Coordinate
  }.
End ScheduledBlock.

Module MovementLogEntry.
Record t : Type := mk {
    from_label : string;
    to_label : string;
    distance : Q;
    minutes : Q
  }.
End MovementLogEntry.

Module AllocationState.
Record t : Type := mk {
    gap_usage : gmap string Q;
    gap_index : nat;
    current_cursor : option Coordinate;
    current_label : option string;
    gap_has_blocks : bool
  }.
End AllocationState.

Module ScheduleResult.
Record t : Type := mk {
    ordered_suggestions : list Suggestion.t;
    scheduled_blocks : list ScheduledBlock.t;
    travel_cost : Q;
    dropped_suggestions : list Suggestion.t;
    unused_gap_time : Q;
    permutations_evaluated : nat;
    allocated_minutes : gmap string Q;
    movement_log : list MovementLogEntry.t
  }.
End ScheduleResult.

(** ** List helpers mirroring Python's list operations *)

(** [x in l], with the data class equality. *)
Definition mem (x : Suggestion.t) (l : list Suggestion.t) : bool :=
  existsb (Suggestion.eqb x) l.

(** [l.remove(x)] for an [x] known to be in [l]: drops the first element
    equal to [x]. *)
Fixpoint remove_first (x : Suggestion.t) (l : list Suggestion.t)
  : list Suggestion.t :=
  match l with
  | [] => []
  | y :: l' => if Suggestion.eqb y x then l' else y :: remove_first x l'
  end.

(** [if x in l: l.remove(x)]. *)
Definition discard (x : Suggestion.t) (l : list Suggestion.t)
  : list Suggestion.t :=
  if mem x l then remove_first x l else l.

(** A stable sort, as [list.sort] is: [x] is inserted before the first
    element that does not come strictly before it. *)
Fixpoint insert_by {A : Type} (before : A -> A -> bool) (x : A) (l : list A)
  : list A :=
  match l with
  | [] => [x]
  | y :: l' => if before y x then y :: insert_by before x l' else x :: l
  end.

Definition sort_by {A : Type} (before : A -> A -> bool) (l : list A) : list A :=
  fold_right (insert_by before) [] l.

(** [key=lambda s: s.score, reverse=True]. *)
Definition score_desc (a b : Suggestion.t) : bool :=
  Qgtb (Suggestion.score a) (Suggestion.score b).

Definition sort_by_score_desc : list Suggestion.t -> list Suggestion.t :=
  sort_by score_desc.

(** [key=lambda block: (block.gap_id, block.start_offset)]. *)
Definition block_key_lt (a b : ScheduledBlock.t) : bool :=
  match String.compare (ScheduledBlock.gap_id a) (ScheduledBlock.gap_id b) with
  | Lt => true
  | Gt => false
  | Eq => Qltb (ScheduledBlock.start_offset a) (ScheduledBlock.start_offset b)
  end.

(** Dictionary read with a default, and [d[k] += v]. *)
Definition dget (d : gmap string Q) (k : string) : Q := default 0 (d !! k).
Definition dadd (d : gmap string Q) (k : string) (v : Q) : gmap string Q :=
  <[k := dget d k + v]> d.

Definition total_gap_minutes (gaps : list Gap.t) : Q :=
  py_sum (map Gap.duration gaps).

Definition resolve_gap_labels (gaps : list Gap.t)
  : gmap string (string * string) :=
  let total := length gaps in
  fold_left
    (fun labels '(idx, gap) =>
       let start_label :=
         or_else (Gap.start_label gap)
           (if (idx =? 0)%nat then HOME_LABEL
            else (Gap.gap_id gap ++ ":start")%string) in
       let end_label :=
         or_else (Gap.end_label gap)
           (if (S idx =? total)%nat then HOME_LABEL
            else (Gap.gap_id gap ++ ":end")%string) in
       <[Gap.gap_id gap := (start_label, end_label)]> labels)
    (combine (seq 0 (length gaps)) gaps) ∅.

(** ** Knapsack selector: [greedy_select_candidates] *)

(** Reads of the DP table and of a row of [take]; every index used below
    is within bounds. *)
Definition qget (dp : list Q) (i : nat) : Q := default 0 (dp !! i).
Definition bget (row : list bool) (i : nat) : bool := default false (row !! i).

(** [range(W, w_i - 1, -1)]. *)
Definition range_down (W w_i : nat) : list nat := rev (seq w_i (S W - w_i)).

(** Body of the inner loop at capacity [w]. *)
Definition knapsack_cell (w_i : nat) (v_i : Q)
    (st : list Q * list bool) (w : nat) : list Q * list bool :=
  let '(dp, row) := st in
  let candidate := qget dp (w - w_i) + v_i in
  if Qgtb candidate (qget dp w)
  then (<[w := candidate]> dp, <[w := true]> row)
  else (dp, row).

(** Body of the outer loop for one item; its row of [take] starts all
    [False]. *)
Definition knapsack_item (W : nat)
    (st : list Q * list (list bool)) (item : nat * Q)
  : list Q * list (list bool) :=
  let '(dp, take) := st in
  let '(w_i, v_i) := item in
  let '(dp', row) :=
    fold_left (knapsack_cell w_i v_i) (range_down W w_i)
              (dp, replicate (S W) false) in
  (dp', take ++ [row]).

Definition knapsack_table (W : nat) (weights : list nat) (values : list Q)
  : list Q * list (list bool) :=
  fold_left (knapsack_item W) (combine weights values)
            (replicate (S W) 0, []).

(** One step of the backtracking loop, run from the last item to the
    first. *)
Definition backtrack_step
    (st : nat * list Suggestion.t) (x : Suggestion.t * nat * list bool)
  : nat * list Suggestion.t :=
  let '(w, chosen) := st in
  let '(item, w_i, row) := x in
  if bget row w then ((w - w_i)%nat, chosen ++ [item]) else (w, chosen).

Definition backtrack (W : nat) (items : list Suggestion.t)
    (weights : list nat) (take : list (list bool)) : list Suggestion.t :=
  snd (fold_left backtrack_step
         (rev (combine (combine items weights) take)) (W, [])).

(** The weight of an item in DP units. *)
Definition item_weight (resolution_minutes : Q) (s : Suggestion.t) : Z :=
  Z.max 1 (py_round (Suggestion.min_duration s / resolution_minutes)).

Definition greedy_select_candidates
    (suggestions : list Suggestion.t) (gaps : list Gap.t) (_max_distance : Q)
    (available_minutes : option Q) (tolerance resolution_minutes : Q)
  : res (list Suggestion.t) :=
  let capacity :=
    match available_minutes with
    | Some c => c
    | None => total_gap_minutes gaps
    end in
  if Qleb capacity tolerance then Ok []
  else
    let items := suggestions in
    (* the first division by [resolution_minutes] raises when it is zero;
       the later ones divide by the same, then non-zero, number *)
    do q <- py_div capacity resolution_minutes in
    let W := Z.to_nat (Z.max 0 (py_round q)) in
    let weights := map (fun s => Z.to_nat (item_weight resolution_minutes s))
                       items in
    let values := map Suggestion.score items in
    let '(_, take) := knapsack_table W weights values in
    let chosen := backtrack W items weights take in
    Ok (sort_by_score_desc chosen).

(** ** Ordering search: [enumerate_best_order] *)

(** [itertools.permutations]: all orderings, in lexicographic order of the
    positions of the input. *)
Fixpoint selections {A : Type} (l : list A) : list (A * list A) :=
  match l with
  | [] => []
  | x :: xs => (x, xs) :: map (fun '(y, ys) => (y, x :: ys)) (selections xs)
  end.

Fixpoint permutations_upto {A : Type} (n : nat) (l : list A)
  : list (list A) :=
  match n with
  | O => [[]]
  | S n' =>
      flat_map (fun '(x, rest) => map (cons x) (permutations_upto n' rest))
               (selections l)
  end.

Definition permutations {A : Type} (l : list A) : list (list A) :=
  permutations_upto (length l) l.

Section Scheduler.

  (** [math.hypot]. *)
Variable hypot : Q -> Q -> Q.

Definition euclidean_distance (a b : Coordinate) : Q :=
    hypot (fst a - fst b) (snd a - snd b).

  (** Returns (distance, minutes). *)
Definition travel_minutes_between (a b : Coordinate) : Q * Q :=
    let distance := euclidean_distance a b in
    let minutes := distance * MINUTES_PER_DISTANCE_UNIT in
    (distance, minutes).

  (** Travel minutes of one ordering: the body of the loop over the
      permutations. *)
Definition order_cost (start_location end_location : option Coordinate)
      (permutation : list Suggestion.t) : Q :=
    let '(cost, previous) :=
      fold_left
        (fun '(cost, previous) suggestion =>
           let cost' :=
             match previous with
             | Some p =>
                 cost + snd (travel_minutes_between
                               p (Suggestion.location suggestion))
             | None => cost
             end in
           (cost', Some (Suggestion.location suggestion)))
        permutation (0, start_location) in
    match previous, end_location with
    | Some p, Some e => cost + snd (travel_minutes_between p e)
    | _, _ => cost
    end.

  (** The running best: [None] stands for [best_order = None] and
      [best_cost_minutes = inf].  Every rational cost is below [inf], so
      the first ordering always becomes the best one; the search over
      costs that may themselves be [inf] is [enumerate_best_order_float]
      below. *)
Definition best_step (start_location end_location : option Coordinate)
      (st : option (list Suggestion.t * Q) * nat)
      (permutation : list Suggestion.t)
    : option (list Suggestion.t * Q) * nat :=
    let '(best, permutations_checked) := st in
    let cost := order_cost start_location end_location permutation in
    let best' :=
      match best with
      | None => Some (permutation, cost)
      | Some (_, best_cost) =>
          if Qltb cost best_cost then Some (permutation, cost) else best
      end in
    (best', S permutations_checked).

Definition enumerate_best_order (suggestions : list Suggestion.t)
      (start_location end_location : option Coordinate)
      (permutation_limit : Z)
    : res (list Suggestion.t * Q * nat) :=
    let n := length suggestions in
    if (n =? 0)%nat then Ok ([], 0, 0%nat)
    else if (Z.of_nat n >? permutation_limit)%Z then Raise ValueError
    else
      let '(best, permutations_checked) :=
        fold_left (best_step start_location end_location)
                  (permutations suggestions) (None, 0%nat) in
      match best with
      | None => Raise AssertionError
      | Some (best_order, best_cost_minutes) =>
          Ok (best_order, best_cost_minutes, permutations_checked)
      end.

  (** ** Allocation state helpers *)

Definition enumerate {A : Type} (l : list A) : list (nat * A) :=
    combine (seq 0 (length l)) l.

Definition Qmax0 (x : Q) : Q := if Qltb 0 x then x else 0.

Definition remaining_capacity (gaps : list Gap.t)
      (state : option AllocationState.t) (tolerance : Q) : Q :=
    match state with
    | None => total_gap_minutes gaps
    | Some state =>
        fold_left
          (fun total '(idx, gap) =>
             if (idx <? AllocationState.gap_index state)%nat then total
             else
               let used :=
                 dget (AllocationState.gap_usage state) (Gap.gap_id gap) in
               let remaining := Qmax0 (Gap.duration gap - used) in
               if Qgtb remaining tolerance then total + remaining else total)
          (enumerate gaps) 0
    end.

Definition starting_location_for_state (gaps : list Gap.t)
      (state : option AllocationState.t) : option Coordinate :=
    match gaps with
    | [] => None
    | g0 :: _ =>
        match state with
        | None => Some (Gap.start_location g0)
        | Some state =>
            match gaps !! AllocationState.gap_index state with
            | None => None
            | Some g =>
                match AllocationState.current_cursor state with
                | Some c => Some c
                | None => Some (Gap.start_location g)
                end
            end
        end
    end.

  (** ** Gap placement engine: [assign_order_to_gaps] *)

  (** The local variables shared by the closures of
      [assign_order_to_gaps]. *)
Record Frame : Type := mkFrame {
    gap_usage : gmap string Q;
    gap_index : nat;
    current_cursor : option Coordinate;
    current_label : option string;
    gap_has_blocks : bool;
    schedule : list ScheduledBlock.t;
    movement_logs : list MovementLogEntry.t
  }.

Section Assign.

Variable gaps : list Gap.t.
Variable gap_labels : gmap string (string * string).
Variable tolerance : Q.

Definition current_gap (f : Frame) : option Gap.t := gaps !! gap_index f.

Definition default_labels (gap : Gap.t) : string * string :=
      ((Gap.gap_id gap ++ ":start")%string, (Gap.gap_id gap ++ ":end")%string).

Definition gap_start_label (gap : Gap.t) : string :=
      fst (default (default_labels gap) (gap_labels !! Gap.gap_id gap)).

Definition gap_end_label (gap : Gap.t) : string :=
      snd (default (default_labels gap) (gap_labels !! Gap.gap_id gap)).

Definition ensure_gap_exit_ok (f : Frame) (gap : Gap.t)
        (cursor : Coordinate) (label : option string)
      : option (Q * Q * string * string) :=
      let '(distance, minutes) :=
        travel_minutes_between cursor (Gap.end_location gap) in
      let remaining := Gap.duration gap - dget (gap_usage f) (Gap.gap_id gap) in
      if Qgtb minutes (remaining + tolerance) then None
      else
        let from_label := default (gap_start_label gap) label in
        Some (distance, minutes, from_label, gap_end_label gap).

    (** The exit leg of [gap] is paid and the frame moves to the next
        gap; shared by [shift_to_next_gap] and the end of
        [assign_order_to_gaps]. *)
Definition leave_gap (f : Frame) (gap : Gap.t)
        (exit_info : Q * Q * string * string) : Frame :=
      let '(distance, minutes, from_label, to_label) := exit_info in
      let paid := Qgtb minutes tolerance in
      {| gap_usage :=
           if paid then dadd (gap_usage f) (Gap.gap_id gap) minutes
           else gap_usage f;
         gap_index := S (gap_index f);
         current_cursor := None;
         current_label := None;
         gap_has_blocks := false;
         schedule := schedule f;
         movement_logs :=
           if paid
           then movement_logs f
                ++ [MovementLogEntry.mk from_label to_label distance minutes]
           else movement_logs f |}.

Definition shift_to_next_gap (f : Frame) : Frame * bool :=
      match current_gap f with
      | None => (f, false)
      | Some gap =>
          let cursor := default (Gap.start_location gap) (current_cursor f) in
          match ensure_gap_exit_ok f gap cursor (current_label f) with
          | None => (f, false)
          | Some exit_info =>
              let f' := leave_gap f gap exit_info in
              (f', (gap_index f' <? length gaps)%nat)
          end
      end.

Definition is_mandatory (s : Suggestion.t) : bool :=
      Qgeb (Suggestion.need s) (MANDATORY_NEED_THRESHOLD - tolerance).

    (** The location-preference part of one iteration of
        [allocate_suggestion]: [true] when the suggestion must not be
        placed at the current position.  The branch for a mandatory
        suggestion only computes a local flag that nothing reads. *)
Definition preference_blocks (f : Frame) (gap : Gap.t)
        (cursor : Coordinate) (remaining : Q)
        (suggestion : Suggestion.t) (is_last_suggestion : bool) : bool :=
      let duration := Suggestion.duration suggestion in
      let preference := Suggestion.location_preference suggestion in
      if truthy preference then
        if negb (opt_string_eqb preference (Some "near_home")) then true
        else
          let '(start_label, end_label) :=
            default ("", "") (gap_labels !! Gap.gap_id gap) in
          let is_at_first_gap_start :=
            (gap_index f =? 0)%nat
            && negb (bool_decide (is_Some (current_cursor f)))
            && String.eqb start_label HOME_LABEL in
          let is_at_last_gap :=
            (S (gap_index f) =? length gaps)%nat
            && String.eqb end_label HOME_LABEL in
          if negb (is_mandatory suggestion) then
            let travel_in :=
              snd (travel_minutes_between
                     cursor (Suggestion.location suggestion)) in
            let can_place_at_first :=
              if is_at_first_gap_start
              then Qleb (travel_in + duration) (remaining + tolerance)
              else false in
            let can_place_at_last :=
              if is_at_last_gap then
                let total_required :=
                  if is_last_suggestion then
                    let travel_to_end :=
                      snd (travel_minutes_between
                             (Suggestion.location suggestion)
                             (Gap.end_location gap)) in
                    travel_in + duration + travel_to_end
                  else travel_in + duration in
                Qleb total_required (remaining + tolerance)
              else false in
            negb (can_place_at_first || can_place_at_last)
          else false
      else false.

    (** The [while True] loop of [allocate_suggestion]; every [continue]
        follows a successful [shift_to_next_gap]. *)
Fixpoint allocate_loop (fuel : nat) (suggestion : Suggestion.t)
        (is_last_suggestion : bool) (f : Frame) : res (Frame * bool) :=
      match fuel with
      | O => NoFuel
      | S fuel' =>
          let advance (f : Frame) : res (Frame * bool) :=
            let '(f', ok) := shift_to_next_gap f in
            if ok then allocate_loop fuel' suggestion is_last_suggestion f'
            else Ok (f', false) in
          let duration := Suggestion.duration suggestion in
          match current_gap f with
          | None => Ok (f, false)
          | Some gap =>
              let cursor :=
                default (Gap.start_location gap) (current_cursor f) in
              let label := default (gap_start_label gap) (current_label f) in
              let used := dget (gap_usage f) (Gap.gap_id gap) in
              let remaining := Gap.duration gap - used in
              if Qleb remaining tolerance then advance f
              else if preference_blocks f gap cursor remaining
                        suggestion is_last_suggestion
              then advance f
              else
                let '(distance, travel_in) :=
                  travel_minutes_between
                    cursor (Suggestion.location suggestion) in
                let total_required := travel_in + duration in
                if Qgtb total_required (remaining + tolerance) then advance f
                else
                  let moved := Qgtb travel_in tolerance in
                  let f1 :=
                    if moved then
                      {| gap_usage :=
                           dadd (gap_usage f) (Gap.gap_id gap) travel_in;
                         gap_index := gap_index f;
                         current_cursor := current_cursor f;
                         current_label := current_label f;
                         gap_has_blocks := gap_has_blocks f;
                         schedule := schedule f;
                         movement_logs :=
                           movement_logs f
                           ++ [MovementLogEntry.mk label
                                 (Suggestion.suggestion_id suggestion)
                                 distance travel_in] |}
                    else f in
                  let remaining1 :=
                    if moved then remaining - travel_in else remaining in
                  if Qgtb duration (remaining1 + tolerance) then advance f1
                  else
                    let start_offset :=
                      dget (gap_usage f1) (Gap.gap_id gap) in
                    Ok ({| gap_usage :=
                             dadd (gap_usage f1) (Gap.gap_id gap) duration;
                           gap_index := gap_index f1;
                           current_cursor :=
                             Some (Suggestion.location suggestion);
                           current_label :=
                             Some (Suggestion.suggestion_id suggestion);
                           gap_has_blocks := true;
                           schedule :=
                             schedule f1
                             ++ [ScheduledBlock.mk
                                   (Suggestion.suggestion_id suggestion)
                                   (Gap.gap_id gap) start_offset duration
                                   (Suggestion.location suggestion)];
                           movement_logs := movement_logs f1 |},
                        true)
          end
      end.

Definition allocate_suggestion (suggestion : Suggestion.t)
        (is_last_suggestion : bool) (f : Frame) : res (Frame * bool) :=
      allocate_loop (S (length gaps - gap_index f))
                    suggestion is_last_suggestion f.

    (** The [for] loop over the ordering; the last suggestion is the one
        with an empty tail. *)
Fixpoint allocate_all (ordered : list Suggestion.t) (f : Frame)
      : res (Frame * bool) :=
      match ordered with
      | [] => Ok (f, true)
      | suggestion :: rest =>
          do (f', ok) <-
            allocate_suggestion suggestion (bool_decide (rest = [])) f in
          if ok then allocate_all rest f' else Ok (f', false)
      end.

Definition zero_usage : gmap string Q :=
      list_to_map (map (fun gap => (Gap.gap_id gap, 0)) gaps).

Definition fresh_state : AllocationState.t :=
      AllocationState.mk zero_usage 0 None None false.

Definition initial_frame (initial_state : option AllocationState.t)
      : Frame :=
      match initial_state with
      | None => mkFrame zero_usage 0 None None false [] []
      | Some s0 =>
          (* [gap_usage.update(initial_state.gap_usage)] *)
          mkFrame (AllocationState.gap_usage s0 ∪ zero_usage)
                  (AllocationState.gap_index s0)
                  (AllocationState.current_cursor s0)
                  (AllocationState.current_label s0)
                  (AllocationState.gap_has_blocks s0) [] []
      end.

Definition frame_state (f : Frame) : AllocationState.t :=
      AllocationState.mk (gap_usage f) (gap_index f) (current_cursor f)
                         (current_label f) (gap_has_blocks f).

Definition assign_order_to_gaps (ordered_suggestions : list Suggestion.t)
        (initial_state : option AllocationState.t)
      : res (option (list ScheduledBlock.t * AllocationState.t
                     * list MovementLogEntry.t)) :=
      match ordered_suggestions with
      | [] => Ok (Some (@nil ScheduledBlock.t,
                      default fresh_state initial_state,
                      @nil MovementLogEntry.t))
      | _ =>
          do (f, ok) <-
            allocate_all ordered_suggestions (initial_frame initial_state) in
          if negb ok then Ok None
          else
            match current_gap f with
            | None => Ok (Some (schedule f, frame_state f, movement_logs f))
            | Some gap =>
                let cursor :=
                  default (Gap.start_location gap) (current_cursor f) in
                match ensure_gap_exit_ok f gap cursor (current_label f) with
                | None => Ok None
                | Some exit_info =>
                    let f' := leave_gap f gap exit_info in
                    Ok (Some (schedule f', frame_state f', movement_logs f'))
                end
            end
      end.

End Assign.

  (** ** Orchestrator: [schedule_suggestions] *)

  (** The mutable locals of [schedule_suggestions] that its closure
      [schedule_group] and its loops update. *)
Record Ctx : Type := mkCtx {
    state : option AllocationState.t;
    remaining : list Suggestion.t;
    ordered_total : list Suggestion.t;
    scheduled_blocks_total : list ScheduledBlock.t;
    allocated_minutes : gmap string Q;
    movement_log_total : list MovementLogEntry.t;
    dropped_total : list Suggestion.t;
    total_travel_cost : Q;
    permutations_total : nat
  }.

  (** [l.pop()]: the list without its last element, and that element. *)
Definition pop {A : Type} (l : list A) : option (list A * A) :=
    match rev l with
    | [] => None
    | x :: r => Some (rev r, x)
    end.

  (** [if c in remaining: remaining.remove(c)] followed by
      [dropped_total.append(c)]. *)
Definition drop_candidate (c : Suggestion.t) (ctx : Ctx) : Ctx :=
    {| state := state ctx;
       remaining := discard c (remaining ctx);
       ordered_total := ordered_total ctx;
       scheduled_blocks_total := scheduled_blocks_total ctx;
       allocated_minutes := allocated_minutes ctx;
       movement_log_total := movement_log_total ctx;
       dropped_total := dropped_total ctx ++ [c];
       total_travel_cost := total_travel_cost ctx;
       permutations_total := permutations_total ctx |}.

Section Orchestrator.

Variable gap_list : list Gap.t.
Variable gap_labels : gmap string (string * string).
Variable permutation_limit : Z.
Variable tolerance : Q.

    (** [while len(batch) > permutation_limit]: the lowest score goes
        first.  Popping from an empty batch raises [IndexError]. *)
Fixpoint shrink_batch (fuel : nat) (batch : list Suggestion.t) (ctx : Ctx)
      : res (list Suggestion.t * Ctx) :=
      match fuel with
      | O => NoFuel
      | S fuel' =>
          if (Z.of_nat (length batch) >? permutation_limit)%Z then
            match pop batch with
            | None => Raise IndexError
            | Some (batch', dropped_candidate) =>
                shrink_batch fuel' batch' (drop_candidate dropped_candidate ctx)
            end
          else Ok (batch, ctx)
      end.

    (** The updates made once an ordering has been placed. *)
Definition commit (ctx : Ctx) (order : list Suggestion.t)
        (travel_cost : Q) (permutations_checked : nat)
        (schedule : list ScheduledBlock.t) (state' : AllocationState.t)
        (movements : list MovementLogEntry.t) : Ctx :=
      {| state := Some state';
         remaining := fold_left (fun r s => discard s r) order (remaining ctx);
         ordered_total := ordered_total ctx ++ order;
         scheduled_blocks_total := scheduled_blocks_total ctx ++ schedule;
         allocated_minutes :=
           fold_left
             (fun m block =>
                dadd m (ScheduledBlock.suggestion_id block)
                     (ScheduledBlock.duration block))
             schedule (allocated_minutes ctx);
         movement_log_total := movement_log_total ctx ++ movements;
         dropped_total := dropped_total ctx;
         total_travel_cost := total_travel_cost ctx + travel_cost;
         permutations_total :=
           (permutations_total ctx + permutations_checked)%nat |}.

    (** [while working]: search an order, place it, and on failure drop
        the last element of [working] and retry.  Returns [success]. *)
Fixpoint place_batch (fuel : nat) (working : list Suggestion.t) (ctx : Ctx)
      : res (Ctx * bool) :=
      match fuel with
      | O => NoFuel
      | S fuel' =>
          let shrink (ctx : Ctx) : res (Ctx * bool) :=
            match pop working with
            | None => Raise IndexError
            | Some (working', dropped_candidate) =>
                place_batch fuel' working'
                            (drop_candidate dropped_candidate ctx)
            end in
          match working with
          | [] => Ok (ctx, false)
          | _ =>
              let start_location :=
                starting_location_for_state gap_list (state ctx) in
              let end_location := Gap.end_location <$> last gap_list in
              match start_location with
              | None => Ok (ctx, false)
              | Some start_location =>
                  match enumerate_best_order working (Some start_location)
                          end_location permutation_limit with
                  | Raise ValueError => shrink ctx
                  | Raise e => Raise e
                  | NoFuel => NoFuel
                  | Ok (order, travel_cost, permutations_checked) =>
                      do result <-
                        assign_order_to_gaps gap_list gap_labels tolerance
                          order (state ctx) in
                      match result with
                      | None => shrink ctx
                      | Some (schedule, state', movements) =>
                          Ok (commit ctx order travel_cost
                                permutations_checked schedule state'
                                movements, true)
                      end
                  end
              end
          end
      end.

Definition schedule_group (group : list Suggestion.t) (ctx : Ctx)
      : res (Ctx * bool) :=
      let batch := List.filter (fun s => mem s (remaining ctx)) group in
      match batch with
      | [] => Ok (ctx, false)
      | _ =>
          let batch := sort_by_score_desc batch in
          do (batch, ctx) <- shrink_batch (S (length batch)) batch ctx in
          match batch with
          | [] => Ok (ctx, false)
          | _ => place_batch (S (length batch)) batch ctx
          end
      end.

Variable max_distance : Q.
Variable resolution_minutes : Q.
Variable optional : list Suggestion.t.

    (** The [while remaining] loop over the optional suggestions. *)
Fixpoint optional_loop (fuel : nat) (ctx : Ctx) : res Ctx :=
      match fuel with
      | O => NoFuel
      | S fuel' =>
          match remaining ctx with
          | [] => Ok ctx
          | _ =>
              let capacity :=
                remaining_capacity gap_list (state ctx) tolerance in
              if Qleb capacity tolerance then Ok ctx
              else
                let optional_remaining :=
                  List.filter (fun s => mem s (remaining ctx)) optional in
                match optional_remaining with
                | [] => Ok ctx
                | _ =>
                    do selected <-
                      greedy_select_candidates optional_remaining gap_list
                        max_distance (Some capacity) tolerance
                        resolution_minutes in
                    match selected with
                    | [] => Ok ctx
                    | _ =>
                        let selected := sort_by_score_desc selected in
                        let location_selected :=
                          List.filter
                            (fun s =>
                               truthy (Suggestion.location_preference s)
                               && mem s (remaining ctx))
                            selected in
                        do (ctx, location_scheduled) <-
                          match location_selected with
                          | [] => Ok (ctx, false)
                          | _ => schedule_group location_selected ctx
                          end in
                        if location_scheduled then optional_loop fuel' ctx
                        else
                          let flexible_selected :=
                            List.filter
                              (fun s =>
                                 negb (truthy
                                         (Suggestion.location_preference s))
                                 && mem s (remaining ctx))
                              selected in
                          match flexible_selected with
                          | [] => Ok ctx
                          | _ =>
                              do (ctx, ok) <-
                                schedule_group flexible_selected ctx in
                              if ok then optional_loop fuel' ctx else Ok ctx
                          end
                    end
                end
          end
      end.

End Orchestrator.

Definition infeasible_result (suggestion_list : list Suggestion.t)
      (unused : Q) : ScheduleResult.t :=
    {| ScheduleResult.ordered_suggestions := [];
       ScheduleResult.scheduled_blocks := [];
       ScheduleResult.travel_cost := 0;
       ScheduleResult.dropped_suggestions := suggestion_list;
       ScheduleResult.unused_gap_time := unused;
       ScheduleResult.permutations_evaluated := 0;
       ScheduleResult.allocated_minutes := ∅;
       ScheduleResult.movement_log := [] |}.

Definition mandatory_of (tolerance : Q) (suggestion_list : list Suggestion.t)
    : list Suggestion.t :=
    List.filter (is_mandatory tolerance) suggestion_list.

Definition optional_of (tolerance : Q) (suggestion_list : list Suggestion.t)
    : list Suggestion.t :=
    List.filter (fun s => negb (mem s (mandatory_of tolerance suggestion_list)))
                suggestion_list.

  (** The mandatory phase followed by the optional loop; [None] when the
      mandatory phase fails.  The context it returns holds the locals at
      the end of the loop. *)
Definition run_phases (suggestion_list : list Suggestion.t)
      (gap_list : list Gap.t) (max_distance : Q) (permutation_limit : Z)
      (tolerance resolution_minutes : Q) : res (option Ctx) :=
    let gap_labels := resolve_gap_labels gap_list in
    let mandatory := mandatory_of tolerance suggestion_list in
    let optional := optional_of tolerance suggestion_list in
    let ctx0 :=
      {| state := None;
         remaining := mandatory ++ optional;
         ordered_total := [];
         scheduled_blocks_total := [];
         allocated_minutes := ∅;
         movement_log_total := [];
         dropped_total := [];
         total_travel_cost := 0;
         permutations_total := 0 |} in
    let mandatory_remaining :=
      List.filter (fun s => mem s (remaining ctx0)) mandatory in
    do (ctx1, ok) <-
      match mandatory_remaining with
      | [] => Ok (ctx0, true)
      | _ => schedule_group gap_list gap_labels permutation_limit tolerance
               mandatory_remaining ctx0
      end in
    if negb ok then Ok None
    else
      do ctx2 <-
        optional_loop gap_list gap_labels permutation_limit tolerance
          max_distance resolution_minutes optional
          (S (length (remaining ctx1))) ctx1 in
      Ok (Some ctx2).

Definition final_result (gap_list : list Gap.t) (tolerance : Q) (ctx : Ctx)
    : ScheduleResult.t :=
    let unused_time :=
      match state ctx with
      | None => total_gap_minutes gap_list
      | Some _ => remaining_capacity gap_list (state ctx) tolerance
      end in
    let dropped :=
      dropped_total ctx
      ++ List.filter (fun s => negb (mem s (dropped_total ctx)))
                     (remaining ctx) in
    {| ScheduleResult.ordered_suggestions := ordered_total ctx;
       ScheduleResult.scheduled_blocks :=
         sort_by block_key_lt (scheduled_blocks_total ctx);
       ScheduleResult.travel_cost := total_travel_cost ctx;
       ScheduleResult.dropped_suggestions := dropped;
       ScheduleResult.unused_gap_time := unused_time;
       ScheduleResult.permutations_evaluated := permutations_total ctx;
       ScheduleResult.allocated_minutes := allocated_minutes ctx;
       ScheduleResult.movement_log := movement_log_total ctx |}.

Definition schedule_suggestions (suggestions : list Suggestion.t)
      (gaps : list Gap.t) (max_distance : Q) (permutation_limit : Z)
      (tolerance resolution_minutes : Q) : res ScheduleResult.t :=
    let gap_list := gaps in
    let suggestion_list := suggestions in
    match gap_list with
    | [] => Ok (infeasible_result suggestion_list 0)
    | _ =>
        let mandatory := mandatory_of tolerance suggestion_list in
        let total_gap_time := total_gap_minutes gap_list in
        let total_mand_duration :=
          py_sum (map Suggestion.duration mandatory) in
        if Qgtb total_mand_duration (total_gap_time + tolerance)
        then Ok (infeasible_result suggestion_list total_gap_time)
        else
          do phases <-
            run_phases suggestion_list gap_list max_distance
              permutation_limit tolerance resolution_minutes in
          match phases with
          | None => Ok (infeasible_result suggestion_list total_gap_time)
          | Some ctx => Ok (final_result gap_list tolerance ctx)
          end
    end.

End Scheduler.

(** Default values of the keyword arguments. *)
Definition default_max_distance : Q := 3.
Definition default_permutation_limit : Z := 8.
Definition default_tolerance : Q := 1 # 1000000.
Definition default_resolution_minutes : Q := 1.

(** ** An executable distance

    The exact root when the sum of squares is the square of a rational
    (in particular along an axis), otherwise the root rounded down to a
    multiple of [1 / (1000000 * d)] for the denominator [d] of the sum. *)
Definition sqrt_rat (x : Q) : Q :=
  let n := Qnum x in
  let d := Zpos (Qden x) in
  let exact := Z.sqrt (n * d) in
  if (exact * exact =? n * d)%Z then Qmake exact (Qden x)
  else
    Qmake (Z.sqrt (n * d * 1000000 * 1000000)) (Qden x * 1000000).

Definition hypot_rat (x y : Q) : Q := sqrt_rat (Qred (x * x + y * y)).



(** ** Methods of [ScheduleResult] *)

(** [ScheduleResult.is_feasible]: [bool(self.scheduled_blocks)]. *)
Definition is_feasible (r : ScheduleResult.t) : bool :=
  match ScheduleResult.scheduled_blocks r with
  | [] => false
  | _ :: _ => true
  end.

(** [ScheduleResult.blocks_used]: the share of the suggestion's duration
    that was allocated. *)
Definition blocks_used (r : ScheduleResult.t) (suggestion : Suggestion.t)
  : res Q :=
  let minutes :=
    dget (ScheduleResult.allocated_minutes r)
         (Suggestion.suggestion_id suggestion) in
  if Qeqb (Suggestion.duration suggestion) 0 then Ok 0
  else py_div minutes (Suggestion.duration suggestion).


(** ** The ordering search over floating-point costs

    [enumerate_best_order] above computes with exact rationals, each of
    which is below [math.inf], so that the first ordering always becomes
    the best one.  Here the same search is written over a type of floats
    of which only the operations that the search uses are given: a cost
    may then be [inf], and the comparison with [best_cost_minutes] may
    fail for every ordering. *)
Section FloatSearch.

Variable F : Type.

  (** [0.0], [math.inf], [+], [<], and the minutes that
      [travel_minutes_between] returns. *)
Variables fzero finf : F.
Variable fadd : F -> F -> F.
Variable flt : F -> F -> bool.
Variable fminutes : Coordinate -> Coordinate -> F.

Definition order_cost_float (start_location end_location : option Coordinate)
      (permutation : list Suggestion.t) : F :=
    let '(cost, previous) :=
      fold_left
        (fun '(cost, previous) suggestion =>
           let cost' :=
             match previous with
             | Some p => fadd cost (fminutes p (Suggestion.location suggestion))
             | None => cost
             end in
           (cost', Some (Suggestion.location suggestion)))
        permutation (fzero, start_location) in
    match previous, end_location with
    | Some p, Some e => fadd cost (fminutes p e)
    | _, _ => cost
    end.

  (** One turn of the loop over the orderings, on the triple
      [(best_order, best_cost_minutes, permutations_checked)]. *)
Definition best_step_float (start_location end_location : option Coordinate)
      (st : option (list Suggestion.t) * F * nat)
      (permutation : list Suggestion.t)
    : option (list Suggestion.t) * F * nat :=
    let '(best_order, best_cost_minutes, permutations_checked) := st in
    let travel_cost_minutes :=
      order_cost_float start_location end_location permutation in
    if flt travel_cost_minutes best_cost_minutes
    then (Some permutation, travel_cost_minutes, S permutations_checked)
    else (best_order, best_cost_minutes, S permutations_checked).

Definition enumerate_best_order_float (suggestions : list Suggestion.t)
      (start_location end_location : option Coordinate)
      (permutation_limit : Z)
    : res (list Suggestion.t * F * nat) :=
    let n := length suggestions in
    if (n =? 0)%nat then Ok ([], fzero, 0%nat)
    else if (Z.of_nat n >? permutation_limit)%Z then Raise ValueError
    else
      let '(best_order, best_cost_minutes, permutations_checked) :=
        fold_left (best_step_float start_location end_location)
                  (permutations suggestions) (None, finf, 0%nat) in
      match best_order with
      | None => Raise AssertionError
      | Some best_order =>
          Ok (best_order, best_cost_minutes, permutations_checked)
      end.

End FloatSearch.

(** Exact costs: a rational, or [None] for [inf]. *)
Definition exact_add (a b : option Q) : option Q :=
  match a, b with
  | Some x, Some y => Some (x + y)
  | _, _ => None
  end.

Definition exact_lt (a b : option Q) : bool :=
  match a, b with
  | Some x, Some y => Qltb x y
  | Some _, None => true
  | None, _ => false
  end.

Definition exact_minutes (hypot : Q -> Q -> Q) (a b : Coordinate)
  : option Q :=
  Some (snd (travel_minutes_between hypot a b)).

(** Costs in the range of the doubles: the largest finite double is
    [(2 - 2^-52) * 2^1023], and a result beyond it is [inf].  Rounding
    within the range is not modelled. *)
Definition FLOAT_MAX : Q := inject_Z (2 ^ 1024 - 2 ^ 971).

Definition overflow (x : Q) : option Q :=
  if Qleb (Qabs x) FLOAT_MAX then Some x else None.

Definition double_add (a b : option Q) : option Q :=
  match a, b with
  | Some x, Some y => overflow (x + y)
  | _, _ => None
  end.

Definition double_minutes (a b : Coordinate) : option Q :=
  match overflow (fst a - fst b), overflow (snd a - snd b) with
  | Some dx, Some dy =>
      match overflow (hypot_rat dx dy) with
      | Some distance => overflow (distance * MINUTES_PER_DISTANCE_UNIT)
      | None => None
      end
  | _, _ => None
  end.

(** * Definitions used to state the properties *)

(** The right-to-left sum, with which [sum] agrees. *)
Fixpoint Qsum (l : list Q) : Q :=
  match l with
  | [] => 0
  | x :: l' => x + Qsum l'
  end.


(** Travel minutes of a route as the specification words it: the sum of
    the legs between consecutive points of the route that starts at the
    start anchor (when there is one), visits the suggestions in order and
    ends at the end anchor (when there is one). *)
Definition leg (hypot : Q -> Q -> Q) (a b : Coordinate) : Q :=
  snd (travel_minutes_between hypot a b).




(** The knapsack optimum by its recurrence: the best total value of a
    selection among [items] (last item first) whose weights sum to at most
    [w]; [takes] tells whether the last item belongs to it. *)
Definition takes (rest_value : nat -> Q) (w_i : nat) (v_i : Q) (w : nat)
  : bool :=
  (w_i <=? w)%nat && Qgtb (rest_value (w - w_i)%nat + v_i) (rest_value w).

Fixpoint opt_value (wt : Suggestion.t -> nat) (items : list Suggestion.t)
    (w : nat) : Q :=
  match items with
  | [] => 0
  | s :: rest =>
      if takes (opt_value wt rest) (wt s) (Suggestion.score s) w
      then opt_value wt rest (w - wt s) + Suggestion.score s
      else opt_value wt rest w
  end.

Definition total_score (l : list Suggestion.t) : Q :=
  Qsum (map Suggestion.score l).

Definition nat_weight (wt : Suggestion.t -> nat) (l : list Suggestion.t)
  : nat :=
  list_sum (map wt l).

(** Total weight in DP units, as the specification words it. *)
Definition total_weight (resolution_minutes : Q) (l : list Suggestion.t) : Z :=
  fold_right Z.add 0%Z (map (item_weight resolution_minutes) l).

(** The rows of [take], listed from the last item to the first, record
    the decisions of the recurrence. *)
Fixpoint rows_ok (W : nat) (wt : Suggestion.t -> nat)
    (rows : list (Suggestion.t * nat * list bool)) : Prop :=
  match rows with
  | [] => True
  | (s, w_i, row) :: rest =>
      w_i = wt s /\
      (forall w, (w <= W)%nat ->
         bget row w
         = takes (opt_value wt (map (fun x => fst (fst x)) rest))
                 (wt s) (Suggestion.score s) w) /\
      rows_ok W wt rest
  end.

(** Descending order of scores. *)
Definition score_ge (a b : Suggestion.t) : Prop :=
  Suggestion.score b <= Suggestion.score a.


(** The value and the decision that the inner loop writes at capacity
    [w], in terms of the table [dp0] before the loop. *)
Definition cell_value (dp0 : list Q) (w_i : nat) (v_i : Q) (w : nat) : Q :=
  if Qgtb (qget dp0 (w - w_i) + v_i) (qget dp0 w)
  then qget dp0 (w - w_i) + v_i
  else qget dp0 w.

Definition cell_taken (dp0 : list Q) (w_i : nat) (v_i : Q) (w : nat) : bool :=
  Qgtb (qget dp0 (w - w_i) + v_i) (qget dp0 w).


(** ** The placement engine as a step relation *)

Section PlacementSteps.

Variable hypot : Q -> Q -> Q.
Variable gaps : list Gap.t.
Variable gap_labels : gmap string (string * string).
Variable tolerance : Q.

(** The travel leg to a suggestion is paid when it exceeds the
    tolerance. *)
Definition pay_travel (f : Frame) (gap : Gap.t) (suggestion : Suggestion.t)
  : Frame :=
  let cursor := default (Gap.start_location gap) (current_cursor f) in
  let label := default (gap_start_label gap_labels gap) (current_label f) in
  let '(distance, travel_in) :=
    travel_minutes_between hypot cursor (Suggestion.location suggestion) in
  if Qgtb travel_in tolerance then
    {| gap_usage := dadd (gap_usage f) (Gap.gap_id gap) travel_in;
       gap_index := gap_index f;
       current_cursor := current_cursor f;
       current_label := current_label f;
       gap_has_blocks := gap_has_blocks f;
       schedule := schedule f;
       movement_logs :=
         movement_logs f
         ++ [MovementLogEntry.mk label (Suggestion.suggestion_id suggestion)
               distance travel_in] |}
  else f.

(** The block recorded for a suggestion placed in [gap]. *)
Definition block_of (f : Frame) (gap : Gap.t) (suggestion : Suggestion.t)
  : ScheduledBlock.t :=
  ScheduledBlock.mk (Suggestion.suggestion_id suggestion) (Gap.gap_id gap)
    (dget (gap_usage f) (Gap.gap_id gap)) (Suggestion.duration suggestion)
    (Suggestion.location suggestion).

Definition place_block (f : Frame) (gap : Gap.t) (suggestion : Suggestion.t)
  : Frame :=
  {| gap_usage :=
       dadd (gap_usage f) (Gap.gap_id gap) (Suggestion.duration suggestion);
     gap_index := gap_index f;
     current_cursor := Some (Suggestion.location suggestion);
     current_label := Some (Suggestion.suggestion_id suggestion);
     gap_has_blocks := true;
     schedule := schedule f ++ [block_of f gap suggestion];
     movement_logs := movement_logs f |}.

(** The guards under which a suggestion is placed at the current
    position of the frame. *)
Record placeable (f : Frame) (gap : Gap.t) (suggestion : Suggestion.t)
    (is_last_suggestion : bool) : Prop := {
  placeable_gap : current_gap gaps f = Some gap;
  placeable_room :
    tolerance < Gap.duration gap - dget (gap_usage f) (Gap.gap_id gap);
  placeable_preference :
    preference_blocks hypot gaps gap_labels tolerance f gap
      (default (Gap.start_location gap) (current_cursor f))
      (Gap.duration gap - dget (gap_usage f) (Gap.gap_id gap))
      suggestion is_last_suggestion = false;
  placeable_fits :
    snd (travel_minutes_between hypot
           (default (Gap.start_location gap) (current_cursor f))
           (Suggestion.location suggestion))
    + Suggestion.duration suggestion
    <= Gap.duration gap - dget (gap_usage f) (Gap.gap_id gap) + tolerance;
  placeable_duration :
    Suggestion.duration suggestion
    <= Gap.duration gap
       - dget (gap_usage (pay_travel f gap suggestion)) (Gap.gap_id gap)
       + tolerance
}.

(** The exit leg of the current gap is affordable. *)
Definition can_leave (f : Frame) (gap : Gap.t)
    (exit_info : Q * Q * string * string) : Prop :=
  current_gap gaps f = Some gap /\
  ensure_gap_exit_ok hypot gap_labels tolerance f gap
    (default (Gap.start_location gap) (current_cursor f)) (current_label f)
  = Some exit_info.

(** [allocates s last f f' ok]: one call of [allocate_suggestion] takes
    the frame [f] to [f'] and returns [ok]. *)
Inductive allocates (suggestion : Suggestion.t) (is_last_suggestion : bool)
  : Frame -> Frame -> bool -> Prop :=
| allocates_no_gap f :
    current_gap gaps f = None ->
    allocates suggestion is_last_suggestion f f false
| allocates_stuck f gap :
    current_gap gaps f = Some gap ->
    ensure_gap_exit_ok hypot gap_labels tolerance f gap
      (default (Gap.start_location gap) (current_cursor f)) (current_label f)
    = None ->
    allocates suggestion is_last_suggestion f f false
| allocates_leave_last f gap exit_info :
    can_leave f gap exit_info ->
    (length gaps <= S (gap_index f))%nat ->
    allocates suggestion is_last_suggestion f
      (leave_gap tolerance f gap exit_info) false
| allocates_leave f gap exit_info f' ok :
    can_leave f gap exit_info ->
    (S (gap_index f) < length gaps)%nat ->
    allocates suggestion is_last_suggestion
      (leave_gap tolerance f gap exit_info) f' ok ->
    allocates suggestion is_last_suggestion f f' ok
| allocates_place f gap :
    placeable f gap suggestion is_last_suggestion ->
    allocates suggestion is_last_suggestion f
      (place_block (pay_travel f gap suggestion) gap suggestion) true.

(** The loop over an ordering. *)
Inductive allocates_all : list Suggestion.t -> Frame -> Frame -> bool -> Prop :=
| allocates_all_nil f : allocates_all [] f f true
| allocates_all_fail suggestion rest f f' :
    allocates suggestion (bool_decide (rest = [])) f f' false ->
    allocates_all (suggestion :: rest) f f' false
| allocates_all_cons suggestion rest f f1 f' ok :
    allocates suggestion (bool_decide (rest = [])) f f1 true ->
    allocates_all rest f1 f' ok ->
    allocates_all (suggestion :: rest) f f' ok.

(** The end of [assign_order_to_gaps]: the open gap, if any, is left. *)
Inductive closes : Frame -> Frame -> Prop :=
| closes_no_gap f : current_gap gaps f = None -> closes f f
| closes_leave f gap exit_info :
    can_leave f gap exit_info ->
    closes f (leave_gap tolerance f gap exit_info).

End PlacementSteps.

(** [continue] after [shift_to_next_gap], or [return False]. *)
Definition advance_with (hypot : Q -> Q -> Q) (gaps : list Gap.t)
    (gap_labels : gmap string (string * string)) (tolerance : Q)
    (k : Frame -> res (Frame * bool)) (f : Frame) : res (Frame * bool) :=
  let '(f', ok) := shift_to_next_gap hypot gaps gap_labels tolerance f in
  if ok then k f' else Ok (f', false).

(** A block records the identifier, duration and location of the
    suggestion it was made for. *)
Definition block_for (s : Suggestion.t) (b : ScheduledBlock.t) : Prop :=
  ScheduledBlock.suggestion_id b = Suggestion.suggestion_id s /\
  ScheduledBlock.duration b = Suggestion.duration s /\
  ScheduledBlock.location b = Suggestion.location s.

(** A location preference other than the supported one. *)
Definition unsupported (s : Suggestion.t) : Prop :=
  exists p,
    Suggestion.location_preference s = Some p /\ p <> "" /\ p <> "near_home".

Definition near_home (s : Suggestion.t) : Prop :=
  Suggestion.location_preference s = Some "near_home".

(** Capacity conservation for a usage table. *)
Definition within_capacity (gaps : list Gap.t) (tolerance : Q)
    (usage : gmap string Q) : Prop :=
  forall gap, In gap gaps ->
    dget usage (Gap.gap_id gap) <= Gap.duration gap + tolerance.

(** ** The orchestrator as a step relation

    The locals of [schedule_suggestions] change in two ways only: a
    candidate is dropped, or an ordering that has been placed is
    committed. *)
Inductive ctx_step (hypot : Q -> Q -> Q) (gap_list : list Gap.t)
    (gap_labels : gmap string (string * string)) (tolerance : Q)
    (pool : list Suggestion.t) : Ctx -> Ctx -> Prop :=
| ctx_drop ctx c :
    In c pool ->
    ctx_step hypot gap_list gap_labels tolerance pool
      ctx (drop_candidate c ctx)
| ctx_commit ctx order travel_cost permutations_checked blocks state' logs :
    order <> [] ->
    (forall s, In s order -> In s pool) ->
    assign_order_to_gaps hypot gap_list gap_labels tolerance order
      (state ctx) = Ok (Some (blocks, state', logs)) ->
    ctx_step hypot gap_list gap_labels tolerance pool
      ctx (commit ctx order travel_cost permutations_checked blocks state'
             logs).

Definition ctx_steps (hypot : Q -> Q -> Q) (gap_list : list Gap.t)
    (gap_labels : gmap string (string * string)) (tolerance : Q)
    (pool : list Suggestion.t) : Ctx -> Ctx -> Prop :=
  rtc (ctx_step hypot gap_list gap_labels tolerance pool).

(** The exceptions that a configuration outside its domain causes: a
    negative [permutation_limit] empties a batch and pops once more; a
    zero [resolution_minutes] divides by zero. *)
Definition misconfigured (permutation_limit : Z) (resolution_minutes : Q)
    (e : exn) : Prop :=
  (e = IndexError /\ (permutation_limit < 0)%Z) \/
  (e = ZeroDivisionError /\ resolution_minutes == 0).

(** [outcome bad P r]: the computation did not run out of fuel; it
    returned a value satisfying [P] or raised an exception allowed by
    [bad]. *)
Definition outcome {A : Type} (bad : exn -> Prop) (P : A -> Prop)
    (r : res A) : Prop :=
  match r with
  | Ok a => P a
  | Raise e => bad e
  | NoFuel => False
  end.

(** The locals at the start of the mandatory phase. *)
Definition initial_ctx (tolerance : Q) (suggestion_list : list Suggestion.t)
  : Ctx :=
  {| state := None;
     remaining := mandatory_of tolerance suggestion_list
                  ++ optional_of tolerance suggestion_list;
     ordered_total := [];
     scheduled_blocks_total := [];
     allocated_minutes := ∅;
     movement_log_total := [];
     dropped_total := [];
     total_travel_cost := 0;
     permutations_total := 0 |}.

(** The first change that a batch makes to the locals: one of its
    members is dropped, or an ordering of some of its members is
    committed. *)
Definition first_event (hypot : Q -> Q -> Q) (gap_list : list Gap.t)
    (gap_labels : gmap string (string * string)) (tolerance : Q)
    (pool working : list Suggestion.t) (ctx ctx' : Ctx) : Prop :=
  (exists c,
     In c working /\
     ctx_steps hypot gap_list gap_labels tolerance pool
       (drop_candidate c ctx) ctx') \/
  (exists order travel_cost permutations_checked blocks state' logs,
     order <> [] /\ (forall s, In s order -> In s working) /\
     ctx' = commit ctx order travel_cost permutations_checked blocks state'
              logs).

(** Every suggestion of the pool is, up to equality, still remaining,
    dropped, or placed; the placed ones have a supported preference and
    come from the pool, and every block was made for a placed one. *)
Definition accounted (pool : list Suggestion.t) (ctx : Ctx) : Prop :=
  (forall s, In s pool ->
     mem s (remaining ctx) = true \/ mem s (dropped_total ctx) = true \/
     mem s (ordered_total ctx) = true) /\
  (forall s, In s (ordered_total ctx) -> In s pool /\ ~ unsupported s) /\
  (forall b, In b (scheduled_blocks_total ctx) ->
     exists s, In s (ordered_total ctx) /\ block_for s b).


(** Minutes of the blocks recorded against the gap identified by [k]. *)
Definition block_minutes (k : string) (blocks : list ScheduledBlock.t) : Q :=
  Qsum (map ScheduledBlock.duration
          (List.filter (fun b => String.eqb (ScheduledBlock.gap_id b) k)
                       blocks)).

(** The usage table accounts for at least [base] and the blocks. *)
Definition covers (base : string -> Q) (blocks : list ScheduledBlock.t)
    (usage : gmap string Q) : Prop :=
  forall k, base k + block_minutes k blocks <= dget usage k.

(** The usage carried by the locals: nothing before the first
    placement. *)
Definition ctx_usage (ctx : Ctx) (k : string) : Q :=
  match state ctx with
  | Some st => dget (AllocationState.gap_usage st) k
  | None => 0
  end.

(** ** Placement of near-home blocks *)

(** Offset of the first block of a gap: the travel from the gap's start,
    when it is paid. *)
Definition entry_offset (hypot : Q -> Q -> Q) (tolerance : Q) (gap : Gap.t)
    (location : Coordinate) : Q :=
  let travel_in :=
    snd (travel_minutes_between hypot (Gap.start_location gap) location) in
  if Qgtb travel_in tolerance then travel_in else 0.

(** The block is the first thing placed in the first gap. *)
Definition at_first_gap_start (hypot : Q -> Q -> Q) (gaps : list Gap.t)
    (tolerance : Q) (b : ScheduledBlock.t) : Prop :=
  exists g,
    gaps !! 0%nat = Some g /\
    ScheduledBlock.gap_id b = Gap.gap_id g /\
    ScheduledBlock.start_offset b
    == entry_offset hypot tolerance g (ScheduledBlock.location b).

(** The block lies in the last gap. *)
Definition in_last_gap (gaps : list Gap.t) (b : ScheduledBlock.t) : Prop :=
  exists g, last gaps = Some g /\ ScheduledBlock.gap_id b = Gap.gap_id g.

(** The block ends the last gap: with the travel back to the gap's end
    it reaches the end of the gap. *)
Definition at_last_gap_end (hypot : Q -> Q -> Q) (gaps : list Gap.t)
    (b : ScheduledBlock.t) : Prop :=
  exists g,
    last gaps = Some g /\ ScheduledBlock.gap_id b = Gap.gap_id g /\
    Gap.duration g
    <= ScheduledBlock.start_offset b + ScheduledBlock.duration b
       + snd (travel_minutes_between hypot (ScheduledBlock.location b)
                (Gap.end_location g)).

(** Nothing is recorded yet when the frame is at the start of the first
    gap. *)
Definition untouched (index : nat) (cursor : option Coordinate)
    (usage : gmap string Q) : Prop :=
  index = 0%nat -> cursor = None -> forall k, dget usage k == 0.

(** A block made for a suggestion of the pool, at a home boundary when
    the suggestion is a non-mandatory near-home one. *)
Definition block_placed_ok (hypot : Q -> Q -> Q) (gaps : list Gap.t)
    (tolerance : Q) (pool : list Suggestion.t) (b : ScheduledBlock.t)
  : Prop :=
  exists s,
    In s pool /\ block_for s b /\
    (near_home s -> is_mandatory tolerance s = false ->
     at_first_gap_start hypot gaps tolerance b \/ in_last_gap gaps b).

(** ** Mandatory suggestions that fit in the first gap *)

(** The frame is in the first gap, at its start or at the shared
    location [L], and the gap still has room for the travel to [L] (when
    at the start), the suggestions to do and the travel to the gap's
    end. *)
Definition ready (hypot : Q -> Q -> Q) (g0 : Gap.t) (L : Coordinate)
    (f : Frame) (todo : list Suggestion.t) : Prop :=
  gap_index f = 0%nat /\
  (current_cursor f = None \/ current_cursor f = Some L) /\
  dget (gap_usage f) (Gap.gap_id g0)
  + (match current_cursor f with
     | None => leg hypot (Gap.start_location g0) L
     | Some _ => 0
     end)
  + Qsum (map Suggestion.duration todo)
  + leg hypot L (Gap.end_location g0)
  <= Gap.duration g0.

(** A mandatory suggestion at [L] that the engine does not refuse: its
    preference is supported and it lasts longer than the tolerance. *)
Definition fits_at (tolerance : Q) (L : Coordinate) (s : Suggestion.t)
  : Prop :=
  is_mandatory tolerance s = true /\
  Suggestion.location s = L /\
  ~ unsupported s /\
  tolerance < Suggestion.duration s.

(** A block made for [s] in the gap [g]. *)
Definition block_in (g : Gap.t) (s : Suggestion.t) (b : ScheduledBlock.t)
  : Prop :=
  block_for s b /\ ScheduledBlock.gap_id b = Gap.gap_id g.

(** The labels of the gap at position [idx] among [total] gaps: its own
    labels when present and non-empty, otherwise "home" at the outer
    boundaries and names derived from the identifier elsewhere. *)
Definition expected_labels (total idx : nat) (gap : Gap.t) : string * string :=
  (or_else (Gap.start_label gap)
     (if (idx =? 0)%nat then HOME_LABEL
      else (Gap.gap_id gap ++ ":start")%string),
   or_else (Gap.end_label gap)
     (if (S idx =? total)%nat then HOME_LABEL
      else (Gap.gap_id gap ++ ":end")%string)).

(** The body of the loop of [resolve_gap_labels]. *)
Definition label_step (total : nat) (labels : gmap string (string * string))
    (entry : nat * Gap.t) : gmap string (string * string) :=
  <[Gap.gap_id (snd entry) := expected_labels total (fst entry) (snd entry)]>
    labels.

(** ** Bookkeeping of the orchestrator *)

(** Minutes of the blocks that carry the suggestion identifier [k]. *)
Definition minutes_of (k : string) (blocks : list ScheduledBlock.t) : Q :=
  Qsum (map ScheduledBlock.duration
          (List.filter
             (fun b => String.eqb (ScheduledBlock.suggestion_id b) k)
             blocks)).

(** The suggestions of [order] that carry the identifier [k]. *)
Definition carrying (k : string) (order : list Suggestion.t)
  : list Suggestion.t :=
  List.filter (fun s => String.eqb (Suggestion.suggestion_id s) k) order.

(** Total duration of the suggestions of [order] that carry [k]. *)
Definition placed_minutes (k : string) (order : list Suggestion.t) : Q :=
  Qsum (map Suggestion.duration (carrying k order)).

(** The blocks recorded so far are those of the placed suggestions, one
    each and in order, and the minutes table is their tally. *)
Definition tallied (ctx : Ctx) : Prop :=
  Forall2 block_for (ordered_total ctx) (scheduled_blocks_total ctx) /\
  forall k,
    dget (allocated_minutes ctx) k
    == minutes_of k (scheduled_blocks_total ctx).

(** What is still remaining and what was dropped comes from the pool. *)
Definition sourced (pool : list Suggestion.t) (ctx : Ctx) : Prop :=
  (forall s, In s (remaining ctx) -> In s pool) /\
  (forall s, In s (dropped_total ctx) -> In s pool).

(** The sort key of the blocks of a result, [(gap_id, start_offset)],
    compared as Python compares tuples: [a] does not come after [b]. *)
Definition block_key_le (a b : ScheduledBlock.t) : Prop :=
  block_key_lt b a = false.

(** Capacity per identifier, for gap lists in which identifiers may
    repeat: the usage recorded under the identifier of a gap is within
    the capacity of some gap that carries this identifier. *)
Definition within_some_capacity (gaps : list Gap.t) (tolerance : Q)
    (usage : gmap string Q) : Prop :=
  forall gap, In gap gaps ->
    exists g,
      In g gaps /\ Gap.gap_id g = Gap.gap_id gap /\
      dget usage (Gap.gap_id gap) <= Gap.duration g + tolerance.


(** ** Blocks of one gap do not overlap *)

Definition block_end (b : ScheduledBlock.t) : Q :=
  ScheduledBlock.start_offset b + ScheduledBlock.duration b.

(** [b] starts where [a] has ended, when both are in the same gap. *)
Definition follows (a b : ScheduledBlock.t) : Prop :=
  ScheduledBlock.gap_id a = ScheduledBlock.gap_id b ->
  block_end a <= ScheduledBlock.start_offset b.

Definition disjoint_blocks (a b : ScheduledBlock.t) : Prop :=
  ScheduledBlock.gap_id a = ScheduledBlock.gap_id b ->
  block_end a <= ScheduledBlock.start_offset b \/
  block_end b <= ScheduledBlock.start_offset a.

(** The blocks are stacked on top of [base]: each starts at or above the
    base of its gap and ends at or below the usage recorded for it, and
    each starts where the earlier ones of its gap have ended. *)
Definition stacked (base : string -> Q) (blocks : list ScheduledBlock.t)
    (usage : gmap string Q) : Prop :=
  (forall k, base k <= dget usage k) /\
  Forall (fun b =>
            base (ScheduledBlock.gap_id b) <= ScheduledBlock.start_offset b /\
            block_end b <= dget usage (ScheduledBlock.gap_id b)) blocks /\
  ForallOrdPairs follows blocks.

(** The blocks recorded by the orchestrator end within the usage carried
    by its state and follow one another within each gap. *)
Definition ctx_stacked (ctx : Ctx) : Prop :=
  Forall (fun b => block_end b <= ctx_usage ctx (ScheduledBlock.gap_id b))
         (scheduled_blocks_total ctx) /\
  ForallOrdPairs follows (scheduled_blocks_total ctx).


(** * Concrete inputs *)

(** Inputs used to evaluate the scheduler: the scenarios of the module's
    own tests. *)
Definition test_gap_180 : Gap.t := Gap.mk "g1" 180 (0, 0) (0, 0) None None.
Definition test_gap_100 : Gap.t := Gap.mk "g1" 100 (0, 0) (0, 0) None None.
Definition test_A : Suggestion.t :=
  Suggestion.mk "A" 1 (1 # 2) 120 (0, 0) None.
Definition test_B : Suggestion.t :=
  Suggestion.mk "B" (1 # 2) (4 # 10) 90 (0, 0) None.
Definition test_A150 : Suggestion.t :=
  Suggestion.mk "A" 1 (1 # 2) 150 (0, 0) None.

(** A gap and a mandatory suggestion longer than it by half the default
    tolerance. *)
Definition tight_gap : Gap.t := Gap.mk "g1" 10 (0, 0) (0, 0) None None.
Definition tight_A : Suggestion.t :=
  Suggestion.mk "A" 1 (1 # 2) (20000001 # 2000000) (0, 0) None.


(** Suggestions with a preference that is not supported, next to a plain
    one, in a gap that has room for all of them. *)
Definition test_midtown : Suggestion.t :=
  Suggestion.mk "M" (1 # 2) (9 # 10) 30 (0, 0) (Some "midtown").
Definition test_plain : Suggestion.t :=
  Suggestion.mk "P" (1 # 2) (1 # 2) 30 (0, 0) None.

(** Two optional near-home suggestions and two gaps, the first of which
    is too short for either. *)
Definition short_gap : Gap.t := Gap.mk "g1" 5 (0, 0) (0, 0) None None.
Definition long_gap : Gap.t := Gap.mk "g2" 100 (0, 0) (0, 0) None None.
Definition home_S1 : Suggestion.t :=
  Suggestion.mk "S1" (1 # 2) (1 # 2) 10 (0, 0) (Some "near_home").
Definition home_S2 : Suggestion.t :=
  Suggestion.mk "S2" (1 # 2) (4 # 10) 10 (0, 0) (Some "near_home").

(** Two gaps of ten minutes and a mandatory suggestion of fifteen, all at
    the origin. *)
Definition ten_gap_1 : Gap.t := Gap.mk "g1" 10 (0, 0) (0, 0) None None.
Definition ten_gap_2 : Gap.t := Gap.mk "g2" 10 (0, 0) (0, 0) None None.

(** Two gaps that carry the same identifier, of 100 and of 10 minutes, and
    an optional suggestion of 50 minutes, all at the origin. *)
Definition twin_gap_100 : Gap.t := Gap.mk "a" 100 (0, 0) (0, 0) None None.
Definition twin_gap_10 : Gap.t := Gap.mk "a" 10 (0, 0) (0, 0) None None.
Definition fifty : Suggestion.t :=
  Suggestion.mk "S" (1 # 2) (1 # 2) 50 (0, 0) None.

(** Two mandatory suggestions of ten minutes for two gaps of ten minutes,
    and a mandatory suggestion of fifty minutes for gaps of 5 and 100. *)
Definition mandatory_A10 : Suggestion.t :=
  Suggestion.mk "A" 1 (1 # 2) 10 (0, 0) None.
Definition mandatory_B10 : Suggestion.t :=
  Suggestion.mk "B" 1 (4 # 10) 10 (0, 0) None.
Definition mandatory_50 : Suggestion.t :=
  Suggestion.mk "A" 1 (1 # 2) 50 (0, 0) None.

(** A suggestion so far from the origin that three minutes per unit of
    distance exceed the range of the doubles. *)
Definition far_away : Suggestion.t :=
  Suggestion.mk "far" (1 # 2) (1 # 2) 10 (inject_Z (10 ^ 308), 0) None.

(** An optional suggestion five units away from the origin. *)
Definition test_away : Suggestion.t :=
  Suggestion.mk "W" (1 # 2) (1 # 2) 30 (3, 4) None.

(** * Properties *)

(** ** Boolean comparisons of rationals *)

Lemma Qleb_true (x y : Q) : Qleb x y = true <-> x <= y.
Proof. apply Qle_bool_iff. Qed.

Lemma Qleb_false (x y : Q) : Qleb x y = false <-> y < x.
Proof.
  unfold Qleb. split; intros H.
  - destruct (Qlt_le_dec y x) as [Hlt | Hle]; [exact Hlt|].
    apply Qle_bool_iff in Hle. congruence.
  - destruct (Qle_bool x y) eqn:E; [|reflexivity].
    apply Qle_bool_iff in E. lra.
Qed.

Lemma Qltb_true (x y : Q) : Qltb x y = true <-> x < y.
Proof.
  unfold Qltb. rewrite negb_true_iff. apply (Qleb_false y x).
Qed.

Lemma Qltb_false (x y : Q) : Qltb x y = false <-> y <= x.
Proof.
  unfold Qltb. rewrite negb_false_iff. apply (Qleb_true y x).
Qed.

Lemma Qgtb_true (x y : Q) : Qgtb x y = true <-> y < x.
Proof. apply Qltb_true. Qed.

Lemma Qgtb_false (x y : Q) : Qgtb x y = false <-> x <= y.
Proof. apply Qltb_false. Qed.

Lemma Qgeb_true (x y : Q) : Qgeb x y = true <-> y <= x.
Proof. apply Qleb_true. Qed.

Lemma Qgeb_false (x y : Q) : Qgeb x y = false <-> x < y.
Proof. apply Qleb_false. Qed.

Lemma Qeqb_true (x y : Q) : Qeqb x y = true <-> x == y.
Proof. apply Qeq_bool_iff. Qed.

(** Turns the boolean comparisons of the context into propositions. *)
Ltac qprop :=
  repeat match goal with
    | H : Qleb _ _ = true |- _ => apply Qleb_true in H
    | H : Qleb _ _ = false |- _ => apply Qleb_false in H
    | H : Qltb _ _ = true |- _ => apply Qltb_true in H
    | H : Qltb _ _ = false |- _ => apply Qltb_false in H
    | H : Qgtb _ _ = true |- _ => apply Qgtb_true in H
    | H : Qgtb _ _ = false |- _ => apply Qgtb_false in H
    | H : Qgeb _ _ = true |- _ => apply Qgeb_true in H
    | H : Qgeb _ _ = false |- _ => apply Qgeb_false in H
    | H : Qeqb _ _ = true |- _ => apply Qeqb_true in H
    | |- Qleb _ _ = true => apply Qleb_true
    | |- Qleb _ _ = false => apply Qleb_false
    | |- Qltb _ _ = true => apply Qltb_true
    | |- Qltb _ _ = false => apply Qltb_false
    | |- Qgtb _ _ = true => apply Qgtb_true
    | |- Qgtb _ _ = false => apply Qgtb_false
    | |- Qgeb _ _ = true => apply Qgeb_true
    | |- Qgeb _ _ = false => apply Qgeb_false
    | |- Qeqb _ _ = true => apply Qeqb_true
    end.

Lemma fold_left_Qplus (l : list Q) (a : Q) : fold_left Qplus l a == a + Qsum l.
Proof.
  revert a. induction l as [|x l IH]; intros a; simpl.
  - lra.
  - rewrite IH. lra.
Qed.

Lemma py_sum_Qsum (l : list Q) : py_sum l == Qsum l.
Proof. unfold py_sum. rewrite fold_left_Qplus. lra. Qed.

(** ** The enumeration of orderings *)

Section Permutations.

Context {A : Type}.

Lemma selections_length (l : list A) : length (selections l) = length l.
Proof.
    induction l as [|x l IH]; simpl; [reflexivity|].
    now rewrite length_map, IH.
Qed.

Lemma selections_spec (l : list A) (x : A) (r : list A) :
    In (x, r) (selections l) <->
    exists l1 l2, l = l1 ++ x :: l2 /\ r = l1 ++ l2.
Proof.
    revert x r. induction l as [|y l IH]; intros x r; simpl.
    - split; [tauto|]. intros (l1 & l2 & H & _). now destruct l1.
    - split.
      + intros [H | H].
        * inversion H; subst. now exists [], r.
        * apply in_map_iff in H as ([z zs] & Hz & Hin).
          inversion Hz; subst. apply IH in Hin as (l1 & l2 & -> & ->).
          now exists (y :: l1), l2.
      + intros (l1 & l2 & H & ->). destruct l1 as [|z l1]; simpl in *.
        * inversion H; subst. now left.
        * inversion H; subst. right. apply in_map_iff.
          exists (x, l1 ++ l2). split; [reflexivity|].
          apply IH. now exists l1, l2.
Qed.

Lemma selections_rest_length (l : list A) (x : A) (r : list A) :
    In (x, r) (selections l) -> S (length r) = length l.
Proof.
    intros H. apply selections_spec in H as (l1 & l2 & -> & ->).
    rewrite !length_app. simpl. lia.
Qed.

Lemma flat_map_const_length {B C : Type} (f : B -> list C) (k : nat)
      (l : list B) :
    (forall b, In b l -> length (f b) = k) ->
    length (flat_map f l) = (length l * k)%nat.
Proof.
    induction l as [|b l IH]; intros H; simpl; [reflexivity|].
    rewrite length_app, IH, H; [lia|now left|].
    intros b' Hb'. apply H. now right.
Qed.

Lemma permutations_upto_length (n : nat) (l : list A) :
    length l = n -> length (permutations_upto n l) = fact n.
Proof.
    revert l. induction n as [|n IH]; intros l Hl; simpl; [reflexivity|].
    rewrite (flat_map_const_length _ (fact n)).
    - rewrite selections_length, Hl. simpl. lia.
    - intros [x r] Hin. rewrite length_map. apply IH.
      apply selections_rest_length in Hin. lia.
Qed.

Lemma permutations_length (l : list A) :
    length (permutations l) = fact (length l).
Proof. now apply permutations_upto_length. Qed.

Lemma permutations_upto_complete (n : nat) (l p : list A) :
    length l = n -> Permutation l p -> In p (permutations_upto n l).
Proof.
    revert l p. induction n as [|n IH]; intros l p Hl Hp; simpl.
    - destruct l; [|discriminate]. apply Permutation_nil in Hp. now left.
    - destruct p as [|x p].
      { apply Permutation_sym, Permutation_nil in Hp. now subst. }
      assert (Hx : In x l).
      { eapply Permutation_in; [apply Permutation_sym, Hp|now left]. }
      apply in_split in Hx as (l1 & l2 & ->).
      apply in_flat_map. exists (x, l1 ++ l2). split.
      + apply selections_spec. now exists l1, l2.
      + apply in_map. apply IH.
        * rewrite length_app in *. simpl in Hl. lia.
        * apply Permutation_cons_inv with (a := x).
          etransitivity; [|exact Hp]. apply Permutation_middle.
Qed.

Lemma permutations_upto_sound (n : nat) (l p : list A) :
    In p (permutations_upto n l) -> length l = n -> Permutation l p.
Proof.
    revert l p. induction n as [|n IH]; intros l p Hin Hl; simpl in Hin.
    - destruct Hin as [<-|[]]. now destruct l.
    - apply in_flat_map in Hin as ([x r] & Hsel & Hin).
      apply in_map_iff in Hin as (p' & <- & Hin).
      pose proof (selections_rest_length _ _ _ Hsel) as Hr.
      apply selections_spec in Hsel as (l1 & l2 & -> & ->).
      etransitivity; [apply Permutation_sym, Permutation_middle|].
      constructor. apply IH; [exact Hin|lia].
Qed.

Lemma permutations_spec (l p : list A) :
    In p (permutations l) <-> Permutation l p.
Proof.
    split.
    - intros H. now apply (permutations_upto_sound (length l)).
    - now apply permutations_upto_complete.
Qed.


End Permutations.


(** ** Ordering search *)

Section OrderingSearch.

Variable hypot : Q -> Q -> Q.
Variables start_location end_location : option Coordinate.

Abbreviation cost := (order_cost hypot start_location end_location).
Abbreviation step := (best_step hypot start_location end_location).

(** The loop over the orderings keeps the first ordering of least cost
    and counts every ordering. *)
Lemma best_fold_spec (ps : list (list Suggestion.t)) (k : nat) :
  snd (fold_left step ps (None, k)) = (k + length ps)%nat /\
  ((ps = [] /\ fst (fold_left step ps (None, k)) = None) \/
   exists p pre post,
     ps = pre ++ p :: post /\
     fst (fold_left step ps (None, k)) = Some (p, cost p) /\
     (forall q, In q pre -> cost p < cost q) /\
     (forall q, In q post -> cost p <= cost q)).
Proof.
  induction ps as [|x ps IH] using rev_ind.
  - simpl. split; [lia|]. now left.
  - rewrite fold_left_app. simpl.
    destruct (fold_left step ps (None, k)) as [best n] eqn:E.
    destruct IH as [Hn IH]. simpl in Hn, IH. subst n.
    split; [unfold best_step; simpl; rewrite length_app; simpl; lia|].
    right. destruct IH as [[-> ->] | (p & pre & post & -> & -> & Hpre & Hpost)].
    + exists x, [], []. simpl. repeat split; intros q [].
    + unfold best_step. simpl.
      destruct (Qltb (cost x) (cost p)) eqn:Hlt; qprop.
      * exists x, (pre ++ p :: post), []. simpl.
        repeat split; [|intros q []].
        intros q Hq. apply in_app_or in Hq as [Hq | [<- | Hq]].
        -- specialize (Hpre q Hq). lra.
        -- exact Hlt.
        -- specialize (Hpost q Hq). lra.
      * exists p, pre, (post ++ [x]).
        rewrite <- app_assoc. simpl. repeat split; [exact Hpre|].
        intros q Hq. apply in_app_or in Hq as [Hq | [<- | []]].
        -- now apply Hpost.
        -- exact Hlt.
Qed.



Lemma enumerate_best_order_nonempty (suggestions : list Suggestion.t)
    (permutation_limit : Z) :
  suggestions <> [] ->
  (Z.of_nat (length suggestions) <= permutation_limit)%Z ->
  exists best pre post,
    enumerate_best_order hypot suggestions start_location end_location
      permutation_limit
    = Ok (best, cost best, fact (length suggestions)) /\
    permutations suggestions = pre ++ best :: post /\
    (forall q, In q pre -> cost best < cost q) /\
    (forall q, In q post -> cost best <= cost q).
Proof.
  intros Hne Hlim. unfold enumerate_best_order.
  destruct (Nat.eqb_spec (length suggestions) 0) as [E|_].
  { destruct suggestions; [congruence|discriminate]. }
  destruct (Z.gtb_spec (Z.of_nat (length suggestions)) permutation_limit)
    as [Hgt|_]; [lia|].
  pose proof (best_fold_spec (permutations suggestions) 0) as [Hn H].
  destruct (fold_left step (permutations suggestions) (None, 0%nat))
    as [best n] eqn:E.
  simpl in Hn, H. rewrite permutations_length in Hn. subst n.
  destruct H as [[Hnil _] | (p & pre & post & Hsplit & -> & Hpre & Hpost)].
  - pose proof (permutations_length suggestions) as Hlen.
    rewrite Hnil in Hlen. simpl in Hlen.
    pose proof (lt_O_fact (length suggestions)). lia.
  - exists p, pre, post. simpl. auto.
Qed.

End OrderingSearch.

(** The order found is a rearrangement of the candidates. *)
Lemma enumerate_best_order_permutation (hypot : Q -> Q -> Q)
    (suggestions : list Suggestion.t) (s e : option Coordinate)
    (permutation_limit : Z) (order : list Suggestion.t) (c : Q) (n : nat) :
  enumerate_best_order hypot suggestions s e permutation_limit
  = Ok (order, c, n) ->
  Permutation suggestions order.
Proof.
  intros H. destruct suggestions as [|x l].
  { cbn in H. inversion H. constructor. }
  destruct (Z.gtb_spec (Z.of_nat (length (x :: l))) permutation_limit)
    as [Hgt|Hle].
  - unfold enumerate_best_order in H.
    replace (length (x :: l) =? 0)%nat with false in H by reflexivity.
    destruct (Z.gtb_spec (Z.of_nat (length (x :: l))) permutation_limit);
      [discriminate|lia].
  - destruct (enumerate_best_order_nonempty hypot s e (x :: l)
                permutation_limit) as (b & pre & post & E & Hs & _);
      [discriminate|exact Hle|].
    rewrite E in H. inversion H; subst.
    apply permutations_spec. rewrite Hs. apply in_elt.
Qed.

(** The search either returns or raises [ValueError]. *)
Lemma enumerate_best_order_outcome (hypot : Q -> Q -> Q)
    (suggestions : list Suggestion.t) (s e : option Coordinate)
    (permutation_limit : Z) :
  (exists r, enumerate_best_order hypot suggestions s e permutation_limit
             = Ok r) \/
  (enumerate_best_order hypot suggestions s e permutation_limit
   = Raise ValueError /\
   (Z.of_nat (length suggestions) > permutation_limit)%Z /\
   suggestions <> []).
Proof.
  destruct suggestions as [|x l].
  { left. eexists. reflexivity. }
  destruct (Z.gtb_spec (Z.of_nat (length (x :: l))) permutation_limit)
    as [Hgt|Hle].
  - right. unfold enumerate_best_order.
    replace (length (x :: l) =? 0)%nat with false by reflexivity.
    destruct (Z.gtb_spec (Z.of_nat (length (x :: l))) permutation_limit);
      [|lia].
    repeat split; [lia|discriminate].
  - left.
    destruct (enumerate_best_order_nonempty hypot s e (x :: l)
                permutation_limit) as (b & pre & post & E & _);
      [discriminate|exact Hle|].
    eauto.
Qed.




(** ** The ordering search over floating-point costs *)

Section FloatSearchFacts.

Variable F : Type.
Variables fzero finf : F.
Variable fadd : F -> F -> F.
Variable flt : F -> F -> bool.
Variable fminutes : Coordinate -> Coordinate -> F.
Variables start_location end_location : option Coordinate.

Abbreviation fcost :=
  (order_cost_float F fzero fadd fminutes start_location end_location).
Abbreviation fstep :=
  (best_step_float F fzero fadd flt fminutes start_location end_location).

Lemma best_step_float_unfold (best_order : option (list Suggestion.t))
    (best_cost : F) (k : nat) (p : list Suggestion.t) :
  fstep (best_order, best_cost, k) p
  = if flt (fcost p) best_cost then (Some p, fcost p, S k)
    else (best_order, best_cost, S k).
Proof. reflexivity. Qed.

(** While no cost is below [inf] nothing becomes the best order. *)
Lemma best_fold_float_none (ps : list (list Suggestion.t)) :
  forall k,
    (forall p, In p ps -> flt (fcost p) finf = false) ->
    fold_left fstep ps (None, finf, k) = (None, finf, (k + length ps)%nat).
Proof.
  induction ps as [|p ps IH]; intros k H; simpl.
  - now rewrite Nat.add_0_r.
  - rewrite (H p (or_introl eq_refl)). rewrite IH.
    + f_equal. lia.
    + intros q Hq. apply H. now right.
Qed.

(** A best order, once there is one, is never given up. *)
Lemma best_fold_float_some (ps : list (list Suggestion.t)) :
  forall order cost k,
    exists order' cost',
      fold_left fstep ps (Some order, cost, k)
      = (Some order', cost', (k + length ps)%nat).
Proof.
  induction ps as [|p ps IH]; intros order cost k; simpl.
  - exists order, cost. now rewrite Nat.add_0_r.
  - destruct (flt (fcost p) cost).
    + destruct (IH p (fcost p) (S k)) as (o & c & ->). exists o, c.
      f_equal. lia.
    + destruct (IH order cost (S k)) as (o & c & ->). exists o, c.
      f_equal. lia.
Qed.

(** The loop ends without a best order exactly when no cost was below
    [inf]. *)
Lemma best_fold_float_spec (ps : list (list Suggestion.t)) :
  forall k,
    ((forall p, In p ps -> flt (fcost p) finf = false) /\
     fold_left fstep ps (None, finf, k) = (None, finf, (k + length ps)%nat))
    \/
    ((exists p, In p ps /\ flt (fcost p) finf = true) /\
     exists order cost,
       fold_left fstep ps (None, finf, k)
       = (Some order, cost, (k + length ps)%nat)).
Proof.
  induction ps as [|p ps IH]; intros k.
  - left. split; [intros p []|]. simpl. now rewrite Nat.add_0_r.
  - cbn [fold_left]. rewrite best_step_float_unfold.
    destruct (flt (fcost p) finf) eqn:E.
    + right. split; [exists p; split; [now left|exact E]|].
      destruct (best_fold_float_some ps p (fcost p) (S k)) as (o & c & ->).
      exists o, c. f_equal. simpl. lia.
    + destruct (IH (S k)) as [[Hall ->]|[(q & Hq & Eq) (o & c & ->)]].
      * left. split; [|f_equal; simpl; lia].
        intros q [<-|Hq]; [exact E|now apply Hall].
      * right. split; [exists q; split; [now right|exact Eq]|].
        exists o, c. f_equal. simpl. lia.
Qed.

Lemma enumerate_best_order_float_cases (suggestions : list Suggestion.t)
    (permutation_limit : Z) :
  let result :=
    enumerate_best_order_float F fzero finf fadd flt fminutes suggestions
      start_location end_location permutation_limit in
  (suggestions = [] /\ result = Ok ([], fzero, 0%nat)) \/
  (suggestions <> [] /\
   (Z.of_nat (length suggestions) > permutation_limit)%Z /\
   result = Raise ValueError) \/
  (suggestions <> [] /\
   (Z.of_nat (length suggestions) <= permutation_limit)%Z /\
   (forall p, Permutation suggestions p -> flt (fcost p) finf = false) /\
   result = Raise AssertionError) \/
  (suggestions <> [] /\
   (Z.of_nat (length suggestions) <= permutation_limit)%Z /\
   (exists p, Permutation suggestions p /\ flt (fcost p) finf = true) /\
   exists order cost,
     result = Ok (order, cost, fact (length suggestions))).
Proof.
  intros result. subst result. unfold enumerate_best_order_float.
  destruct suggestions as [|x l]; [left; split; reflexivity|]. right.
  replace (length (x :: l) =? 0)%nat with false by reflexivity.
  destruct (Z.gtb_spec (Z.of_nat (length (x :: l))) permutation_limit)
    as [Hgt|Hle].
  { left. split; [discriminate|]. split; [lia|reflexivity]. }
  right.
  destruct (best_fold_float_spec (permutations (x :: l)) 0)
    as [[Hall ->]|[(q & Hq & Eq) (o & c & ->)]].
  - left. split; [discriminate|]. split; [exact Hle|].
    split; [|reflexivity]. intros p Hp. apply Hall.
    now apply permutations_spec.
  - right. split; [discriminate|]. split; [exact Hle|]. split.
    + exists q. split; [now apply permutations_spec|exact Eq].
    + exists o, c. now rewrite permutations_length.
Qed.

(** Whatever the float operations are: with a non-negative limit the
    search raises [ValueError] exactly on more candidates than the limit,
    and [AssertionError] exactly when there are between one and
    [permutation_limit] candidates and no ordering has a cost below
    [inf]; it returns exactly on no candidates, or on at most
    [permutation_limit] candidates of which some ordering has a cost
    below [inf]; it never raises anything else. *)
Theorem enumerate_best_order_float_outcome (suggestions : list Suggestion.t)
    (permutation_limit : Z) :
  (0 <= permutation_limit)%Z ->
  let result :=
    enumerate_best_order_float F fzero finf fadd flt fminutes suggestions
      start_location end_location permutation_limit in
  (result = Raise ValueError
   <-> (Z.of_nat (length suggestions) > permutation_limit)%Z) /\
  (result = Raise AssertionError
   <-> (1 <= length suggestions)%nat /\
       (Z.of_nat (length suggestions) <= permutation_limit)%Z /\
       forall p, Permutation suggestions p -> flt (fcost p) finf = false) /\
  ((exists r, result = Ok r)
   <-> suggestions = [] \/
       ((Z.of_nat (length suggestions) <= permutation_limit)%Z /\
        exists p, Permutation suggestions p /\ flt (fcost p) finf = true)) /\
  (forall e, result = Raise e -> e = ValueError \/ e = AssertionError) /\
  result <> NoFuel.
Proof.
  intros Hlim result.
  pose proof (enumerate_best_order_float_cases suggestions permutation_limit)
    as H. cbv zeta in H. fold result in H.
  assert (Hlen : suggestions <> [] -> (1 <= length suggestions)%nat).
  { destruct suggestions; [congruence|simpl; lia]. }
  destruct H as [[Hnil E]|[(Hne & Hgt & E)|[(Hne & Hle & Hall & E)
                 |(Hne & Hle & (q & Hq & Eq) & o & c & E)]]];
    rewrite E.
  - subst suggestions. split; [|split; [|split; [|split]]].
    + split; [discriminate|]. simpl. lia.
    + split; [discriminate|]. intros (H & _). simpl in H. lia.
    + split; [auto|eauto].
    + intros e H. discriminate.
    + discriminate.
  - split; [|split; [|split; [|split]]].
    + split; [intros _; exact Hgt|reflexivity].
    + split; [discriminate|]. intros (_ & H & _). lia.
    + split; [intros [r Hr]; discriminate|].
      intros [H|[H _]]; [congruence|lia].
    + intros e H. inversion H. now left.
    + discriminate.
  - split; [|split; [|split; [|split]]].
    + split; [discriminate|]. lia.
    + split; [intros _; auto|reflexivity].
    + split; [intros [r Hr]; discriminate|].
      intros [H|(_ & p & Hp & Ep)]; [congruence|].
      rewrite (Hall p Hp) in Ep. discriminate.
    + intros e H. inversion H. now right.
    + discriminate.
  - split; [|split; [|split; [|split]]].
    + split; [discriminate|]. lia.
    + split; [discriminate|]. intros (_ & _ & H).
      rewrite (H q Hq) in Eq. discriminate.
    + split; [|eauto]. intros _. right. split; [exact Hle|]. eauto.
    + intros e H. discriminate.
    + discriminate.
Qed.

End FloatSearchFacts.

Lemma order_cost_float_exact (hypot : Q -> Q -> Q)
    (start_location end_location : option Coordinate)
    (permutation : list Suggestion.t) :
  order_cost_float (option Q) (Some 0) exact_add (exact_minutes hypot)
    start_location end_location permutation
  = Some (order_cost hypot start_location end_location permutation).
Proof.
  unfold order_cost_float, order_cost.
  generalize (0 : Q) as c. generalize start_location as previous.
  induction permutation as [|s l IH]; intros previous c; simpl.
  - destruct previous, end_location; reflexivity.
  - destruct previous as [p|]; simpl; apply IH.
Qed.

Lemma best_fold_float_exact (hypot : Q -> Q -> Q)
    (start_location end_location : option Coordinate)
    (ps : list (list Suggestion.t)) :
  forall (best : option (list Suggestion.t * Q)) (k : nat),
    fold_left
      (best_step_float (option Q) (Some 0) exact_add exact_lt
         (exact_minutes hypot) start_location end_location)
      ps (fst <$> best, best ≫= (fun b => Some (snd b)), k)
    = let '(best', k') :=
        fold_left (best_step hypot start_location end_location) ps
                  (best, k) in
      (fst <$> best', best' ≫= (fun b => Some (snd b)), k').
Proof.
  induction ps as [|p ps IH]; intros best k; [reflexivity|].
  cbn [fold_left]. rewrite best_step_float_unfold.
  rewrite order_cost_float_exact.
  destruct best as [[o c]|]; simpl.
  - destruct (Qltb _ c); [apply (IH (Some (p, _)) (S k))
                         |apply (IH (Some (o, c)) (S k))].
  - apply (IH (Some (p, _)) (S k)).
Qed.

(** With exact costs, [inf] being a value of its own above them, the
    search over floats is the search that the scheduler uses: the same
    order, cost and count, or the same exception. *)
Lemma enumerate_best_order_float_exact (hypot : Q -> Q -> Q)
    (suggestions : list Suggestion.t)
    (start_location end_location : option Coordinate)
    (permutation_limit : Z) :
  enumerate_best_order_float (option Q) (Some 0) None exact_add exact_lt
    (exact_minutes hypot) suggestions start_location end_location
    permutation_limit
  = match enumerate_best_order hypot suggestions start_location
            end_location permutation_limit with
    | Ok (order, cost, n) => Ok (order, Some cost, n)
    | Raise e => Raise e
    | NoFuel => NoFuel
    end.
Proof.
  unfold enumerate_best_order_float, enumerate_best_order.
  destruct (length suggestions =? 0)%nat; [reflexivity|].
  destruct (Z.of_nat (length suggestions) >? permutation_limit)%Z;
    [reflexivity|].
  pose proof (best_fold_float_exact hypot start_location end_location
                (permutations suggestions) None 0) as H.
  change (fst <$> None) with (@None (list Suggestion.t)) in H.
  change (None ≫= _) with (@None Q) in H.
  rewrite H.
  destruct (fold_left _ _ (None, 0%nat)) as [[[o c]|] k]; reflexivity.
Qed.

(** C8: a single candidate, within the limit, so far from the start that
    its travel minutes overflow the doubles: no cost is below [inf] and
    the assertion after the loop fails. *)
Lemma C8_assertion_fails :
  enumerate_best_order_float (option Q) (Some 0) None double_add exact_lt
    double_minutes [far_away] (Some (0, 0)) None default_permutation_limit
  = Raise AssertionError.
Proof. vm_compute. reflexivity. Qed.

Lemma enumerate_best_order_float_outcome_witness :
  enumerate_best_order_float (option Q) (Some 0) None double_add exact_lt
    double_minutes [test_A; test_B] (Some (0, 0)) None 1
  = Raise ValueError.
Proof.
  pose proof (enumerate_best_order_float_outcome (option Q) (Some 0) None
                double_add exact_lt double_minutes (Some (0, 0)) None
                [test_A; test_B] 1) as H.
  cbv zeta in H. destruct H as [H _]; [lia|]. apply H. simpl. lia.
Defined.


(** ** The orchestrator's early returns *)

(** C10: with no gaps the scheduler returns, without raising, the result
    with no blocks, every suggestion dropped, travel cost 0, unused time
    0, no permutation evaluated, no allocated minutes and an empty
    movement log. *)
Theorem C10_no_gaps (hypot : Q -> Q -> Q) (suggestions : list Suggestion.t)
    (max_distance : Q) (permutation_limit : Z)
    (tolerance resolution_minutes : Q) :
  schedule_suggestions hypot suggestions [] max_distance permutation_limit
    tolerance resolution_minutes
  = Ok {| ScheduleResult.ordered_suggestions := [];
          ScheduleResult.scheduled_blocks := [];
          ScheduleResult.travel_cost := 0;
          ScheduleResult.dropped_suggestions := suggestions;
          ScheduleResult.unused_gap_time := 0;
          ScheduleResult.permutations_evaluated := 0;
          ScheduleResult.allocated_minutes := ∅;
          ScheduleResult.movement_log := [] |}.
Proof. reflexivity. Qed.

(** The feasibility gate. *)
Lemma feasibility_gate (hypot : Q -> Q -> Q)
    (suggestions : list Suggestion.t) (gaps : list Gap.t)
    (max_distance : Q) (permutation_limit : Z)
    (tolerance resolution_minutes : Q) :
  gaps <> [] ->
  total_gap_minutes gaps + tolerance
  < py_sum (map Suggestion.duration (mandatory_of tolerance suggestions)) ->
  schedule_suggestions hypot suggestions gaps max_distance permutation_limit
    tolerance resolution_minutes
  = Ok (infeasible_result suggestions (total_gap_minutes gaps)).
Proof.
  intros Hg Hlt. unfold schedule_suggestions.
  destruct gaps as [|g gaps]; [congruence|].
  apply Qgtb_true in Hlt. now rewrite Hlt.
Qed.

(** C2, as amended: when the mandatory durations sum to more than the
    total gap minutes plus tolerance, the scheduler returns at once the
    result with no blocks, the whole input list as dropped, travel cost 0
    and the total gap minutes as unused; in particular so when the only
    mandatory suggestion is longer than the only gap by more than the
    tolerance, and that suggestion is then among the dropped. *)
Theorem C2_feasibility_gate (hypot : Q -> Q -> Q)
    (suggestions : list Suggestion.t) (gaps : list Gap.t)
    (max_distance : Q) (permutation_limit : Z)
    (tolerance resolution_minutes : Q) :
  gaps <> [] ->
  (total_gap_minutes gaps + tolerance
   < py_sum (map Suggestion.duration (mandatory_of tolerance suggestions)) \/
   exists s g,
     gaps = [g] /\ mandatory_of tolerance suggestions = [s] /\
     Gap.duration g + tolerance < Suggestion.duration s) ->
  exists r,
    schedule_suggestions hypot suggestions gaps max_distance
      permutation_limit tolerance resolution_minutes = Ok r /\
    ScheduleResult.ordered_suggestions r = [] /\
    ScheduleResult.scheduled_blocks r = [] /\
    ScheduleResult.dropped_suggestions r = suggestions /\
    ScheduleResult.travel_cost r = 0 /\
    ScheduleResult.unused_gap_time r = total_gap_minutes gaps /\
    ScheduleResult.permutations_evaluated r = 0%nat /\
    ScheduleResult.allocated_minutes r = ∅ /\
    ScheduleResult.movement_log r = [] /\
    (forall s, In s (mandatory_of tolerance suggestions) ->
       In s (ScheduleResult.dropped_suggestions r)).
Proof.
  intros Hg H.
  assert (Hlt : total_gap_minutes gaps + tolerance
                < py_sum (map Suggestion.duration
                            (mandatory_of tolerance suggestions))).
  { destruct H as [H | (s & g & -> & -> & H)]; [exact H|].
    unfold total_gap_minutes, py_sum. simpl. lra. }
  eexists. split; [now apply feasibility_gate|].
  simpl. repeat split.
  intros s Hs. unfold mandatory_of in Hs. now apply filter_In in Hs.
Qed.

Lemma C2_feasibility_gate_witness :
  exists r,
    schedule_suggestions hypot_rat [test_A150] [test_gap_100]
      default_max_distance 6 default_tolerance default_resolution_minutes
    = Ok r /\
    ScheduleResult.scheduled_blocks r = [] /\
    ScheduleResult.dropped_suggestions r = [test_A150].
Proof.
  destruct (C2_feasibility_gate hypot_rat [test_A150] [test_gap_100]
              default_max_distance 6 default_tolerance
              default_resolution_minutes)
    as (r & E & _ & Hb & Hd & _).
  - discriminate.
  - right. exists test_A150, test_gap_100.
    repeat split; vm_compute; reflexivity.
  - exists r. auto.
Defined.

(** A mandatory suggestion longer than the only gap, but by less than the
    tolerance, is scheduled. *)
Lemma C2_counterexample :
  is_mandatory default_tolerance tight_A = true /\
  Gap.duration tight_gap < Suggestion.duration tight_A /\
  exists r,
    schedule_suggestions hypot_rat [tight_A] [tight_gap]
      default_max_distance default_permutation_limit default_tolerance
      default_resolution_minutes = Ok r /\
    ScheduleResult.scheduled_blocks r
    = [ScheduledBlock.mk "A" "g1" 0 (20000001 # 2000000) (0, 0)] /\
    ScheduleResult.dropped_suggestions r = [].
Proof.
  split; [reflexivity|]. split; [reflexivity|].
  eexists. split; [vm_compute; reflexivity|]. split; reflexivity.
Qed.


(** ** Sorting *)

Lemma insert_by_perm {A : Type} (before : A -> A -> bool) (x : A)
    (l : list A) :
  Permutation (insert_by before x l) (x :: l).
Proof.
  induction l as [|y l IH]; simpl; [reflexivity|].
  destruct (before y x); [|reflexivity].
  etransitivity; [apply perm_skip, IH|apply perm_swap].
Qed.

Lemma sort_by_perm {A : Type} (before : A -> A -> bool) (l : list A) :
  Permutation (sort_by before l) l.
Proof.
  induction l as [|x l IH]; simpl; [constructor|].
  etransitivity; [apply insert_by_perm|]. now constructor.
Qed.

Lemma sort_by_In {A : Type} (before : A -> A -> bool) (l : list A) (x : A) :
  In x (sort_by before l) <-> In x l.
Proof.
  split; apply Permutation_in;
    [apply sort_by_perm|apply Permutation_sym, sort_by_perm].
Qed.

Lemma sort_by_length {A : Type} (before : A -> A -> bool) (l : list A) :
  length (sort_by before l) = length l.
Proof. apply Permutation_length, sort_by_perm. Qed.

Lemma insert_score_desc_sorted (x : Suggestion.t) (l : list Suggestion.t) :
  StronglySorted score_ge l ->
  StronglySorted score_ge (insert_by score_desc x l).
Proof.
  induction l as [|y l IH]; intros Hs; simpl.
  - repeat constructor.
  - apply StronglySorted_inv in Hs as [Hs Hy].
    destruct (score_desc y x) eqn:E; unfold score_desc in E; qprop.
    + constructor; [now apply IH|].
      eapply Permutation_Forall;
        [apply Permutation_sym, insert_by_perm|].
      constructor; [unfold score_ge; lra|exact Hy].
    + constructor; [now constructor|].
      constructor; [exact E|].
      eapply Forall_impl; [exact Hy|].
      unfold score_ge. intros z Hz. lra.
Qed.

Lemma sort_by_score_desc_sorted (l : list Suggestion.t) :
  StronglySorted score_ge (sort_by_score_desc l).
Proof.
  induction l as [|x l IH]; simpl; [constructor|].
  now apply insert_score_desc_sorted.
Qed.

(** ** Knapsack selector *)

Lemma qget_insert_eq (dp : list Q) (i : nat) (x : Q) :
  (i < length dp)%nat -> qget (<[i := x]> dp) i = x.
Proof. intros H. unfold qget. now rewrite list_lookup_insert_eq. Qed.

Lemma qget_insert_ne (dp : list Q) (i j : nat) (x : Q) :
  i <> j -> qget (<[i := x]> dp) j = qget dp j.
Proof. intros H. unfold qget. now rewrite list_lookup_insert_ne. Qed.

Lemma bget_insert_eq (row : list bool) (i : nat) (x : bool) :
  (i < length row)%nat -> bget (<[i := x]> row) i = x.
Proof. intros H. unfold bget. now rewrite list_lookup_insert_eq. Qed.

Lemma bget_insert_ne (row : list bool) (i j : nat) (x : bool) :
  i <> j -> bget (<[i := x]> row) j = bget row j.
Proof. intros H. unfold bget. now rewrite list_lookup_insert_ne. Qed.

Lemma bget_replicate_false (n i : nat) : bget (replicate n false) i = false.
Proof.
  unfold bget. destruct (replicate n false !! i) as [b|] eqn:E;
    [|reflexivity].
  apply lookup_replicate in E as [-> _]. reflexivity.
Qed.

Lemma qget_replicate_zero (n i : nat) : qget (replicate n 0) i = 0.
Proof.
  unfold qget. destruct (replicate n 0 !! i) as [b|] eqn:E; [|reflexivity].
  apply lookup_replicate in E as [-> _]. reflexivity.
Qed.

Section Knapsack.

#[local] Arguments replicate : simpl never.

Variable W : nat.
Variable wt : Suggestion.t -> nat.
Hypothesis wt_pos : forall s, (1 <= wt s)%nat.

(** Inner loop, capacities [s + k - 1] down to [s]: the cells in that
    range get their new value from the old table, the others are
    untouched. *)
Lemma knapsack_inner_spec (w_i : nat) (v_i : Q) (dp0 : list Q) (k s : nat) :
  (1 <= w_i)%nat -> (k = 0 \/ s + k <= S W)%nat -> length dp0 = S W ->
  exists dp row,
    fold_right (fun w st => knapsack_cell w_i v_i st w)
               (dp0, replicate (S W) false) (seq s k) = (dp, row) /\
    length dp = S W /\ length row = S W /\
    forall w,
      ((s <= w < s + k)%nat ->
       qget dp w = cell_value dp0 w_i v_i w /\
       bget row w = cell_taken dp0 w_i v_i w) /\
      (~ (s <= w < s + k)%nat ->
       qget dp w = qget dp0 w /\ bget row w = false).
Proof using Type.
  intros Hwi. revert s. induction k as [|k IH]; intros s Hk Hlen.
  - exists dp0, (replicate (S W) false). cbn [seq fold_right].
    split; [reflexivity|]. split; [exact Hlen|].
    split; [apply length_replicate|].
    intros w. split; [lia|]. intros _.
    split; [reflexivity|apply bget_replicate_false].
  - destruct Hk as [Hk|Hk]; [discriminate|].
    destruct (IH (S s)) as (dp1 & row1 & E & Hl1 & Hr1 & H1);
      [right; lia|exact Hlen|].
    cbn [seq fold_right]. rewrite E. unfold knapsack_cell.
    destruct (H1 s) as [_ Hs]. destruct Hs as [Hs Hsr]; [lia|].
    destruct (H1 (s - w_i)%nat) as [_ Hp]. destruct Hp as [Hp _]; [lia|].
    rewrite Hs, Hp.
    destruct (Qgtb (qget dp0 (s - w_i) + v_i) (qget dp0 s)) eqn:Hgt.
    + eexists _, _. split; [reflexivity|].
      rewrite !length_insert. split; [exact Hl1|]. split; [exact Hr1|].
      intros w. split.
      * intros Hw. destruct (Nat.eq_dec s w) as [<-|Hne].
        -- rewrite qget_insert_eq, bget_insert_eq by lia.
           unfold cell_value, cell_taken. now rewrite Hgt.
        -- rewrite qget_insert_ne, bget_insert_ne by exact Hne.
           apply H1. lia.
      * intros Hw. rewrite qget_insert_ne, bget_insert_ne by lia.
        apply H1. lia.
    + exists dp1, row1. split; [reflexivity|].
      split; [exact Hl1|]. split; [exact Hr1|].
      intros w. split.
      * intros Hw. destruct (Nat.eq_dec s w) as [<-|Hne].
        -- unfold cell_value, cell_taken. now rewrite Hgt, Hs, Hsr.
        -- apply H1. lia.
      * intros Hw. apply H1. lia.
Qed.

(** One item of the outer loop. *)
Lemma knapsack_item_spec (w_i : nat) (v_i : Q) (dp0 : list Q)
    (tk : list (list bool)) :
  (1 <= w_i)%nat -> length dp0 = S W ->
  exists dp row,
    knapsack_item W (dp0, tk) (w_i, v_i) = (dp, tk ++ [row]) /\
    length dp = S W /\
    forall w, (w <= W)%nat ->
      qget dp w
      = (if takes (qget dp0) w_i v_i w then qget dp0 (w - w_i) + v_i
         else qget dp0 w) /\
      bget row w = takes (qget dp0) w_i v_i w.
Proof using Type.
  intros Hwi Hlen. unfold knapsack_item, range_down.
  rewrite <- fold_left_rev_right, rev_involutive.
  destruct (knapsack_inner_spec w_i v_i dp0 (S W - w_i) w_i)
    as (dp & row & E & Hl & Hr & H); [exact Hwi|lia|exact Hlen|].
  rewrite E. exists dp, row. split; [reflexivity|]. split; [exact Hl|].
  intros w Hw. unfold takes.
  destruct (Nat.leb_spec w_i w) as [Hle|Hgt]; simpl.
  - destruct (H w) as [[-> ->] _]; [lia|]. split; reflexivity.
  - destruct (H w) as [_ [-> ->]]; [lia|]. split; reflexivity.
Qed.

Lemma combine_snoc {A B : Type} (l1 : list A) (l2 : list B) (a : A) (b : B) :
  length l1 = length l2 ->
  combine (l1 ++ [a]) (l2 ++ [b]) = combine l1 l2 ++ [(a, b)].
Proof.
  revert l2. induction l1 as [|x l1 IH]; intros [|y l2] H; simpl in *;
    try discriminate; [reflexivity|].
  f_equal. apply IH. lia.
Qed.

(** The table after all items: [dp] holds the optimum of the recurrence
    and the rows of [take] its decisions. *)
Lemma knapsack_table_spec (items : list Suggestion.t) :
  exists dp tk,
    knapsack_table W (map wt items) (map Suggestion.score items) = (dp, tk) /\
    length dp = S W /\ length tk = length items /\
    (forall w, (w <= W)%nat -> qget dp w = opt_value wt (rev items) w) /\
    rows_ok W wt (rev (combine (combine items (map wt items)) tk)).
Proof using wt_pos.
  unfold knapsack_table.
  induction items as [|s items IH] using rev_ind.
  - exists (replicate (S W) 0), [].
    split; [reflexivity|]. split; [apply length_replicate|].
    split; [reflexivity|]. split; [|exact I].
    intros w _. apply qget_replicate_zero.
  - destruct IH as (dp0 & tk & E & Hl & Ht & Hdp & Hrows).
    rewrite !map_app. simpl.
    rewrite combine_snoc by now rewrite !length_map.
    rewrite fold_left_app, E. cbn [fold_left].
    destruct (knapsack_item_spec (wt s) (Suggestion.score s) dp0 tk)
      as (dp & row & E' & Hl' & H); [apply wt_pos|exact Hl|].
    rewrite E'. exists dp, (tk ++ [row]). split; [reflexivity|].
    split; [exact Hl'|]. split; [rewrite !length_app; simpl; lia|].
    assert (Hext : forall w, (w <= W)%nat ->
              takes (qget dp0) (wt s) (Suggestion.score s) w
              = takes (opt_value wt (rev items)) (wt s)
                      (Suggestion.score s) w).
    { intros w Hw. unfold takes.
      destruct (Nat.leb_spec (wt s) w); [|reflexivity]. simpl.
      now rewrite !Hdp by lia. }
    split.
    + intros w Hw. rewrite rev_app_distr. simpl.
      destruct (H w Hw) as [-> _]. rewrite Hext by exact Hw.
      destruct (takes _ _ _ w) eqn:Et; [|now apply Hdp].
      rewrite Hdp; [reflexivity|lia].
    + rewrite (combine_snoc items) by now rewrite length_map.
      rewrite combine_snoc
        by (rewrite length_combine, !length_map; lia).
      rewrite rev_app_distr. simpl. split; [reflexivity|]. split.
      * intros w Hw. destruct (H w Hw) as [_ ->].
        rewrite Hext by exact Hw. f_equal.
        rewrite map_rev. f_equal.
        clear - Ht. revert tk Ht.
        induction items as [|x items IH]; intros [|r tk] Ht; simpl in *;
          try discriminate; [reflexivity|].
        f_equal. apply IH. lia.
      * exact Hrows.
Qed.

(** Backtracking from capacity [w] over rows that record the decisions
    selects items of total weight at most [w] whose value is the
    optimum. *)
Lemma backtrack_spec (rows : list (Suggestion.t * nat * list bool)) :
  rows_ok W wt rows ->
  forall w chosen, (w <= W)%nat ->
  exists sel,
    snd (fold_left backtrack_step rows (w, chosen)) = chosen ++ sel /\
    sublist sel (map (fun x => fst (fst x)) rows) /\
    (nat_weight wt sel <= w)%nat /\
    total_score sel == opt_value wt (map (fun x => fst (fst x)) rows) w.
Proof using Type.
  induction rows as [|[[s w_i] row] rows IH]; intros Hok w chosen Hw.
  - exists []. simpl. rewrite app_nil_r.
    split; [reflexivity|]. split; [apply sublist_nil|].
    split; [unfold nat_weight; simpl; lia|reflexivity].
  - destruct Hok as (-> & Hrow & Hok). cbn [fold_left backtrack_step].
    rewrite Hrow by exact Hw. cbn [map fst opt_value].
    destruct (takes _ (wt s) (Suggestion.score s) w) eqn:Et.
    + destruct (IH Hok (w - wt s)%nat (chosen ++ [s])) as
        (sel & E & Hsub & Hwt & Hval); [lia|].
      exists (s :: sel). rewrite E, <- app_assoc. split; [reflexivity|].
      split; [now apply sublist_skip|].
      unfold takes in Et. apply andb_true_iff in Et as [Hle _].
      apply Nat.leb_le in Hle.
      split; [unfold nat_weight in *; simpl; lia|].
      unfold total_score in *. simpl. rewrite Hval. lra.
    + destruct (IH Hok w chosen Hw) as (sel & E & Hsub & Hwt & Hval).
      exists sel. split; [exact E|]. split; [now apply sublist_cons|].
      split; [exact Hwt|exact Hval].
Qed.

Lemma opt_value_nonneg (items : list Suggestion.t) (w : nat) :
  0 <= opt_value wt items w.
Proof using Type.
  revert w. induction items as [|s items IH]; intros w; simpl; [lra|].
  unfold takes.
  destruct (wt s <=? w)%nat; simpl; [|apply IH].
  destruct (Qgtb _ _) eqn:E; [|apply IH].
  qprop. specialize (IH w). lra.
Qed.

(** No selection within the capacity is worth more than the optimum. *)
Lemma opt_value_upper (items sel : list Suggestion.t) :
  sublist sel items ->
  forall w, (nat_weight wt sel <= w)%nat ->
  total_score sel <= opt_value wt items w.
Proof using Type.
  induction 1 as [|s sel items Hsub IH|s sel items Hsub IH]; intros w Hw.
  - simpl. unfold total_score. simpl. lra.
  - unfold nat_weight in Hw. simpl in Hw.
    specialize (IH (w - wt s)%nat). unfold nat_weight in IH.
    unfold total_score in *. simpl. unfold takes.
    destruct (Nat.leb_spec (wt s) w); [|lia]. simpl.
    destruct (Qgtb _ _) eqn:E; qprop.
    + assert (Hs : Qsum (map Suggestion.score sel)
                   <= opt_value wt items (w - wt s)) by (apply IH; lia).
      lra.
    + assert (Hs : Qsum (map Suggestion.score sel)
                   <= opt_value wt items (w - wt s)) by (apply IH; lia).
      lra.
  - simpl. unfold takes.
    destruct (wt s <=? w)%nat; simpl; [|now apply IH].
    destruct (Qgtb _ _) eqn:E; [|now apply IH].
    qprop. specialize (IH w Hw). lra.
Qed.

End Knapsack.


Lemma Qsum_perm (l1 l2 : list Q) : Permutation l1 l2 -> Qsum l1 == Qsum l2.
Proof.
  induction 1 as [|x l1 l2 _ IH|x y l|l1 l2 l3 _ IH1 _ IH2]; simpl.
  - reflexivity.
  - rewrite IH. reflexivity.
  - lra.
  - rewrite IH1. exact IH2.
Qed.

Lemma total_score_perm (l1 l2 : list Suggestion.t) :
  Permutation l1 l2 -> total_score l1 == total_score l2.
Proof. intros H. apply Qsum_perm. now apply Permutation_map. Qed.

Lemma nat_weight_perm (wt : Suggestion.t -> nat) (l1 l2 : list Suggestion.t) :
  Permutation l1 l2 -> nat_weight wt l1 = nat_weight wt l2.
Proof.
  induction 1 as [|x l1 l2 _ IH|x y l|l1 l2 l3 _ IH1 _ IH2];
    unfold nat_weight in *; simpl; lia.
Qed.

Lemma py_round_nonneg (x : Q) : 0 <= x -> (0 <= py_round x)%Z.
Proof.
  intros Hx. unfold py_round.
  assert (Hf : (0 <= Qfloor x)%Z).
  { rewrite <- (Qfloor_Z 0). now apply Qfloor_resp_le. }
  destruct (Qcompare _ _); [destruct (Z.even _)| |]; lia.
Qed.

Lemma total_weight_nat (resolution_minutes : Q) (l : list Suggestion.t) :
  total_weight resolution_minutes l
  = Z.of_nat (nat_weight
                (fun s => Z.to_nat (item_weight resolution_minutes s)) l).
Proof.
  unfold total_weight, nat_weight.
  induction l as [|s l IH]; simpl; [reflexivity|].
  rewrite IH. unfold item_weight at 1 3. lia.
Qed.

Lemma rows_items (items : list Suggestion.t) (ws : list nat)
    (tk : list (list bool)) :
  length ws = length items -> length tk = length items ->
  map (fun x : Suggestion.t * nat * list bool => fst (fst x))
      (combine (combine items ws) tk) = items.
Proof.
  revert ws tk. induction items as [|s items IH]; intros [|w ws] [|r tk] H1 H2;
    simpl in *; try discriminate; [reflexivity|].
  f_equal. apply IH; lia.
Qed.

(** C3: at a capacity within the tolerance nothing is selected;
    otherwise (for a positive resolution and a non-negative tolerance)
    the selection is a sub-collection of the candidates whose discretized
    weights, [max(1, round(duration / resolution))] each, sum to at most
    [round(capacity / resolution)], whose total score is the largest among
    the sub-collections within that bound, and it is returned in
    descending order of score. *)
Theorem C3_greedy_select_candidates (suggestions : list Suggestion.t)
    (gaps : list Gap.t) (max_distance : Q) (available_minutes : option Q)
    (tolerance resolution_minutes : Q) :
  let capacity := default (total_gap_minutes gaps) available_minutes in
  (capacity <= tolerance ->
   greedy_select_candidates suggestions gaps max_distance available_minutes
     tolerance resolution_minutes = Ok []) /\
  (tolerance < capacity -> 0 <= tolerance -> 0 < resolution_minutes ->
   exists chosen,
     greedy_select_candidates suggestions gaps max_distance
       available_minutes tolerance resolution_minutes = Ok chosen /\
     chosen ⊆+ suggestions /\
     (total_weight resolution_minutes chosen
      <= py_round (capacity / resolution_minutes))%Z /\
     (forall sub, sub ⊆+ suggestions ->
        (total_weight resolution_minutes sub
         <= py_round (capacity / resolution_minutes))%Z ->
        total_score sub <= total_score chosen) /\
     StronglySorted score_ge chosen).
Proof.
  intros capacity.
  assert (Hcap : capacity
                 = match available_minutes with
                   | Some c => c
                   | None => total_gap_minutes gaps
                   end) by (unfold capacity; now destruct available_minutes).
  unfold greedy_select_candidates. rewrite <- Hcap. split.
  { intros Hle. apply Qleb_true in Hle. now rewrite Hle. }
  intros Hlt Htol Hres.
  apply Qleb_false in Hlt as Hlt'. rewrite Hlt'.
  unfold py_div.
  assert (Hne : Qeqb resolution_minutes 0 = false).
  { destruct (Qeqb resolution_minutes 0) eqn:E; [|reflexivity].
    qprop. lra. }
  rewrite Hne. cbn [bind].
  set (r := py_round (capacity / resolution_minutes)).
  assert (Hr : (0 <= r)%Z).
  { apply py_round_nonneg. apply Qle_shift_div_l; [exact Hres|]. lra. }
  set (W := Z.to_nat (Z.max 0 r)).
  set (wt := fun s => Z.to_nat (item_weight resolution_minutes s)).
  assert (wt_pos : forall s, (1 <= wt s)%nat).
  { intros s. unfold wt, item_weight. lia. }
  destruct (knapsack_table_spec W wt wt_pos suggestions)
    as (dp & tk & E & Hl & Ht & Hdp & Hrows).
  rewrite E. unfold backtrack.
  destruct (backtrack_spec W wt _ Hrows W [])
    as (sel & Esel & Hsub & Hwt & Hval); [lia|].
  rewrite Esel. cbn [app].
  rewrite map_rev, rows_items in Hsub, Hval
    by (rewrite ?length_map; auto).
  exists (sort_by_score_desc sel).
  pose proof (sort_by_perm score_desc sel) as Hperm.
  change (sort_by score_desc sel) with (sort_by_score_desc sel) in Hperm.
  split; [reflexivity|]. split; [|split; [|split]].
  - rewrite Hperm. etransitivity; [apply sublist_submseteq, Hsub|].
    apply Permutation_submseteq, Permutation_sym, Permutation_rev.
  - rewrite total_weight_nat. fold wt.
    rewrite (nat_weight_perm wt _ _ Hperm). unfold W in Hwt. lia.
  - intros sub Hsubm Hw.
    rewrite (total_score_perm _ _ Hperm), Hval.
    assert (Hsubr : sub ⊆+ rev suggestions).
    { etransitivity; [exact Hsubm|].
      apply Permutation_submseteq, Permutation_rev. }
    apply submseteq_sublist_r in Hsubr as (l2 & Hp & Hl2).
    rewrite (total_score_perm _ _ Hp).
    apply opt_value_upper; [exact Hl2|].
    rewrite <- (nat_weight_perm wt _ _ Hp).
    rewrite total_weight_nat in Hw. fold wt in Hw. unfold W. lia.
  - apply sort_by_score_desc_sorted.
Qed.


(** ** Gap placement engine *)

Lemma dget_dadd_eq (d : gmap string Q) (k : string) (v : Q) :
  dget (dadd d k v) k = dget d k + v.
Proof. unfold dget, dadd. now rewrite lookup_insert_eq. Qed.

Lemma dget_dadd_ne (d : gmap string Q) (k k' : string) (v : Q) :
  k <> k' -> dget (dadd d k v) k' = dget d k'.
Proof. intros H. unfold dget, dadd. now rewrite lookup_insert_ne. Qed.

Section Placement.

Variable hypot : Q -> Q -> Q.
Variable gaps : list Gap.t.
Variable gap_labels : gmap string (string * string).
Variable tolerance : Q.

Abbreviation shift := (shift_to_next_gap hypot gaps gap_labels tolerance).
Abbreviation loop := (allocate_loop hypot gaps gap_labels tolerance).
Abbreviation travel := (travel_minutes_between hypot).

Lemma current_gap_lt (f : Frame) (gap : Gap.t) :
  current_gap gaps f = Some gap -> (gap_index f < length gaps)%nat.
Proof. intros H. apply lookup_lt_Some in H. exact H. Qed.

Lemma leave_gap_index (f : Frame) (gap : Gap.t)
    (exit_info : Q * Q * string * string) :
  gap_index (leave_gap tolerance f gap exit_info) = S (gap_index f).
Proof. now destruct exit_info as [[[d m] fl] tl]. Qed.

Lemma leave_gap_schedule (f : Frame) (gap : Gap.t)
    (exit_info : Q * Q * string * string) :
  schedule (leave_gap tolerance f gap exit_info) = schedule f.
Proof. now destruct exit_info as [[[d m] fl] tl]. Qed.

Lemma leave_gap_cursor (f : Frame) (gap : Gap.t)
    (exit_info : Q * Q * string * string) :
  current_cursor (leave_gap tolerance f gap exit_info) = None.
Proof. now destruct exit_info as [[[d m] fl] tl]. Qed.

Lemma shift_cases (f : Frame) :
  (shift f = (f, false) /\
   (current_gap gaps f = None \/
    exists gap,
      current_gap gaps f = Some gap /\
      ensure_gap_exit_ok hypot gap_labels tolerance f gap
        (default (Gap.start_location gap) (current_cursor f))
        (current_label f) = None)) \/
  (exists gap exit_info,
     can_leave hypot gaps gap_labels tolerance f gap exit_info /\
     shift f = (leave_gap tolerance f gap exit_info,
                (S (gap_index f) <? length gaps)%nat)).
Proof using Type.
  unfold shift_to_next_gap, can_leave.
  destruct (current_gap gaps f) as [gap|] eqn:Eg; [|left; auto].
  destruct (ensure_gap_exit_ok _ _ _ f gap _ _) as [ei|] eqn:Ee.
  - right. exists gap, ei. rewrite leave_gap_index. auto.
  - left. split; [reflexivity|]. right. eauto.
Qed.

(** One iteration of the loop of [allocate_suggestion]. *)
Lemma allocate_loop_unfold (fuel : nat) (s : Suggestion.t) (is_last : bool)
    (f : Frame) :
  loop (S fuel) s is_last f
  = match current_gap gaps f with
    | None => Ok (f, false)
    | Some gap =>
        let cursor := default (Gap.start_location gap) (current_cursor f) in
        let remaining :=
          Gap.duration gap - dget (gap_usage f) (Gap.gap_id gap) in
        let travel_in := snd (travel cursor (Suggestion.location s)) in
        let advance :=
          advance_with hypot gaps gap_labels tolerance
            (loop fuel s is_last) in
        if Qleb remaining tolerance then advance f
        else if preference_blocks hypot gaps gap_labels tolerance f gap
                  cursor remaining s is_last
        then advance f
        else if Qgtb (travel_in + Suggestion.duration s)
                     (remaining + tolerance)
        then advance f
        else if Qgtb (Suggestion.duration s)
                     ((if Qgtb travel_in tolerance
                       then remaining - travel_in else remaining)
                      + tolerance)
        then advance (pay_travel hypot gap_labels tolerance f gap s)
        else Ok (place_block
                   (pay_travel hypot gap_labels tolerance f gap s) gap s,
                 true)
    end.
Proof using Type.
  cbn [allocate_loop]. destruct (current_gap gaps f) as [gap|]; [|reflexivity].
  cbv zeta. unfold advance_with, pay_travel, place_block, block_of.
  destruct (Qleb _ tolerance); [reflexivity|].
  destruct (preference_blocks _ _ _ _ _ _ _ _ _ _); [reflexivity|].
  unfold travel_minutes_between. cbn [snd].
  destruct (Qgtb (_ + _) (_ + tolerance)); [reflexivity|].
  destruct (Qgtb (_ * _) tolerance); reflexivity.
Qed.

Lemma pay_travel_index (f : Frame) (gap : Gap.t) (s : Suggestion.t) :
  gap_index (pay_travel hypot gap_labels tolerance f gap s) = gap_index f.
Proof using Type.
  unfold pay_travel, travel_minutes_between.
  now destruct (Qgtb _ tolerance).
Qed.

Lemma pay_travel_schedule (f : Frame) (gap : Gap.t) (s : Suggestion.t) :
  schedule (pay_travel hypot gap_labels tolerance f gap s) = schedule f.
Proof using Type.
  unfold pay_travel, travel_minutes_between.
  now destruct (Qgtb _ tolerance).
Qed.

Lemma pay_travel_usage (f : Frame) (gap : Gap.t) (s : Suggestion.t) :
  gap_usage (pay_travel hypot gap_labels tolerance f gap s)
  = let travel_in :=
      snd (travel (default (Gap.start_location gap) (current_cursor f))
                  (Suggestion.location s)) in
    if Qgtb travel_in tolerance
    then dadd (gap_usage f) (Gap.gap_id gap) travel_in
    else gap_usage f.
Proof using Type.
  unfold pay_travel, travel_minutes_between. cbn [snd].
  now destruct (Qgtb _ tolerance).
Qed.

(** With enough fuel the loop returns, and what it returns is related
    to the initial frame by [allocates]. *)
Lemma allocate_loop_sound (s : Suggestion.t) (is_last : bool) (fuel : nat) :
  forall f,
    (length gaps - gap_index f < fuel)%nat ->
    exists f' ok,
      loop fuel s is_last f = Ok (f', ok) /\
      allocates hypot gaps gap_labels tolerance s is_last f f' ok.
Proof using Type.
  induction fuel as [|fuel IH]; intros f Hfuel; [lia|].
  assert (Hadv : forall f0 gap,
            current_gap gaps f0 = Some gap ->
            gap_index f0 = gap_index f ->
            exists f' ok,
              advance_with hypot gaps gap_labels tolerance
                (loop fuel s is_last) f0 = Ok (f', ok) /\
              allocates hypot gaps gap_labels tolerance s is_last f0 f' ok).
  { intros f0 gap Hg Hidx. unfold advance_with.
    pose proof (current_gap_lt _ _ Hg) as Hlt.
    destruct (shift_cases f0) as [[-> Hwhy] | (g & ei & Hcan & ->)].
    - exists f0, false. split; [reflexivity|].
      destruct Hwhy as [Hn | (g & Hg' & He)]; [congruence|].
      eapply allocates_stuck; eauto.
    - destruct (Nat.ltb_spec (S (gap_index f0)) (length gaps)) as [Hin|Hout].
      + destruct (IH (leave_gap tolerance f0 g ei)) as (f' & ok & E & Hal).
        { rewrite leave_gap_index. lia. }
        exists f', ok. split; [exact E|].
        eapply allocates_leave; eauto.
      + eexists _, false. split; [reflexivity|].
        eapply allocates_leave_last; eauto. }
  rewrite allocate_loop_unfold.
  destruct (current_gap gaps f) as [gap|] eqn:Hg.
  2:{ exists f, false. split; [reflexivity|]. now constructor. }
  cbv zeta.
  destruct (Qleb _ tolerance) eqn:Hroom; [now apply (Hadv f gap)|].
  destruct (preference_blocks _ _ _ _ _ _ _ _ _ _) eqn:Hpref;
    [now apply (Hadv f gap)|].
  destruct (Qgtb (_ + _) (_ + tolerance)) eqn:Hfit;
    [now apply (Hadv f gap)|].
  destruct (Qgtb (Suggestion.duration s) _) eqn:Hdur.
  - (* only reachable when the leg is not paid *)
    destruct (Qgtb (snd (travel _ _)) tolerance) eqn:Hmoved.
    + qprop. lra.
    + assert (Hsame : pay_travel hypot gap_labels tolerance f gap s = f).
      { unfold pay_travel, travel_minutes_between in *. cbn [snd] in Hmoved.
        now rewrite Hmoved. }
      rewrite Hsame. now apply (Hadv f gap).
  - eexists _, true. split; [reflexivity|].
    apply allocates_place. constructor; try assumption.
    + now apply Qleb_false in Hroom.
    + now apply Qgtb_false in Hfit.
    + rewrite pay_travel_usage. cbv zeta.
      destruct (Qgtb (snd (travel _ _)) tolerance) eqn:Hmoved.
      * rewrite dget_dadd_eq. qprop. lra.
      * qprop. lra.
Qed.

Lemma allocate_suggestion_sound (s : Suggestion.t) (is_last : bool)
    (f : Frame) :
  exists f' ok,
    allocate_suggestion hypot gaps gap_labels tolerance s is_last f
    = Ok (f', ok) /\
    allocates hypot gaps gap_labels tolerance s is_last f f' ok.
Proof using Type.
  unfold allocate_suggestion. apply allocate_loop_sound. lia.
Qed.

Lemma allocate_all_sound (ordered : list Suggestion.t) :
  forall f,
  exists f' ok,
    allocate_all hypot gaps gap_labels tolerance ordered f = Ok (f', ok) /\
    allocates_all hypot gaps gap_labels tolerance ordered f f' ok.
Proof using Type.
  induction ordered as [|s rest IH]; intros f.
  - exists f, true. split; [reflexivity|constructor].
  - cbn [allocate_all].
    destruct (allocate_suggestion_sound s (bool_decide (rest = [])) f)
      as (f1 & ok & -> & Hal).
    cbn [bind]. destruct ok.
    + destruct (IH f1) as (f' & ok & -> & Hall).
      exists f', ok. split; [reflexivity|].
      eapply allocates_all_cons; eauto.
    + exists f1, false. split; [reflexivity|]. now constructor.
Qed.

(** [assign_order_to_gaps] returns; when it returns a placement for a
    non-empty ordering, the frame went through [allocates_all] and
    [closes]. *)
Lemma assign_order_to_gaps_sound (ordered : list Suggestion.t)
    (initial_state : option AllocationState.t) :
  exists result,
    assign_order_to_gaps hypot gaps gap_labels tolerance ordered
      initial_state = Ok result /\
    match result with
    | None => ordered <> []
    | Some (blocks, state', logs) =>
        (ordered = [] /\ blocks = [] /\ logs = [] /\
         state' = default (fresh_state gaps) initial_state) \/
        (ordered <> [] /\
         exists f f',
           allocates_all hypot gaps gap_labels tolerance ordered
             (initial_frame gaps initial_state) f true /\
           closes hypot gaps gap_labels tolerance f f' /\
           blocks = schedule f' /\ state' = frame_state f' /\
           logs = movement_logs f')
    end.
Proof using Type.
  unfold assign_order_to_gaps.
  destruct ordered as [|s rest].
  { eexists. split; [reflexivity|]. left. auto. }
  destruct (allocate_all_sound (s :: rest) (initial_frame gaps initial_state))
    as (f & ok & -> & Hall).
  cbn [bind]. destruct ok; cbn [negb].
  2:{ eexists. split; [reflexivity|]. discriminate. }
  destruct (current_gap gaps f) as [gap|] eqn:Hg.
  - destruct (ensure_gap_exit_ok _ _ _ f gap _ _) as [ei|] eqn:He.
    + eexists. split; [reflexivity|]. right. split; [discriminate|].
      exists f, (leave_gap tolerance f gap ei).
      repeat split; [exact Hall|].
      apply closes_leave. split; assumption.
    + eexists. split; [reflexivity|]. discriminate.
  - eexists. split; [reflexivity|]. right. split; [discriminate|].
    exists f, f. repeat split; [exact Hall|]. now constructor.
Qed.

End Placement.


Section PlacementInvariants.

Variable hypot : Q -> Q -> Q.
Variable gaps : list Gap.t.
Variable gap_labels : gmap string (string * string).
Variable tolerance : Q.

Abbreviation allocates' := (allocates hypot gaps gap_labels tolerance).
Abbreviation allocates_all' := (allocates_all hypot gaps gap_labels tolerance).
Abbreviation can_leave' := (can_leave hypot gaps gap_labels tolerance).
Abbreviation placeable' := (placeable hypot gaps gap_labels tolerance).
Abbreviation pay := (pay_travel hypot gap_labels tolerance).

(** Invariants of the frame: preserved by leaving a gap and by placing a
    suggestion, they hold after [allocate_suggestion]. *)
Lemma allocates_invariant (I : Frame -> Prop) (s : Suggestion.t)
    (is_last : bool) (f f' : Frame) (ok : bool) :
  (forall f gap exit_info,
     I f -> can_leave' f gap exit_info ->
     I (leave_gap tolerance f gap exit_info)) ->
  (forall f gap,
     I f -> placeable' f gap s is_last ->
     I (place_block (pay f gap s) gap s)) ->
  allocates' s is_last f f' ok -> I f -> I f'.
Proof using Type.
  intros Hleave Hplace. induction 1; intros HI; eauto.
Qed.

Lemma allocates_all_invariant (I : Frame -> Prop)
    (ordered : list Suggestion.t) (f f' : Frame) (ok : bool) :
  (forall f gap exit_info,
     I f -> can_leave' f gap exit_info ->
     I (leave_gap tolerance f gap exit_info)) ->
  (forall s is_last f gap,
     In s ordered -> I f -> placeable' f gap s is_last ->
     I (place_block (pay f gap s) gap s)) ->
  allocates_all' ordered f f' ok -> I f -> I f'.
Proof using Type.
  intros Hleave Hplace Hall. induction Hall as
    [f|s rest f f' Hal|s rest f f1 f' ok Hal Hall IH]; intros HI.
  - exact HI.
  - eapply allocates_invariant; eauto. intros. eapply Hplace; eauto.
    now left.
  - apply IH.
    + intros. eapply Hplace; eauto. now right.
    + eapply allocates_invariant; eauto. intros. eapply Hplace; eauto.
      now left.
Qed.

(** A successful [allocate_suggestion] appends exactly one block, made
    for the suggestion. *)
Lemma allocates_block (s : Suggestion.t) (is_last : bool) (f f' : Frame)
    (ok : bool) :
  allocates' s is_last f f' ok ->
  if ok then exists b, schedule f' = schedule f ++ [b] /\ block_for s b
  else schedule f' = schedule f.
Proof using Type.
  induction 1 as [f Hg|f gap Hg He|f gap ei Hcan Hlen
                  |f gap ei f' ok Hcan Hlen Hal IH|f gap Hp].
  - reflexivity.
  - reflexivity.
  - apply leave_gap_schedule.
  - rewrite leave_gap_schedule in IH. exact IH.
  - cbn [place_block schedule]. rewrite pay_travel_schedule.
    eexists. split; [reflexivity|]. repeat split.
Qed.

Lemma allocates_all_blocks (ordered : list Suggestion.t) (f f' : Frame) :
  allocates_all' ordered f f' true ->
  exists blocks,
    schedule f' = schedule f ++ blocks /\ Forall2 block_for ordered blocks.
Proof using Type.
  intros Hall. remember true as ok eqn:Hok.
  induction Hall as
    [f|s rest f f' Hal|s rest f f1 f' ok Hal Hall IH].
  - exists []. rewrite app_nil_r. split; [reflexivity|constructor].
  - discriminate.
  - apply allocates_block in Hal as (b & Hb & Hfor).
    destruct (IH Hok) as (blocks & Hs & Hall2).
    exists (b :: blocks). split; [|now constructor].
    rewrite Hs, Hb, <- app_assoc. reflexivity.
Qed.

(** A suggestion with an unsupported preference is never placed. *)
Lemma unsupported_blocks (s : Suggestion.t) (is_last : bool) (f : Frame)
    (gap : Gap.t) (cursor : Coordinate) (remaining : Q) :
  unsupported s ->
  preference_blocks hypot gaps gap_labels tolerance f gap cursor remaining
    s is_last = true.
Proof using Type.
  intros (p & Hp & Hne & Hnh). unfold preference_blocks. rewrite Hp.
  cbn [truthy opt_string_eqb].
  destruct (String.eqb_spec p "") as [->|_]; [congruence|]. cbn [negb].
  destruct (String.eqb_spec p "near_home") as [->|_]; [congruence|].
  reflexivity.
Qed.

Lemma allocates_unsupported (s : Suggestion.t) (is_last : bool)
    (f f' : Frame) (ok : bool) :
  unsupported s -> allocates' s is_last f f' ok -> ok = false.
Proof using Type.
  intros Hu. induction 1 as [| | | |f gap Hp]; auto.
  destruct Hp as [_ _ Hpref _ _].
  rewrite unsupported_blocks in Hpref by exact Hu. discriminate.
Qed.

Lemma allocates_all_unsupported (ordered : list Suggestion.t) (f f' : Frame)
    (ok : bool) (s : Suggestion.t) :
  In s ordered -> unsupported s ->
  allocates_all' ordered f f' ok -> ok = false.
Proof using Type.
  intros Hin Hu Hall.
  induction Hall as [f|s' rest f f' Hal|s' rest f f1 f' ok Hal Hall IH].
  - destruct Hin.
  - reflexivity.
  - destruct Hin as [->|Hin]; [|now apply IH].
    apply allocates_unsupported in Hal; [discriminate|exact Hu].
Qed.

End PlacementInvariants.


(** ** Orchestrator *)

Lemma outcome_bind {A B : Type} (bad : exn -> Prop) (P : A -> Prop)
    (R : B -> Prop) (m : res A) (k : A -> res B) :
  outcome bad P m ->
  (forall a, P a -> outcome bad R (k a)) ->
  outcome bad R (bind m k).
Proof. destruct m; simpl; auto. Qed.

Lemma outcome_impl {A : Type} (bad : exn -> Prop) (P R : A -> Prop)
    (r : res A) :
  outcome bad P r -> (forall a, P a -> R a) -> outcome bad R r.
Proof. destruct r; simpl; auto. Qed.

(** *** The data class equality is an equivalence *)

Lemma Qeqb_refl (x : Q) : Qeqb x x = true.
Proof. apply Qeqb_true. reflexivity. Qed.

Lemma Qeqb_sym (x y : Q) : Qeqb x y = true -> Qeqb y x = true.
Proof. intros H. qprop. now symmetry. Qed.

Lemma Qeqb_trans (x y z : Q) :
  Qeqb x y = true -> Qeqb y z = true -> Qeqb x z = true.
Proof. intros H1 H2. qprop. now transitivity y. Qed.

Lemma coord_eqb_refl (a : Coordinate) : coord_eqb a a = true.
Proof. unfold coord_eqb. now rewrite !Qeqb_refl. Qed.

Lemma coord_eqb_sym (a b : Coordinate) :
  coord_eqb a b = true -> coord_eqb b a = true.
Proof.
  unfold coord_eqb. rewrite !andb_true_iff. intros [H1 H2].
  split; now apply Qeqb_sym.
Qed.

Lemma coord_eqb_trans (a b c : Coordinate) :
  coord_eqb a b = true -> coord_eqb b c = true -> coord_eqb a c = true.
Proof.
  unfold coord_eqb. rewrite !andb_true_iff. intros [H1 H2] [H3 H4].
  split; eapply Qeqb_trans; eauto.
Qed.

Lemma opt_string_eqb_eq (a b : option string) :
  opt_string_eqb a b = true <-> a = b.
Proof.
  destruct a as [x|], b as [y|]; simpl; split; intros H;
    try congruence; try discriminate.
  - apply String.eqb_eq in H. now subst.
  - inversion H; subst. apply String.eqb_refl.
Qed.

Lemma suggestion_eqb_fields (a b : Suggestion.t) :
  Suggestion.eqb a b = true <->
  Suggestion.suggestion_id a = Suggestion.suggestion_id b /\
  Qeqb (Suggestion.need a) (Suggestion.need b) = true /\
  Qeqb (Suggestion.importance a) (Suggestion.importance b) = true /\
  Qeqb (Suggestion.duration a) (Suggestion.duration b) = true /\
  coord_eqb (Suggestion.location a) (Suggestion.location b) = true /\
  Suggestion.location_preference a = Suggestion.location_preference b.
Proof.
  unfold Suggestion.eqb. rewrite !andb_true_iff, String.eqb_eq,
    opt_string_eqb_eq. tauto.
Qed.

Lemma suggestion_eqb_refl (a : Suggestion.t) : Suggestion.eqb a a = true.
Proof.
  apply suggestion_eqb_fields.
  repeat split; auto using Qeqb_refl, coord_eqb_refl.
Qed.

Lemma suggestion_eqb_sym (a b : Suggestion.t) :
  Suggestion.eqb a b = true -> Suggestion.eqb b a = true.
Proof.
  rewrite !suggestion_eqb_fields. intros (H1 & H2 & H3 & H4 & H5 & H6).
  repeat split; auto using Qeqb_sym, coord_eqb_sym.
Qed.

Lemma suggestion_eqb_trans (a b c : Suggestion.t) :
  Suggestion.eqb a b = true -> Suggestion.eqb b c = true ->
  Suggestion.eqb a c = true.
Proof.
  rewrite !suggestion_eqb_fields.
  intros (H1 & H2 & H3 & H4 & H5 & H6) (G1 & G2 & G3 & G4 & G5 & G6).
  repeat split; try congruence; eauto using Qeqb_trans, coord_eqb_trans.
Qed.

Lemma mem_spec (x : Suggestion.t) (l : list Suggestion.t) :
  mem x l = true <-> exists y, In y l /\ Suggestion.eqb x y = true.
Proof. unfold mem. apply existsb_exists. Qed.

Lemma mem_In (x : Suggestion.t) (l : list Suggestion.t) :
  In x l -> mem x l = true.
Proof. intros H. apply mem_spec. exists x. auto using suggestion_eqb_refl. Qed.

Lemma mem_eqb (x y : Suggestion.t) (l : list Suggestion.t) :
  Suggestion.eqb x y = true -> mem x l = mem y l.
Proof.
  intros H. apply eq_true_iff_eq. rewrite !mem_spec.
  split; intros (z & Hz & E); exists z; split; auto.
  - eapply suggestion_eqb_trans; [apply suggestion_eqb_sym|]; eauto.
  - eapply suggestion_eqb_trans; eauto.
Qed.

Lemma mem_app (x : Suggestion.t) (l1 l2 : list Suggestion.t) :
  mem x (l1 ++ l2) = mem x l1 || mem x l2.
Proof. unfold mem. apply existsb_app. Qed.

(** *** Removing from [remaining] *)

Lemma remove_first_length (x : Suggestion.t) (l : list Suggestion.t) :
  mem x l = true -> S (length (remove_first x l)) = length l.
Proof.
  induction l as [|y l IH]; simpl; [discriminate|].
  intros H. destruct (Suggestion.eqb y x) eqn:E; [reflexivity|].
  simpl. rewrite IH; [reflexivity|].
  apply orb_true_iff in H as [H|H]; [|exact H].
  apply suggestion_eqb_sym in H. congruence.
Qed.

Lemma discard_length_le (x : Suggestion.t) (l : list Suggestion.t) :
  (length (discard x l) <= length l)%nat.
Proof.
  unfold discard. destruct (mem x l) eqn:E; [|lia].
  apply remove_first_length in E. lia.
Qed.

Lemma discard_length_mem (x : Suggestion.t) (l : list Suggestion.t) :
  mem x l = true -> S (length (discard x l)) = length l.
Proof.
  intros H. unfold discard. rewrite H. now apply remove_first_length.
Qed.

Lemma discard_all_length_le (order l : list Suggestion.t) :
  (length (fold_left (fun r s => discard s r) order l) <= length l)%nat.
Proof.
  revert l. induction order as [|s order IH]; intros l; simpl; [lia|].
  etransitivity; [apply IH|apply discard_length_le].
Qed.

(** An element stays in the list, up to equality, unless it equals the
    removed one. *)
Lemma remove_first_mem (x y : Suggestion.t) (l : list Suggestion.t) :
  mem y l = true -> Suggestion.eqb y x = false ->
  mem y (remove_first x l) = true.
Proof.
  induction l as [|z l IH]; simpl; [discriminate|].
  intros H Hne. destruct (Suggestion.eqb z x) eqn:E.
  - apply orb_true_iff in H as [H|H]; [|exact H].
    rewrite (suggestion_eqb_trans y z x H E) in Hne. discriminate.
  - simpl. apply orb_true_iff in H as [H|H]; [now rewrite H|].
    rewrite IH by assumption. apply orb_true_r.
Qed.

Lemma discard_mem (x y : Suggestion.t) (l : list Suggestion.t) :
  mem y l = true -> Suggestion.eqb y x = false ->
  mem y (discard x l) = true.
Proof.
  intros H Hne. unfold discard. destruct (mem x l); [|exact H].
  now apply remove_first_mem.
Qed.

Lemma remove_first_In (x y : Suggestion.t) (l : list Suggestion.t) :
  In y (remove_first x l) -> In y l.
Proof.
  induction l as [|z l IH]; simpl; [tauto|].
  destruct (Suggestion.eqb z x); simpl; tauto.
Qed.

Lemma discard_In (x y : Suggestion.t) (l : list Suggestion.t) :
  In y (discard x l) -> In y l.
Proof.
  unfold discard. destruct (mem x l); [apply remove_first_In|tauto].
Qed.

Lemma pop_spec {A : Type} (l : list A) :
  match pop l with
  | None => l = []
  | Some (l', x) => l = l' ++ [x]
  end.
Proof.
  unfold pop. destruct (rev l) as [|x r] eqn:E.
  - apply (f_equal (@rev A)) in E. now rewrite rev_involutive in E.
  - apply (f_equal (@rev A)) in E. rewrite rev_involutive in E.
    simpl in E. exact E.
Qed.


Section OrchestratorSound.

Variable hypot : Q -> Q -> Q.
Variable gap_list : list Gap.t.
Variable gap_labels : gmap string (string * string).
Variable permutation_limit : Z.
Variable tolerance : Q.
Variable max_distance : Q.
Variable resolution_minutes : Q.
Variable pool : list Suggestion.t.

Abbreviation steps := (ctx_steps hypot gap_list gap_labels tolerance pool).
Abbreviation bad := (misconfigured permutation_limit resolution_minutes).
Abbreviation first :=
  (first_event hypot gap_list gap_labels tolerance pool).

Lemma ctx_step_remaining (ctx ctx' : Ctx) :
  ctx_step hypot gap_list gap_labels tolerance pool ctx ctx' ->
  (length (remaining ctx') <= length (remaining ctx))%nat.
Proof using Type.
  intros [c0 c Hc|c0 order tc n blocks st logs Hne Hin Has]; simpl.
  - apply discard_length_le.
  - apply discard_all_length_le.
Qed.

Lemma ctx_steps_remaining (ctx ctx' : Ctx) :
  steps ctx ctx' ->
  (length (remaining ctx') <= length (remaining ctx))%nat.
Proof using Type.
  induction 1 as [|x y z Hxy _ IH]; [lia|].
  apply ctx_step_remaining in Hxy. lia.
Qed.

Lemma first_event_steps (working : list Suggestion.t) (ctx ctx' : Ctx) :
  (forall s, In s working -> In s pool) ->
  first working ctx ctx' ->
  (exists x,
     ctx_step hypot gap_list gap_labels tolerance pool ctx x /\
     steps x ctx' /\
     ((forall s, In s working -> mem s (remaining ctx) = true) ->
      (length (remaining x) < length (remaining ctx))%nat)) \/
  (exists order travel_cost permutations_checked blocks state' logs,
     order <> [] /\ (forall s, In s order -> In s working) /\
     ctx' = commit ctx order travel_cost permutations_checked blocks state'
              logs).
Proof using Type.
  intros Hpool [(c & Hc & Hs)|H]; [left|right; exact H].
  exists (drop_candidate c ctx). split; [constructor; auto|].
  split; [exact Hs|]. intros Hmem. simpl.
  rewrite <- (discard_length_mem c (remaining ctx)) by auto. lia.
Qed.

Lemma first_event_decreases (working : list Suggestion.t) (ctx ctx' : Ctx) :
  (forall s, In s working -> In s pool) ->
  (forall s, In s working -> mem s (remaining ctx) = true) ->
  first working ctx ctx' ->
  (length (remaining ctx') < length (remaining ctx))%nat.
Proof using Type.
  intros Hpool Hmem Hf.
  destruct (first_event_steps working ctx ctx' Hpool Hf)
    as [(x & _ & Hs & Hlt)|(order & tc & n & bl & st & lg & Hne & Hin & ->)].
  - apply ctx_steps_remaining in Hs. specialize (Hlt Hmem). lia.
  - destruct order as [|s order]; [congruence|]. simpl.
    eapply Nat.le_lt_trans; [apply discard_all_length_le|].
    rewrite <- (discard_length_mem s (remaining ctx)); [lia|].
    apply Hmem, Hin. now left.
Qed.

(** [shrink_batch] drops the last members of the batch. *)
Lemma shrink_batch_sound (fuel : nat) :
  forall batch ctx,
    (length batch < fuel)%nat ->
    (forall s, In s batch -> In s pool) ->
    outcome bad
      (fun '(batch', ctx') =>
         steps ctx ctx' /\
         (forall s, In s batch' -> In s batch) /\
         ((batch' = batch /\ ctx' = ctx) \/
          exists c, In c batch /\ steps (drop_candidate c ctx) ctx'))
      (shrink_batch permutation_limit fuel batch ctx).
Proof using Type.
  induction fuel as [|fuel IH]; intros batch ctx Hfuel Hpool; [lia|].
  cbn [shrink_batch].
  destruct (Z.gtb_spec (Z.of_nat (length batch)) permutation_limit)
    as [Hgt|Hle].
  2:{ simpl. split; [apply rtc_refl|]. auto. }
  pose proof (pop_spec batch) as Hpop.
  destruct (pop batch) as [[batch' c]|].
  - subst batch.
    assert (Hc : In c (batch' ++ [c])) by (apply in_or_app; right; now left).
    eapply outcome_impl.
    + apply IH; [rewrite length_app in Hfuel; simpl in Hfuel; lia|].
      intros s Hs. apply Hpool, in_or_app. now left.
    + intros [b' ctx'] (Hs & Hin & _).
      assert (Hs' : steps ctx ctx').
      { eapply rtc_l; [apply ctx_drop, Hpool, Hc|exact Hs]. }
      split; [exact Hs'|]. split.
      * intros s Hs0. apply in_or_app. left. now apply Hin.
      * right. exists c. auto.
  - subst batch. simpl. left. split; [reflexivity|]. simpl in Hgt. lia.
Qed.

(** One iteration of [while working]. *)
Lemma place_batch_unfold (fuel : nat) (working : list Suggestion.t)
    (ctx : Ctx) :
  place_batch hypot gap_list gap_labels permutation_limit tolerance
    (S fuel) working ctx
  = let shrink :=
      match pop working with
      | None => Raise IndexError
      | Some (working', dropped_candidate) =>
          place_batch hypot gap_list gap_labels permutation_limit tolerance
            fuel working' (drop_candidate dropped_candidate ctx)
      end in
    match working with
    | [] => Ok (ctx, false)
    | _ =>
        match starting_location_for_state gap_list (state ctx) with
        | None => Ok (ctx, false)
        | Some start_location =>
            match enumerate_best_order hypot working (Some start_location)
                    (Gap.end_location <$> last gap_list)
                    permutation_limit with
            | Raise ValueError => shrink
            | Raise e => Raise e
            | NoFuel => NoFuel
            | Ok (order, travel_cost, permutations_checked) =>
                do result <-
                  assign_order_to_gaps hypot gap_list gap_labels tolerance
                    order (state ctx) in
                match result with
                | None => shrink
                | Some (schedule, state', movements) =>
                    Ok (commit ctx order travel_cost permutations_checked
                          schedule state' movements, true)
                end
            end
        end
    end.
Proof using Type. reflexivity. Qed.

Lemma place_batch_sound (fuel : nat) :
  forall working ctx,
    (length working < fuel)%nat ->
    (forall s, In s working -> In s pool) ->
    outcome bad
      (fun '(ctx', ok) =>
         steps ctx ctx' /\ (ok = true -> first working ctx ctx'))
      (place_batch hypot gap_list gap_labels permutation_limit tolerance
         fuel working ctx).
Proof using Type.
  induction fuel as [|fuel IH]; intros working ctx Hfuel Hpool; [lia|].
  rewrite place_batch_unfold. cbv zeta.
  destruct working as [|w0 wrest] eqn:Hw.
  { simpl. split; [apply rtc_refl|discriminate]. }
  rewrite <- Hw in *.
  assert (Hne : working <> []) by (rewrite Hw; discriminate).
  assert (Hshrink :
            outcome bad
              (fun '(ctx', ok) =>
                 steps ctx ctx' /\ (ok = true -> first working ctx ctx'))
              match pop working with
              | None => Raise IndexError
              | Some (working', dropped_candidate) =>
                  place_batch hypot gap_list gap_labels permutation_limit
                    tolerance fuel working'
                    (drop_candidate dropped_candidate ctx)
              end).
  { pose proof (pop_spec working) as Hpop.
    destruct (pop working) as [[working' c]|]; [|congruence].
    assert (Hc : In c working).
    { rewrite Hpop. apply in_or_app. right. now left. }
    eapply outcome_impl.
    - apply IH.
      + rewrite Hpop, length_app in Hfuel. simpl in Hfuel. lia.
      + intros s Hs. apply Hpool. rewrite Hpop. apply in_or_app. now left.
    - intros [ctx' ok] [Hs _]. split.
      + eapply rtc_l; [apply ctx_drop, Hpool, Hc|exact Hs].
      + intros _. left. exists c. auto. }
  destruct (starting_location_for_state gap_list (state ctx)) as [sl|].
  2:{ simpl. split; [apply rtc_refl|discriminate]. }
  destruct (enumerate_best_order_outcome hypot working (Some sl)
              (Gap.end_location <$> last gap_list) permutation_limit)
    as [[[[order tc] n] E]|(E & _)]; rewrite E; [|exact Hshrink].
  pose proof (enumerate_best_order_permutation _ _ _ _ _ _ _ _ E) as Hperm.
  destruct (assign_order_to_gaps_sound hypot gap_list gap_labels tolerance
              order (state ctx)) as (result & Ea & _).
  rewrite Ea. cbn [bind].
  destruct result as [[[blocks st'] logs]|]; [|exact Hshrink].
  assert (Hone : order <> []).
  { intros ->. apply Permutation_sym, Permutation_nil in Hperm. congruence. }
  assert (Hin : forall s, In s order -> In s working).
  { intros s Hs. eapply Permutation_in; [apply Permutation_sym|]; eauto. }
  simpl. split.
  - apply rtc_once. apply ctx_commit; auto.
  - intros _. right. exists order, tc, n, blocks, st', logs. auto.
Qed.

Lemma schedule_group_sound (group : list Suggestion.t) (ctx : Ctx) :
  (forall s, In s group -> In s pool) ->
  outcome bad
    (fun '(ctx', ok) =>
       steps ctx ctx' /\
       (ok = true ->
        (length (remaining ctx') < length (remaining ctx))%nat))
    (schedule_group hypot gap_list gap_labels permutation_limit tolerance
       group ctx).
Proof using Type.
  intros Hpool. unfold schedule_group.
  set (batch0 := List.filter (fun s => mem s (remaining ctx)) group).
  assert (Hb0 : forall s, In s batch0 ->
                  In s pool /\ mem s (remaining ctx) = true).
  { intros s Hs. apply filter_In in Hs as [Hs Hm]. auto. }
  destruct batch0 as [|b0 brest] eqn:Hbatch.
  { simpl. split; [apply rtc_refl|discriminate]. }
  rewrite <- Hbatch in *. clear Hbatch b0 brest.
  set (batch := sort_by_score_desc batch0).
  assert (Hb : forall s, In s batch ->
                 In s pool /\ mem s (remaining ctx) = true).
  { intros s Hs. apply Hb0. now apply sort_by_In in Hs. }
  eapply outcome_bind.
  { apply shrink_batch_sound; [lia|]. intros s Hs. now apply Hb. }
  intros [batch' ctx1] (Hs1 & Hsub & Hcase).
  destruct batch' as [|b1 brest] eqn:Hbatch'.
  { simpl. split; [exact Hs1|discriminate]. }
  rewrite <- Hbatch' in *.
  eapply outcome_impl.
  { apply place_batch_sound; [lia|]. intros s Hs. now apply Hb, Hsub. }
  intros [ctx' ok] [Hs2 Hfirst].
  split; [eapply rtc_trans; eauto|].
  intros Hok. specialize (Hfirst Hok).
  destruct Hcase as [[-> ->]|(c & Hc & Hsc)].
  - eapply first_event_decreases; [| |exact Hfirst].
    + intros s Hs. now apply Hb.
    + intros s Hs. now apply Hb.
  - apply ctx_steps_remaining in Hs2. apply ctx_steps_remaining in Hsc.
    simpl in Hsc.
    rewrite <- (discard_length_mem c (remaining ctx)) by now apply Hb.
    lia.
Qed.

End OrchestratorSound.


(** The selector only returns candidates. *)
Lemma backtrack_step_In (rows : list (Suggestion.t * nat * list bool)) :
  forall w chosen s,
    In s (snd (fold_left backtrack_step rows (w, chosen))) ->
    In s chosen \/ In s (map (fun x => fst (fst x)) rows).
Proof.
  induction rows as [|[[x w_i] row] rows IH]; intros w chosen s Hs.
  - now left.
  - cbn [fold_left backtrack_step] in Hs. cbn [map fst].
    destruct (bget row w).
    + apply IH in Hs as [Hs|Hs]; [|right; now right].
      apply in_app_or in Hs as [Hs|[<-|[]]]; [now left|right; now left].
    + apply IH in Hs as [Hs|Hs]; [now left|right; now right].
Qed.

Lemma greedy_select_candidates_outcome (suggestions : list Suggestion.t)
    (gaps : list Gap.t) (max_distance : Q) (available_minutes : option Q)
    (tolerance resolution_minutes : Q) (permutation_limit : Z) :
  outcome (misconfigured permutation_limit resolution_minutes)
    (fun selected => forall s, In s selected -> In s suggestions)
    (greedy_select_candidates suggestions gaps max_distance
       available_minutes tolerance resolution_minutes).
Proof.
  unfold greedy_select_candidates.
  destruct (Qleb _ tolerance); [simpl; tauto|].
  unfold py_div. destruct (Qeqb resolution_minutes 0) eqn:E.
  { simpl. right. split; [reflexivity|]. now apply Qeqb_true. }
  cbn [bind].
  destruct (knapsack_table _ _ _) as [dp tk]. simpl.
  intros s Hs. apply sort_by_In in Hs. unfold backtrack in Hs.
  apply backtrack_step_In in Hs as [[]|Hs].
  apply in_map_iff in Hs as ([[x w] r] & <- & Hin).
  apply in_rev in Hin. apply in_combine_l in Hin. apply in_combine_l in Hin.
  exact Hin.
Qed.

Section OrchestratorLoop.

Variable hypot : Q -> Q -> Q.
Variable gap_list : list Gap.t.
Variable gap_labels : gmap string (string * string).
Variable permutation_limit : Z.
Variable tolerance : Q.
Variable max_distance : Q.
Variable resolution_minutes : Q.
Variable pool : list Suggestion.t.
Variable optional : list Suggestion.t.
Hypothesis optional_pool : forall s, In s optional -> In s pool.

Abbreviation steps' := (ctx_steps hypot gap_list gap_labels tolerance pool).
Abbreviation bad' := (misconfigured permutation_limit resolution_minutes).

Lemma optional_loop_sound (fuel : nat) :
  forall ctx,
    (length (remaining ctx) < fuel)%nat ->
    outcome bad' (fun ctx' => steps' ctx ctx')
      (optional_loop hypot gap_list gap_labels permutation_limit tolerance
         max_distance resolution_minutes optional fuel ctx).
Proof using optional_pool.
  induction fuel as [|fuel IH]; intros ctx Hfuel; [lia|].
  cbn [optional_loop].
  destruct (remaining ctx) as [|r0 rrest] eqn:Hrem; [apply rtc_refl|].
  rewrite <- Hrem in *. clear Hrem r0 rrest.
  destruct (Qleb _ tolerance); [apply rtc_refl|].
  set (optional_remaining :=
         List.filter (fun s => mem s (remaining ctx)) optional).
  assert (Hor : forall s, In s optional_remaining -> In s pool).
  { intros s Hs. apply filter_In in Hs as [Hs _]. auto. }
  destruct optional_remaining as [|o0 orest] eqn:Hopt; [apply rtc_refl|].
  rewrite <- Hopt in *. clear Hopt o0 orest.
  eapply outcome_bind.
  { apply (greedy_select_candidates_outcome _ _ _ _ _ _ permutation_limit). }
  intros selected0 Hsel0.
  destruct selected0 as [|s0 srest] eqn:Hsel; [apply rtc_refl|].
  rewrite <- Hsel in *. clear Hsel s0 srest.
  set (selected := sort_by_score_desc selected0).
  assert (Hselp : forall s, In s selected -> In s pool).
  { intros s Hs. apply sort_by_In in Hs. auto. }
  set (location_selected := List.filter _ selected).
  assert (Hloc : forall s, In s location_selected -> In s pool).
  { intros s Hs. apply filter_In in Hs as [Hs _]. auto. }
  eapply (outcome_bind _
            (fun '(ctx1, ok) =>
               steps' ctx ctx1 /\
               (ok = true ->
                (length (remaining ctx1) < length (remaining ctx))%nat))).
  { destruct location_selected as [|l0 lrest] eqn:Hl.
    - simpl. split; [apply rtc_refl|discriminate].
    - rewrite <- Hl in *.
      apply (schedule_group_sound hypot gap_list gap_labels permutation_limit
               tolerance resolution_minutes pool); exact Hloc. }
  intros [ctx1 location_scheduled] [Hs1 Hlt1].
  destruct location_scheduled.
  { eapply outcome_impl; [apply IH; specialize (Hlt1 eq_refl); lia|].
    intros ctx' Hs'. eapply rtc_trans; eauto. }
  set (flexible_selected := List.filter _ selected).
  assert (Hflex : forall s, In s flexible_selected -> In s pool).
  { intros s Hs. apply filter_In in Hs as [Hs _]. auto. }
  destruct flexible_selected as [|f0 frest] eqn:Hf; [exact Hs1|].
  rewrite <- Hf in *. clear Hf f0 frest.
  eapply outcome_bind.
  { apply (schedule_group_sound hypot gap_list gap_labels permutation_limit
             tolerance resolution_minutes pool); exact Hflex. }
  intros [ctx2 ok] [Hs2 Hlt2].
  apply ctx_steps_remaining in Hs1 as Hle1.
  destruct ok.
  - eapply outcome_impl; [apply IH; specialize (Hlt2 eq_refl); lia|].
    intros ctx' Hs'. eapply rtc_trans; [exact Hs1|].
    eapply rtc_trans; eauto.
  - simpl. eapply rtc_trans; eauto.
Qed.

End OrchestratorLoop.

Lemma mandatory_of_In (tolerance : Q) (l : list Suggestion.t)
    (s : Suggestion.t) :
  In s (mandatory_of tolerance l) <-> In s l /\ is_mandatory tolerance s = true.
Proof. unfold mandatory_of. apply filter_In. Qed.

Lemma optional_of_In (tolerance : Q) (l : list Suggestion.t)
    (s : Suggestion.t) :
  In s (optional_of tolerance l) -> In s l.
Proof. unfold optional_of. intros H. now apply filter_In in H. Qed.

(** The two phases: no fuel shortage, no exception under a configuration
    in its domain, and the locals at the end are reached from the initial
    ones by drops and commits. *)
Lemma run_phases_sound (hypot : Q -> Q -> Q)
    (suggestion_list : list Suggestion.t) (gap_list : list Gap.t)
    (max_distance : Q) (permutation_limit : Z)
    (tolerance resolution_minutes : Q) :
  outcome (misconfigured permutation_limit resolution_minutes)
    (fun phases =>
       match phases with
       | None => True
       | Some ctx =>
           ctx_steps hypot gap_list (resolve_gap_labels gap_list) tolerance
             suggestion_list (initial_ctx tolerance suggestion_list) ctx
       end)
    (run_phases hypot suggestion_list gap_list max_distance
       permutation_limit tolerance resolution_minutes).
Proof.
  unfold run_phases. fold (initial_ctx tolerance suggestion_list).
  set (ctx0 := initial_ctx tolerance suggestion_list).
  set (mandatory_remaining := List.filter _ _).
  assert (Hm : forall s, In s mandatory_remaining -> In s suggestion_list).
  { intros s Hs. apply filter_In in Hs as [Hs _].
    now apply mandatory_of_In in Hs. }
  eapply (outcome_bind _
            (fun '(ctx1, ok) =>
               ctx_steps hypot gap_list (resolve_gap_labels gap_list)
                 tolerance suggestion_list ctx0 ctx1)).
  { destruct mandatory_remaining as [|m0 mrest] eqn:Hmr.
    - apply rtc_refl.
    - rewrite <- Hmr in *. eapply outcome_impl.
      + apply (schedule_group_sound hypot gap_list _ permutation_limit
                 tolerance resolution_minutes suggestion_list). exact Hm.
      + intros [ctx1 ok] [Hs _]. exact Hs. }
  intros [ctx1 ok] Hs1. destruct ok; cbn [negb]; [|exact I].
  eapply outcome_bind.
  { apply (optional_loop_sound hypot gap_list _ permutation_limit tolerance
             max_distance resolution_minutes suggestion_list).
    - apply optional_of_In.
    - lia. }
  intros ctx2 Hs2. simpl. eapply rtc_trans; eauto.
Qed.

(** The scheduler returns the infeasible result or the result read off
    the locals at the end of the phases. *)
Lemma schedule_suggestions_sound (hypot : Q -> Q -> Q)
    (suggestions : list Suggestion.t) (gaps : list Gap.t)
    (max_distance : Q) (permutation_limit : Z)
    (tolerance resolution_minutes : Q) :
  outcome (misconfigured permutation_limit resolution_minutes)
    (fun r =>
       (exists unused, r = infeasible_result suggestions unused) \/
       (gaps <> [] /\
        exists ctx,
          run_phases hypot suggestions gaps max_distance permutation_limit
            tolerance resolution_minutes = Ok (Some ctx) /\
          ctx_steps hypot gaps (resolve_gap_labels gaps) tolerance
            suggestions (initial_ctx tolerance suggestions) ctx /\
          r = final_result gaps tolerance ctx))
    (schedule_suggestions hypot suggestions gaps max_distance
       permutation_limit tolerance resolution_minutes).
Proof.
  unfold schedule_suggestions.
  destruct gaps as [|g grest]; [simpl; eauto|].
  destruct (Qgtb _ _); [simpl; eauto|].
  pose proof (run_phases_sound hypot suggestions (g :: grest) max_distance
                permutation_limit tolerance resolution_minutes) as Hrun.
  destruct (run_phases _ _ _ _ _ _ _) as [[ctx|]|e|]; simpl in *;
    try (now eauto).
  right. split; [discriminate|]. exists ctx. auto.
Qed.

(** Under a configuration in its domain the scheduler returns. *)
Lemma schedule_suggestions_returns (hypot : Q -> Q -> Q)
    (suggestions : list Suggestion.t) (gaps : list Gap.t)
    (max_distance : Q) (permutation_limit : Z)
    (tolerance resolution_minutes : Q) :
  (0 <= permutation_limit)%Z -> ~ resolution_minutes == 0 ->
  exists r,
    schedule_suggestions hypot suggestions gaps max_distance
      permutation_limit tolerance resolution_minutes = Ok r.
Proof.
  intros Hlim Hres.
  pose proof (schedule_suggestions_sound hypot suggestions gaps max_distance
                permutation_limit tolerance resolution_minutes) as H.
  destruct (schedule_suggestions _ _ _ _ _ _ _) as [r|e|]; simpl in H.
  - eauto.
  - destruct H as [[_ H]|[_ H]]; [lia|contradiction].
  - contradiction.
Qed.


(** ** Invariants of the locals *)

Lemma Forall2_block_for_right (order : list Suggestion.t)
    (blocks : list ScheduledBlock.t) (b : ScheduledBlock.t) :
  Forall2 block_for order blocks -> In b blocks ->
  exists s, In s order /\ block_for s b.
Proof.
  induction 1 as [|s b' order blocks Hsb _ IH]; intros Hb; [destruct Hb|].
  destruct Hb as [->|Hb]; [exists s; split; [now left|exact Hsb]|].
  destruct (IH Hb) as (s' & Hs' & Hf). exists s'.
  split; [now right|exact Hf].
Qed.

Lemma Forall2_block_for_left (order : list Suggestion.t)
    (blocks : list ScheduledBlock.t) (s : Suggestion.t) :
  Forall2 block_for order blocks -> In s order ->
  exists b, In b blocks /\ block_for s b.
Proof.
  induction 1 as [|s' b order blocks Hsb _ IH]; intros Hs; [destruct Hs|].
  destruct Hs as [->|Hs]; [exists b; split; [now left|exact Hsb]|].
  destruct (IH Hs) as (b' & Hb' & Hf). exists b'.
  split; [now right|exact Hf].
Qed.

Section CtxInvariants.

Variable hypot : Q -> Q -> Q.
Variable gap_list : list Gap.t.
Variable gap_labels : gmap string (string * string).
Variable tolerance : Q.
Variable pool : list Suggestion.t.

Lemma ctx_steps_invariant (P : Ctx -> Prop) (ctx ctx' : Ctx) :
  (forall c c',
     ctx_step hypot gap_list gap_labels tolerance pool c c' -> P c -> P c') ->
  ctx_steps hypot gap_list gap_labels tolerance pool ctx ctx' ->
  P ctx -> P ctx'.
Proof using Type.
  intros Hstep. induction 1 as [|x y z Hxy _ IH]; eauto.
Qed.

(** The blocks of a placement are made for the suggestions of the
    ordering, one each, in order; none of them has an unsupported
    preference. *)
Lemma assign_order_blocks (order : list Suggestion.t)
    (initial_state : option AllocationState.t)
    (blocks : list ScheduledBlock.t) (state' : AllocationState.t)
    (logs : list MovementLogEntry.t) :
  assign_order_to_gaps hypot gap_list gap_labels tolerance order
    initial_state = Ok (Some (blocks, state', logs)) ->
  Forall2 block_for order blocks /\
  (forall s, In s order -> ~ unsupported s).
Proof using Type.
  intros E.
  destruct (assign_order_to_gaps_sound hypot gap_list gap_labels tolerance
              order initial_state) as (result & E' & H).
  rewrite E in E'. inversion E'; subst result. clear E'.
  destruct H as [(-> & -> & _)|(Hne & f & f' & Hall & Hcl & -> & _)].
  { split; [constructor|]. intros s []. }
  split.
  - apply allocates_all_blocks in Hall as (bl & Hs & Hf2).
    assert (Hinit : schedule (initial_frame gap_list initial_state) = []).
    { now destruct initial_state. }
    rewrite Hinit in Hs. simpl in Hs.
    destruct Hcl as [f Hg|f gap ei Hcan].
    + now rewrite Hs.
    + now rewrite leave_gap_schedule, Hs.
  - intros s Hs Hu.
    pose proof (allocates_all_unsupported _ _ _ _ _ _ _ _ _ Hs Hu Hall).
    discriminate.
Qed.

Lemma discard_all_mem (order : list Suggestion.t) (s : Suggestion.t) :
  forall l,
    mem s l = true ->
    mem s (fold_left (fun r x => discard x r) order l) = true \/
    mem s order = true.
Proof using Type.
  induction order as [|x order IH]; intros l Hm; simpl; [now left|].
  destruct (Suggestion.eqb s x) eqn:E; [right; reflexivity|].
  destruct (IH (discard x l)) as [H|H].
  - now apply discard_mem.
  - now left.
  - right. rewrite H. apply orb_true_r.
Qed.

Lemma ctx_step_accounted (c c' : Ctx) :
  ctx_step hypot gap_list gap_labels tolerance pool c c' ->
  accounted pool c -> accounted pool c'.
Proof using Type.
  intros Hstep (Hall & Hord & Hbl).
  destruct Hstep as [c x Hx|c order tc n blocks st logs Hne Hin Has].
  - split; [|split; [exact Hord|exact Hbl]].
    intros s Hs. cbn [drop_candidate remaining dropped_total ordered_total].
    destruct (Hall s Hs) as [H|[H|H]]; [|right; left|right; right; exact H].
    + destruct (Suggestion.eqb s x) eqn:E.
      * right. left. rewrite mem_app. apply orb_true_iff. right.
        simpl. now rewrite E.
      * left. now apply discard_mem.
    + rewrite mem_app, H. reflexivity.
  - apply assign_order_blocks in Has as [Hf2 Hsup].
    split; [|split].
    + intros s Hs. cbn [commit remaining dropped_total ordered_total].
      destruct (Hall s Hs) as [H|[H|H]].
      * destruct (discard_all_mem order s _ H) as [H'|H']; [now left|].
        right. right. rewrite mem_app, H'. apply orb_true_r.
      * right. now left.
      * right. right. rewrite mem_app, H. reflexivity.
    + intros s Hs. cbn [commit ordered_total] in Hs.
      apply in_app_or in Hs as [Hs|Hs]; [now apply Hord|].
      split; [now apply Hin|now apply Hsup].
    + intros b Hb. cbn [commit scheduled_blocks_total ordered_total] in *.
      apply in_app_or in Hb as [Hb|Hb].
      * destruct (Hbl b Hb) as (s & Hs & Hf). exists s.
        split; [apply in_or_app; now left|exact Hf].
      * destruct (Forall2_block_for_right _ _ _ Hf2 Hb) as (s & Hs & Hf).
        exists s.
        split; [apply in_or_app; now right|exact Hf].
Qed.

End CtxInvariants.


(** ** Unsupported location preferences *)

Lemma normalize_location_preference_nonempty (value : option string) :
  normalize_location_preference value <> Some "".
Proof.
  destruct value as [v|]; simpl; [|discriminate].
  destruct (String.eqb_spec (strip v) "") as [E|E]; [discriminate|].
  destruct (String.eqb _ "near_home"); [discriminate|congruence].
Qed.

(** For a suggestion built by the constructor, [unsupported] says that
    the normalized preference is present and is not the near-home one. *)
Lemma unsupported_make (id : string) (need importance duration : Q)
    (location : Coordinate) (raw : option string) (s : Suggestion.t) :
  Suggestion.make id need importance duration location raw = Ok s ->
  (unsupported s <->
   exists p, normalize_location_preference raw = Some p /\ p <> "near_home").
Proof.
  unfold Suggestion.make. destruct (Qleb duration 0); [discriminate|].
  intros E. inversion E; subst s. unfold unsupported. simpl.
  split.
  - intros (p & Hp & _ & Hnh). eauto.
  - intros (p & Hp & Hnh). exists p. repeat split; auto.
    intros ->. now apply normalize_location_preference_nonempty in Hp.
Qed.

Lemma unsupported_eqb (a b : Suggestion.t) :
  Suggestion.eqb a b = true -> unsupported a -> unsupported b.
Proof.
  intros E (p & Hp & H). apply suggestion_eqb_fields in E.
  exists p. split; [|exact H]. destruct E as (_ & _ & _ & _ & _ & <-).
  exact Hp.
Qed.

Lemma initial_ctx_accounted (tolerance : Q) (suggestions : list Suggestion.t) :
  accounted suggestions (initial_ctx tolerance suggestions).
Proof.
  split; [|split]; simpl; [|intros s []|intros b []].
  intros s Hs. left. rewrite mem_app.
  destruct (mem s (mandatory_of tolerance suggestions)) eqn:E;
    [reflexivity|].
  simpl. apply mem_In. unfold optional_of. apply filter_In.
  split; [exact Hs|]. now rewrite E.
Qed.

(** What the invariant says about the result. *)
Lemma final_result_accounted (gaps : list Gap.t) (tolerance : Q)
    (suggestions : list Suggestion.t) (ctx : Ctx) (u : Suggestion.t) :
  accounted suggestions ctx -> In u suggestions -> unsupported u ->
  let r := final_result gaps tolerance ctx in
  mem u (ScheduleResult.dropped_suggestions r) = true /\
  mem u (ScheduleResult.ordered_suggestions r) = false /\
  forall b, In b (ScheduleResult.scheduled_blocks r) ->
    exists s, In s suggestions /\ ~ unsupported s /\ block_for s b.
Proof.
  intros (Hall & Hord & Hbl) Hu Huns. simpl.
  assert (Hno : mem u (ordered_total ctx) = false).
  { destruct (mem u (ordered_total ctx)) eqn:E; [|reflexivity].
    apply mem_spec in E as (y & Hy & E).
    destruct (Hord y Hy) as [_ Hsup]. exfalso. apply Hsup.
    eapply unsupported_eqb; eauto. }
  split; [|split; [exact Hno|]].
  - rewrite mem_app.
    destruct (mem u (dropped_total ctx)) eqn:Ed; [reflexivity|]. simpl.
    destruct (Hall u Hu) as [H|[H|H]]; [|congruence|congruence].
    apply mem_spec in H as (y & Hy & E). apply mem_spec. exists y.
    split; [|exact E]. apply filter_In. split; [exact Hy|].
    rewrite <- (mem_eqb u y) by exact E. now rewrite Ed.
  - intros b Hb. apply sort_by_In in Hb.
    destruct (Hbl b Hb) as (s & Hs & Hf). exists s.
    destruct (Hord s Hs). auto.
Qed.

(** C7: a suggestion of the input whose stored (normalized) location
    preference is non-empty and is not the near-home one is among the
    dropped suggestions of every result, is not among the placed ones,
    and every block of the result was made for a suggestion without such
    a preference: no block carries its identifier when it shares that
    identifier with no other suggestion.  Under a configuration in its
    domain the scheduler does return a result. *)
Theorem C7_unsupported_preference_never_placed (hypot : Q -> Q -> Q)
    (suggestions : list Suggestion.t) (gaps : list Gap.t)
    (max_distance : Q) (permutation_limit : Z)
    (tolerance resolution_minutes : Q) (u : Suggestion.t) :
  In u suggestions -> unsupported u ->
  ((0 <= permutation_limit)%Z -> ~ resolution_minutes == 0 ->
   exists r,
     schedule_suggestions hypot suggestions gaps max_distance
       permutation_limit tolerance resolution_minutes = Ok r) /\
  forall r,
    schedule_suggestions hypot suggestions gaps max_distance
      permutation_limit tolerance resolution_minutes = Ok r ->
    mem u (ScheduleResult.dropped_suggestions r) = true /\
    mem u (ScheduleResult.ordered_suggestions r) = false /\
    (forall b, In b (ScheduleResult.scheduled_blocks r) ->
       exists s, In s suggestions /\ ~ unsupported s /\ block_for s b) /\
    ((forall s, In s suggestions ->
        Suggestion.suggestion_id s = Suggestion.suggestion_id u -> s = u) ->
     forall b, In b (ScheduleResult.scheduled_blocks r) ->
       ScheduledBlock.suggestion_id b <> Suggestion.suggestion_id u).
Proof.
  intros Hu Huns. split; [apply schedule_suggestions_returns|].
  intros r E.
  pose proof (schedule_suggestions_sound hypot suggestions gaps max_distance
                permutation_limit tolerance resolution_minutes) as H.
  rewrite E in H. simpl in H.
  assert (Hmain :
            mem u (ScheduleResult.dropped_suggestions r) = true /\
            mem u (ScheduleResult.ordered_suggestions r) = false /\
            forall b, In b (ScheduleResult.scheduled_blocks r) ->
              exists s, In s suggestions /\ ~ unsupported s /\ block_for s b).
  { destruct H as [[unused ->]|(_ & ctx & _ & Hsteps & ->)].
    - simpl. split; [now apply mem_In|]. split; [reflexivity|]. intros b [].
    - apply final_result_accounted; [|exact Hu|exact Huns].
      eapply ctx_steps_invariant; [|exact Hsteps|apply initial_ctx_accounted].
      intros c c'. apply ctx_step_accounted. }
  destruct Hmain as (Hd & Ho & Hb). repeat split; auto.
  intros Huniq b Hin Hid.
  destruct (Hb b Hin) as (s & Hs & Hsup & Hf & _).
  apply Hsup. rewrite (Huniq s Hs); [exact Huns|congruence].
Qed.

Lemma C7_unsupported_preference_never_placed_witness :
  exists r,
    schedule_suggestions hypot_rat [test_midtown; test_plain] [test_gap_180]
      default_max_distance default_permutation_limit default_tolerance
      default_resolution_minutes = Ok r /\
    mem test_midtown (ScheduleResult.dropped_suggestions r) = true /\
    mem test_midtown (ScheduleResult.ordered_suggestions r) = false.
Proof.
  destruct (C7_unsupported_preference_never_placed hypot_rat
              [test_midtown; test_plain] [test_gap_180] default_max_distance
              default_permutation_limit default_tolerance
              default_resolution_minutes test_midtown) as [Hret Hall].
  - now left.
  - exists "midtown". repeat split; discriminate.
  - destruct Hret as [r E]; [discriminate|discriminate|].
    exists r. split; [exact E|].
    destruct (Hall r E) as (Hd & Ho & _). auto.
Defined.


(** ** Capacity conservation *)

Lemma dget_zero_usage (gaps : list Gap.t) (k : string) :
  dget (zero_usage gaps) k = 0.
Proof.
  unfold zero_usage, dget. induction gaps as [|g gaps IH]; simpl.
  - now rewrite lookup_empty.
  - destruct (decide (Gap.gap_id g = k)) as [->|Hne].
    + now rewrite lookup_insert_eq.
    + now rewrite lookup_insert_ne.
Qed.

Lemma dget_union (m1 m2 : gmap string Q) (k : string) :
  dget (m1 ∪ m2) k
  = match m1 !! k with
    | Some v => v
    | None => dget m2 k
    end.
Proof.
  unfold dget. destruct (m1 !! k) as [v|] eqn:E.
  - now rewrite (lookup_union_Some_l _ _ _ _ E).
  - now rewrite lookup_union_r.
Qed.

Lemma gap_id_inj (gaps : list Gap.t) (a b : Gap.t) :
  List.NoDup (map Gap.gap_id gaps) -> In a gaps -> In b gaps ->
  Gap.gap_id a = Gap.gap_id b -> a = b.
Proof.
  induction gaps as [|g gaps IH]; intros Hnd Ha Hb E; [destruct Ha|].
  simpl in Hnd. apply NoDup_cons_iff in Hnd as [Hnotin Hnd].
  destruct Ha as [->|Ha], Hb as [->|Hb]; auto.
  - exfalso. apply Hnotin. rewrite E. now apply in_map.
  - exfalso. apply Hnotin. rewrite <- E. now apply in_map.
Qed.

Section Capacity.

Variable hypot : Q -> Q -> Q.
Variable gaps : list Gap.t.
Variable gap_labels : gmap string (string * string).
Variable tolerance : Q.
Hypothesis gaps_nodup : List.NoDup (map Gap.gap_id gaps).
Hypothesis gaps_valid : Forall Gap.valid gaps.
Hypothesis tolerance_nonneg : 0 <= tolerance.

Lemma within_capacity_dadd (usage : gmap string Q) (gap : Gap.t) (v : Q) :
  In gap gaps -> within_capacity gaps tolerance usage ->
  dget usage (Gap.gap_id gap) + v <= Gap.duration gap + tolerance ->
  within_capacity gaps tolerance (dadd usage (Gap.gap_id gap) v).
Proof using gaps_nodup.
  intros Hin Hw Hv g Hg.
  destruct (decide (Gap.gap_id gap = Gap.gap_id g)) as [E|Hne].
  - rewrite (gap_id_inj gaps g gap gaps_nodup Hg Hin (eq_sym E)).
    now rewrite dget_dadd_eq.
  - rewrite dget_dadd_ne by exact Hne. now apply Hw.
Qed.

Lemma current_gap_In (f : Frame) (gap : Gap.t) :
  current_gap gaps f = Some gap -> In gap gaps.
Proof using Type.
  unfold current_gap. intros H. apply list_elem_of_In.
  now apply list_elem_of_lookup_2 in H.
Qed.

Lemma leave_gap_within (f : Frame) (gap : Gap.t)
    (exit_info : Q * Q * string * string) :
  within_capacity gaps tolerance (gap_usage f) ->
  can_leave hypot gaps gap_labels tolerance f gap exit_info ->
  within_capacity gaps tolerance
    (gap_usage (leave_gap tolerance f gap exit_info)).
Proof using gaps_nodup.
  intros Hw [Hg He]. unfold ensure_gap_exit_ok in He.
  destruct (travel_minutes_between _ _ _) as [d m].
  destruct (Qgtb m _) eqn:Hfit; [discriminate|].
  inversion He; subst exit_info. cbn [leave_gap gap_usage].
  destruct (Qgtb m tolerance); [|exact Hw].
  apply within_capacity_dadd; [now apply (current_gap_In f)|exact Hw|].
  qprop. lra.
Qed.

Lemma place_block_within (f : Frame) (gap : Gap.t) (s : Suggestion.t)
    (is_last : bool) :
  within_capacity gaps tolerance (gap_usage f) ->
  placeable hypot gaps gap_labels tolerance f gap s is_last ->
  within_capacity gaps tolerance
    (gap_usage
       (place_block (pay_travel hypot gap_labels tolerance f gap s) gap s)).
Proof using gaps_nodup.
  intros Hw [Hg Hroom Hpref Hfit Hdur]. cbn [place_block gap_usage].
  pose proof (current_gap_In _ _ Hg) as Hin.
  intros g Hgin.
  destruct (decide (Gap.gap_id gap = Gap.gap_id g)) as [E|Hne].
  - rewrite (gap_id_inj gaps g gap gaps_nodup Hgin Hin (eq_sym E)).
    rewrite dget_dadd_eq. lra.
  - rewrite dget_dadd_ne by exact Hne.
    rewrite pay_travel_usage. cbv zeta.
    destruct (Qgtb _ tolerance); [|now apply Hw].
    rewrite dget_dadd_ne by exact Hne. now apply Hw.
Qed.

Lemma zero_usage_within : within_capacity gaps tolerance (zero_usage gaps).
Proof using gaps_valid tolerance_nonneg.
  intros g Hg. rewrite dget_zero_usage.
  pose proof (proj1 (List.Forall_forall _ _) gaps_valid g Hg) as Hv.
  unfold Gap.valid in Hv. lra.
Qed.

Lemma initial_frame_within (initial_state : option AllocationState.t) :
  (forall s0, initial_state = Some s0 ->
     within_capacity gaps tolerance (AllocationState.gap_usage s0)) ->
  within_capacity gaps tolerance
    (gap_usage (initial_frame gaps initial_state)).
Proof using gaps_valid tolerance_nonneg.
  intros H. destruct initial_state as [s0|]; simpl;
    [|apply zero_usage_within].
  specialize (H s0 eq_refl). intros g Hg. rewrite dget_union.
  destruct (AllocationState.gap_usage s0 !! Gap.gap_id g) as [v|] eqn:E.
  - specialize (H g Hg). unfold dget in H. now rewrite E in H.
  - now apply zero_usage_within.
Qed.

(** A placement keeps every gap within its capacity. *)
Lemma assign_order_within (order : list Suggestion.t)
    (initial_state : option AllocationState.t)
    (blocks : list ScheduledBlock.t) (state' : AllocationState.t)
    (logs : list MovementLogEntry.t) :
  (forall s0, initial_state = Some s0 ->
     within_capacity gaps tolerance (AllocationState.gap_usage s0)) ->
  assign_order_to_gaps hypot gaps gap_labels tolerance order initial_state
  = Ok (Some (blocks, state', logs)) ->
  within_capacity gaps tolerance (AllocationState.gap_usage state').
Proof using gaps_nodup gaps_valid tolerance_nonneg.
  intros Hinit E.
  destruct (assign_order_to_gaps_sound hypot gaps gap_labels tolerance
              order initial_state) as (result & E' & H).
  rewrite E in E'. inversion E'; subst result. clear E'.
  destruct H as [(_ & _ & _ & ->)|(Hne & f & f' & Hall & Hcl & _ & -> & _)].
  { destruct initial_state as [s0|]; simpl; [now apply Hinit|].
    apply zero_usage_within. }
  assert (Hf : within_capacity gaps tolerance (gap_usage f)).
  { eapply (allocates_all_invariant hypot gaps gap_labels tolerance
              (fun f => within_capacity gaps tolerance (gap_usage f)));
      [| |exact Hall|now apply initial_frame_within].
    - intros. now apply leave_gap_within.
    - intros. eapply place_block_within; eauto. }
  destruct Hcl as [f Hg|f gap ei Hcan]; [exact Hf|].
  now apply leave_gap_within.
Qed.

End Capacity.


Lemma Qsum_app (l1 l2 : list Q) : Qsum (l1 ++ l2) == Qsum l1 + Qsum l2.
Proof.
  induction l1 as [|x l1 IH]; simpl; [lra|]. rewrite IH. lra.
Qed.

Lemma block_minutes_app (k : string) (l1 l2 : list ScheduledBlock.t) :
  block_minutes k (l1 ++ l2) == block_minutes k l1 + block_minutes k l2.
Proof.
  unfold block_minutes. rewrite List.filter_app, map_app. apply Qsum_app.
Qed.

Lemma block_minutes_perm (k : string) (l1 l2 : list ScheduledBlock.t) :
  Permutation l1 l2 -> block_minutes k l1 == block_minutes k l2.
Proof.
  unfold block_minutes.
  induction 1 as [|x l1 l2 _ IH|x y l|l1 l2 l3 _ IH1 _ IH2]; simpl.
  - reflexivity.
  - destruct (String.eqb _ k); simpl; rewrite IH; reflexivity.
  - destruct (String.eqb (ScheduledBlock.gap_id x) k),
      (String.eqb (ScheduledBlock.gap_id y) k); simpl; lra.
  - rewrite IH1. exact IH2.
Qed.

Lemma block_minutes_snoc (k : string) (l : list ScheduledBlock.t)
    (b : ScheduledBlock.t) :
  block_minutes k (l ++ [b])
  == block_minutes k l
     + (if String.eqb (ScheduledBlock.gap_id b) k
        then ScheduledBlock.duration b else 0).
Proof.
  rewrite block_minutes_app. unfold block_minutes at 2. simpl.
  destruct (String.eqb _ k); simpl; lra.
Qed.

Section BlockAccounting.

Variable hypot : Q -> Q -> Q.
Variable gaps : list Gap.t.
Variable gap_labels : gmap string (string * string).
Variable tolerance : Q.
Hypothesis tolerance_nonneg : 0 <= tolerance.

Lemma dget_dadd_ge (usage : gmap string Q) (k k' : string) (v : Q) :
  0 <= v -> dget usage k' <= dget (dadd usage k v) k'.
Proof using Type.
  intros Hv. destruct (decide (k = k')) as [->|Hne].
  - rewrite dget_dadd_eq. lra.
  - rewrite dget_dadd_ne by exact Hne. lra.
Qed.

Lemma leave_gap_covers (base : string -> Q) (f : Frame) (gap : Gap.t)
    (exit_info : Q * Q * string * string) :
  covers base (schedule f) (gap_usage f) ->
  covers base (schedule (leave_gap tolerance f gap exit_info))
         (gap_usage (leave_gap tolerance f gap exit_info)).
Proof using tolerance_nonneg.
  intros Hc k. destruct exit_info as [[[d m] fl] tl].
  cbn [leave_gap schedule gap_usage]. specialize (Hc k).
  destruct (Qgtb m tolerance) eqn:E; [|exact Hc].
  qprop. pose proof (dget_dadd_ge (gap_usage f) (Gap.gap_id gap) k m).
  lra.
Qed.

Lemma place_block_covers (base : string -> Q) (f : Frame) (gap : Gap.t)
    (s : Suggestion.t) :
  covers base (schedule f) (gap_usage f) ->
  covers base
    (schedule
       (place_block (pay_travel hypot gap_labels tolerance f gap s) gap s))
    (gap_usage
       (place_block (pay_travel hypot gap_labels tolerance f gap s) gap s)).
Proof using tolerance_nonneg.
  intros Hc k. cbn [place_block schedule gap_usage].
  rewrite pay_travel_schedule, block_minutes_snoc.
  cbn [block_of ScheduledBlock.gap_id ScheduledBlock.duration].
  assert (Hpay : dget (gap_usage f) k
                 <= dget (gap_usage
                            (pay_travel hypot gap_labels tolerance f gap s))
                         k).
  { rewrite pay_travel_usage. cbv zeta.
    destruct (Qgtb _ tolerance) eqn:E; [|lra].
    apply dget_dadd_ge. qprop. lra. }
  specialize (Hc k).
  destruct (String.eqb_spec (Gap.gap_id gap) k) as [->|Hne].
  - rewrite dget_dadd_eq. lra.
  - rewrite dget_dadd_ne by exact Hne. lra.
Qed.

(** The usage after a placement accounts for the usage before it and
    for the new blocks. *)
Lemma assign_order_covers (order : list Suggestion.t)
    (initial_state : option AllocationState.t)
    (blocks : list ScheduledBlock.t) (state' : AllocationState.t)
    (logs : list MovementLogEntry.t) :
  assign_order_to_gaps hypot gaps gap_labels tolerance order initial_state
  = Ok (Some (blocks, state', logs)) ->
  covers (fun k =>
            match initial_state with
            | Some s0 => dget (AllocationState.gap_usage s0) k
            | None => 0
            end)
         blocks (AllocationState.gap_usage state').
Proof using tolerance_nonneg.
  intros E.
  destruct (assign_order_to_gaps_sound hypot gaps gap_labels tolerance
              order initial_state) as (result & E' & H).
  rewrite E in E'. inversion E'; subst result. clear E'.
  destruct H as [(_ & -> & _ & ->)|(Hne & f & f' & Hall & Hcl & -> & -> & _)].
  { intros k. unfold block_minutes. simpl.
    destruct initial_state as [s0|]; simpl; [lra|].
    rewrite dget_zero_usage. lra. }
  set (base := fun k => match initial_state with
                        | Some s0 => dget (AllocationState.gap_usage s0) k
                        | None => 0
                        end).
  assert (Hf : covers base (schedule f) (gap_usage f)).
  { eapply (allocates_all_invariant hypot gaps gap_labels tolerance
              (fun f => covers base (schedule f) (gap_usage f)));
      [| |exact Hall|].
    - intros. now apply leave_gap_covers.
    - intros. now apply place_block_covers.
    - intros k. unfold base, block_minutes.
      destruct initial_state as [s0|]; simpl.
      + rewrite dget_union.
        destruct (AllocationState.gap_usage s0 !! k) as [v|] eqn:Ek.
        * unfold dget. rewrite Ek. simpl. lra.
        * unfold dget at 1. rewrite Ek, dget_zero_usage. simpl. lra.
      + rewrite dget_zero_usage. lra. }
  destruct Hcl as [f Hg|f gap ei Hcan]; [exact Hf|].
  now apply leave_gap_covers.
Qed.

End BlockAccounting.

Section CtxCapacity.

Variable hypot : Q -> Q -> Q.
Variable gaps : list Gap.t.
Variable gap_labels : gmap string (string * string).
Variable tolerance : Q.
Variable pool : list Suggestion.t.
Hypothesis gaps_nodup : List.NoDup (map Gap.gap_id gaps).
Hypothesis gaps_valid : Forall Gap.valid gaps.
Hypothesis tolerance_nonneg : 0 <= tolerance.

Lemma ctx_step_capacity (c c' : Ctx) :
  ctx_step hypot gaps gap_labels tolerance pool c c' ->
  (forall st, state c = Some st ->
     within_capacity gaps tolerance (AllocationState.gap_usage st)) /\
  (forall k, block_minutes k (scheduled_blocks_total c) <= ctx_usage c k) ->
  (forall st, state c' = Some st ->
     within_capacity gaps tolerance (AllocationState.gap_usage st)) /\
  (forall k, block_minutes k (scheduled_blocks_total c') <= ctx_usage c' k).
Proof using gaps_nodup gaps_valid tolerance_nonneg.
  intros Hstep [Hw Hc].
  destruct Hstep as [c x Hx|c order tc n blocks st' logs Hne Hin Has];
    [split; assumption|].
  split.
  - intros st E. cbn [commit state] in E. inversion E; subst st.
    eapply assign_order_within; eauto.
  - intros k. unfold ctx_usage. cbn [commit state scheduled_blocks_total].
    rewrite block_minutes_app.
    pose proof (assign_order_covers hypot gaps gap_labels tolerance
                  tolerance_nonneg _ _ _ _ _ Has k) as Hcov.
    specialize (Hc k). unfold ctx_usage in Hc.
    destruct (state c) as [s0|]; simpl in Hcov; lra.
Qed.

End CtxCapacity.

(** C5, as amended: with distinct gap identifiers, valid gaps and a non-negative
    tolerance, a call of [assign_order_to_gaps] that returns a placement
    from an initial state within capacity leaves, for every gap, the
    minutes recorded against it (durations placed and travel legs
    inserted, on top of the usage carried over) at most the gap's duration
    plus the tolerance; hence so is the state at the end of
    [schedule_suggestions], and in its result the blocks of each gap sum
    to at most the gap's duration plus the tolerance. *)
Theorem C5_capacity_conservation (hypot : Q -> Q -> Q) (gaps : list Gap.t)
    (tolerance : Q) :
  List.NoDup (map Gap.gap_id gaps) -> Forall Gap.valid gaps ->
  0 <= tolerance ->
  (forall gap_labels ordered initial_state blocks state' logs,
     (forall s0, initial_state = Some s0 ->
        within_capacity gaps tolerance (AllocationState.gap_usage s0)) ->
     assign_order_to_gaps hypot gaps gap_labels tolerance ordered
       initial_state = Ok (Some (blocks, state', logs)) ->
     within_capacity gaps tolerance (AllocationState.gap_usage state')) /\
  (forall suggestions max_distance permutation_limit resolution_minutes,
     (forall ctx st,
        run_phases hypot suggestions gaps max_distance permutation_limit
          tolerance resolution_minutes = Ok (Some ctx) ->
        state ctx = Some st ->
        within_capacity gaps tolerance (AllocationState.gap_usage st)) /\
     (forall r gap,
        schedule_suggestions hypot suggestions gaps max_distance
          permutation_limit tolerance resolution_minutes = Ok r ->
        In gap gaps ->
        block_minutes (Gap.gap_id gap) (ScheduleResult.scheduled_blocks r)
        <= Gap.duration gap + tolerance)).
Proof.
  intros Hnd Hvalid Htol. split.
  { intros gl ordered init blocks st' logs Hinit E.
    eapply assign_order_within; eauto. }
  intros suggestions md pl res.
  assert (Hinv : forall ctx,
            ctx_steps hypot gaps (resolve_gap_labels gaps) tolerance
              suggestions (initial_ctx tolerance suggestions) ctx ->
            (forall st, state ctx = Some st ->
               within_capacity gaps tolerance (AllocationState.gap_usage st))
            /\ (forall k, block_minutes k (scheduled_blocks_total ctx)
                          <= ctx_usage ctx k)).
  { intros ctx Hsteps.
    eapply (ctx_steps_invariant hypot gaps (resolve_gap_labels gaps)
              tolerance suggestions
              (fun c =>
                 (forall st, state c = Some st ->
                    within_capacity gaps tolerance
                      (AllocationState.gap_usage st)) /\
                 (forall k, block_minutes k (scheduled_blocks_total c)
                            <= ctx_usage c k)));
      [|exact Hsteps|].
    - intros c c'. now apply ctx_step_capacity.
    - split; [discriminate|]. intros k. unfold block_minutes, ctx_usage.
      simpl. lra. }
  split.
  - intros ctx st E Est.
    pose proof (run_phases_sound hypot suggestions gaps md pl tolerance res)
      as H. rewrite E in H. simpl in H.
    destruct (Hinv ctx H) as [Hw _]. now apply Hw.
  - intros r gap E Hgap.
    pose proof (schedule_suggestions_sound hypot suggestions gaps md pl
                  tolerance res) as H. rewrite E in H. simpl in H.
    pose proof (proj1 (List.Forall_forall _ _) Hvalid gap Hgap) as Hv.
    unfold Gap.valid in Hv.
    destruct H as [[unused ->]|(_ & ctx & _ & Hsteps & ->)].
    + unfold block_minutes. simpl. lra.
    + destruct (Hinv ctx Hsteps) as [Hw Hc].
      cbn [final_result ScheduleResult.scheduled_blocks].
      rewrite (block_minutes_perm _ _ _ (sort_by_perm block_key_lt _)).
      specialize (Hc (Gap.gap_id gap)). unfold ctx_usage in Hc.
      destruct (state ctx) as [st|] eqn:Est.
      * specialize (Hw st eq_refl gap Hgap). lra.
      * lra.
Qed.

(** Usage is recorded per identifier: when two gaps carry the same
    identifier, the minutes placed in the first, longer one are recorded
    against the second as well and exceed its duration by more than the
    tolerance, in the state that [assign_order_to_gaps] returns and in the
    blocks of the result of [schedule_suggestions]. *)
Lemma C5_counterexample :
  In twin_gap_10 [twin_gap_100; twin_gap_10] /\
  (exists blocks state' logs,
     assign_order_to_gaps hypot_rat [twin_gap_100; twin_gap_10]
       (resolve_gap_labels [twin_gap_100; twin_gap_10]) default_tolerance
       [fifty] None = Ok (Some (blocks, state', logs)) /\
     Gap.duration twin_gap_10 + default_tolerance
     < dget (AllocationState.gap_usage state') (Gap.gap_id twin_gap_10)) /\
  exists r,
    schedule_suggestions hypot_rat [fifty] [twin_gap_100; twin_gap_10]
      default_max_distance default_permutation_limit default_tolerance
      default_resolution_minutes = Ok r /\
    Gap.duration twin_gap_10 + default_tolerance
    < block_minutes (Gap.gap_id twin_gap_10)
        (ScheduleResult.scheduled_blocks r).
Proof.
  split; [right; left; reflexivity|]. split.
  - eexists _, _, _. split; [vm_compute; reflexivity|].
    vm_compute. reflexivity.
  - eexists. split; [vm_compute; reflexivity|]. vm_compute. reflexivity.
Qed.


(** ** Near-home placement *)

Section NearHome.

Variable hypot : Q -> Q -> Q.
Variable gaps : list Gap.t.
Variable gap_labels : gmap string (string * string).
Variable tolerance : Q.
Variable pool : list Suggestion.t.

Abbreviation ok_block := (block_placed_ok hypot gaps tolerance pool).

(** A non-mandatory near-home suggestion passes the preference check
    only at the start of the first gap or in the last gap. *)
Lemma preference_blocks_near_home (f : Frame) (gap : Gap.t)
    (cursor : Coordinate) (remaining : Q) (s : Suggestion.t)
    (is_last : bool) :
  near_home s -> is_mandatory tolerance s = false ->
  preference_blocks hypot gaps gap_labels tolerance f gap cursor remaining
    s is_last = false ->
  (gap_index f = 0%nat /\ current_cursor f = None) \/
  S (gap_index f) = length gaps.
Proof using Type.
  intros Hnh Hnm. unfold preference_blocks. rewrite Hnh, Hnm.
  cbn [truthy opt_string_eqb negb].
  replace ("near_home" =? "")%string with false by reflexivity.
  replace ("near_home" =? "near_home")%string with true by reflexivity.
  cbn [negb].
  destruct (default ("", "") (gap_labels !! Gap.gap_id gap)) as [sl el].
  intros H. apply negb_false_iff, orb_true_iff in H.
  destruct H as [H|H].
  - left.
    destruct ((gap_index f =? 0)%nat
              && negb (bool_decide (is_Some (current_cursor f)))
              && (sl =? HOME_LABEL)%string) eqn:E; [|discriminate].
    apply andb_true_iff in E as [E _]. apply andb_true_iff in E as [E1 E2].
    apply Nat.eqb_eq in E1. split; [exact E1|].
    destruct (current_cursor f); [discriminate|reflexivity].
  - right.
    destruct ((S (gap_index f) =? length gaps)%nat
              && (el =? HOME_LABEL)%string) eqn:E; [|discriminate].
    apply andb_true_iff in E as [E _]. now apply Nat.eqb_eq in E.
Qed.

Lemma place_block_ok (f : Frame) (gap : Gap.t) (s : Suggestion.t)
    (is_last : bool) :
  In s pool ->
  untouched (gap_index f) (current_cursor f) (gap_usage f) ->
  placeable hypot gaps gap_labels tolerance f gap s is_last ->
  ok_block (block_of (pay_travel hypot gap_labels tolerance f gap s) gap s).
Proof using Type.
  intros Hs Hun [Hg Hroom Hpref Hfit Hdur].
  exists s. split; [exact Hs|]. split; [repeat split|].
  intros Hnh Hnm.
  destruct (preference_blocks_near_home _ _ _ _ _ _ Hnh Hnm Hpref)
    as [[Hidx Hcur]|Hlast].
  - left. exists gap. unfold current_gap in Hg. rewrite Hidx in Hg.
    split; [exact Hg|]. split; [reflexivity|].
    cbn [block_of ScheduledBlock.start_offset ScheduledBlock.location].
    rewrite pay_travel_usage. cbv zeta. unfold entry_offset.
    rewrite Hcur. cbn [default].
    specialize (Hun Hidx Hcur (Gap.gap_id gap)).
    destruct (Qgtb _ tolerance); [|exact Hun].
    rewrite dget_dadd_eq, Hun. lra.
  - right. exists gap. split; [|reflexivity].
    rewrite last_lookup. unfold current_gap in Hg.
    replace (pred (length gaps)) with (gap_index f) by lia. exact Hg.
Qed.

(** A placement from an untouched state makes blocks that are at a home
    boundary when they must be, and returns an untouched state. *)
Lemma assign_order_ok (order : list Suggestion.t)
    (initial_state : option AllocationState.t)
    (blocks : list ScheduledBlock.t) (state' : AllocationState.t)
    (logs : list MovementLogEntry.t) :
  (forall s, In s order -> In s pool) ->
  (forall s0, initial_state = Some s0 ->
     untouched (AllocationState.gap_index s0)
       (AllocationState.current_cursor s0) (AllocationState.gap_usage s0)) ->
  assign_order_to_gaps hypot gaps gap_labels tolerance order initial_state
  = Ok (Some (blocks, state', logs)) ->
  Forall ok_block blocks /\
  untouched (AllocationState.gap_index state')
    (AllocationState.current_cursor state')
    (AllocationState.gap_usage state').
Proof using Type.
  intros Hpool Hinit E.
  destruct (assign_order_to_gaps_sound hypot gaps gap_labels tolerance
              order initial_state) as (result & E' & H).
  rewrite E in E'. inversion E'; subst result. clear E'.
  assert (Hzero : untouched 0 None (zero_usage gaps)).
  { intros _ _ k. now rewrite dget_zero_usage. }
  destruct H as [(_ & -> & _ & ->)|(Hne & f & f' & Hall & Hcl & -> & -> & _)].
  { split; [constructor|].
    destruct initial_state as [s0|]; simpl; [now apply Hinit|exact Hzero]. }
  set (I := fun f : Frame =>
              untouched (gap_index f) (current_cursor f) (gap_usage f) /\
              Forall ok_block (schedule f)).
  assert (Hleave : forall f gap ei, I f -> I (leave_gap tolerance f gap ei)).
  { intros f0 gap ei [_ Hb]. split.
    - intros Hidx. rewrite leave_gap_index in Hidx. discriminate.
    - now rewrite leave_gap_schedule. }
  assert (Hf : I f).
  { eapply (allocates_all_invariant hypot gaps gap_labels tolerance I);
      [| |exact Hall|].
    - intros. now apply Hleave.
    - intros s is_last f0 gap Hs [Hun Hb] Hp. split.
      + intros _ Hcur. discriminate.
      + cbn [place_block schedule]. rewrite pay_travel_schedule.
        apply Forall_app. split; [exact Hb|].
        constructor; [|constructor].
        eapply place_block_ok; eauto.
    - split; [|destruct initial_state; constructor].
      destruct initial_state as [s0|]; simpl; [|exact Hzero].
      intros Hidx Hcur k. rewrite dget_union.
      pose proof (Hinit s0 eq_refl Hidx Hcur k) as Hk.
      destruct (AllocationState.gap_usage s0 !! k) as [v|] eqn:Ek.
      * unfold dget in Hk. now rewrite Ek in Hk.
      * now rewrite dget_zero_usage. }
  assert (Hf' : I f').
  { destruct Hcl as [f Hg|f gap ei Hcan]; [exact Hf|now apply Hleave]. }
  destruct Hf' as [Hun Hb]. split; [exact Hb|exact Hun].
Qed.

Lemma ctx_step_ok (c c' : Ctx) :
  ctx_step hypot gaps gap_labels tolerance pool c c' ->
  (forall st, state c = Some st ->
     untouched (AllocationState.gap_index st)
       (AllocationState.current_cursor st) (AllocationState.gap_usage st)) /\
  Forall ok_block (scheduled_blocks_total c) ->
  (forall st, state c' = Some st ->
     untouched (AllocationState.gap_index st)
       (AllocationState.current_cursor st) (AllocationState.gap_usage st)) /\
  Forall ok_block (scheduled_blocks_total c').
Proof using Type.
  intros Hstep [Hun Hb].
  destruct Hstep as [c x Hx|c order tc n blocks st' logs Hne Hin Has];
    [split; assumption|].
  destruct (assign_order_ok _ _ _ _ _ Hin Hun Has) as [Hb' Hun'].
  split.
  - intros st E. cbn [commit state] in E. now inversion E; subst.
  - cbn [commit scheduled_blocks_total]. apply Forall_app. auto.
Qed.

End NearHome.

(** Every block of a result was made for a suggestion of the input, and
    a block made for a non-mandatory near-home one is the first thing in
    the first gap or lies in the last gap. *)
Lemma schedule_suggestions_blocks_ok (hypot : Q -> Q -> Q)
    (suggestions : list Suggestion.t) (gaps : list Gap.t)
    (max_distance : Q) (permutation_limit : Z)
    (tolerance resolution_minutes : Q) (r : ScheduleResult.t) :
  schedule_suggestions hypot suggestions gaps max_distance permutation_limit
    tolerance resolution_minutes = Ok r ->
  Forall (block_placed_ok hypot gaps tolerance suggestions)
         (ScheduleResult.scheduled_blocks r).
Proof.
  intros E.
  pose proof (schedule_suggestions_sound hypot suggestions gaps max_distance
                permutation_limit tolerance resolution_minutes) as H.
  rewrite E in H. simpl in H.
  destruct H as [[unused ->]|(_ & ctx & _ & Hsteps & ->)]; [constructor|].
  cbn [final_result ScheduleResult.scheduled_blocks].
  eapply Permutation_Forall; [apply Permutation_sym, sort_by_perm|].
  eapply (ctx_steps_invariant hypot gaps (resolve_gap_labels gaps)
            tolerance suggestions
            (fun c =>
               (forall st, state c = Some st ->
                  untouched (AllocationState.gap_index st)
                    (AllocationState.current_cursor st)
                    (AllocationState.gap_usage st)) /\
               Forall (block_placed_ok hypot gaps tolerance suggestions)
                      (scheduled_blocks_total c)));
    [|exact Hsteps|].
  - intros c c'. now apply ctx_step_ok.
  - split; [discriminate|constructor].
Qed.

Lemma suggestion_id_inj (suggestions : list Suggestion.t)
    (a b : Suggestion.t) :
  List.NoDup (map Suggestion.suggestion_id suggestions) ->
  In a suggestions -> In b suggestions ->
  Suggestion.suggestion_id a = Suggestion.suggestion_id b -> a = b.
Proof.
  induction suggestions as [|s l IH]; intros Hnd Ha Hb E; [destruct Ha|].
  simpl in Hnd. apply NoDup_cons_iff in Hnd as [Hnotin Hnd].
  destruct Ha as [->|Ha], Hb as [->|Hb]; auto.
  - exfalso. apply Hnotin. rewrite E. now apply in_map.
  - exfalso. apply Hnotin. rewrite <- E. now apply in_map.
Qed.

(** C6, as amended: in every result, a block that belongs to a
    non-mandatory suggestion with the near-home preference (suggestion
    identifiers being distinct) is the first thing placed in the first
    gap, preceded at most by the travel from the gap's start, or lies in
    the last gap, anywhere in it. *)
Theorem C6_near_home_first_start_or_last_gap (hypot : Q -> Q -> Q)
    (suggestions : list Suggestion.t) (gaps : list Gap.t)
    (max_distance : Q) (permutation_limit : Z)
    (tolerance resolution_minutes : Q) (r : ScheduleResult.t) :
  List.NoDup (map Suggestion.suggestion_id suggestions) ->
  schedule_suggestions hypot suggestions gaps max_distance permutation_limit
    tolerance resolution_minutes = Ok r ->
  forall b s,
    In b (ScheduleResult.scheduled_blocks r) ->
    In s suggestions ->
    ScheduledBlock.suggestion_id b = Suggestion.suggestion_id s ->
    near_home s -> is_mandatory tolerance s = false ->
    at_first_gap_start hypot gaps tolerance b \/ in_last_gap gaps b.
Proof.
  intros Hnd E b s Hb Hs Hid Hnh Hnm.
  pose proof (schedule_suggestions_blocks_ok _ _ _ _ _ _ _ _ E) as Hall.
  pose proof (proj1 (List.Forall_forall _ _) Hall b Hb)
    as (s' & Hs' & (Hid' & _) & Himp).
  assert (s' = s) as ->.
  { apply (suggestion_id_inj suggestions); auto. congruence. }
  now apply Himp.
Qed.

Lemma C6_near_home_first_start_or_last_gap_witness :
  exists r,
    schedule_suggestions hypot_rat [home_S1; home_S2] [short_gap; long_gap]
      default_max_distance default_permutation_limit default_tolerance
      default_resolution_minutes = Ok r /\
    (at_first_gap_start hypot_rat [short_gap; long_gap] default_tolerance
       (ScheduledBlock.mk "S1" "g2" 0 10 (0, 0)) \/
     in_last_gap [short_gap; long_gap]
       (ScheduledBlock.mk "S1" "g2" 0 10 (0, 0))).
Proof.
  assert (Hnd : List.NoDup
                  (map Suggestion.suggestion_id [home_S1; home_S2])).
  { repeat constructor; simpl; intuition discriminate. }
  assert (Hr : exists r,
             schedule_suggestions hypot_rat [home_S1; home_S2]
               [short_gap; long_gap] default_max_distance
               default_permutation_limit default_tolerance
               default_resolution_minutes = Ok r /\
             In (ScheduledBlock.mk "S1" "g2" 0 10 (0, 0))
                (ScheduleResult.scheduled_blocks r)).
  { eexists. split; [vm_compute; reflexivity|]. now left. }
  destruct Hr as (r & E & Hin). exists r. split; [exact E|].
  apply (C6_near_home_first_start_or_last_gap hypot_rat [home_S1; home_S2]
           [short_gap; long_gap] default_max_distance
           default_permutation_limit default_tolerance
           default_resolution_minutes r Hnd E
           (ScheduledBlock.mk "S1" "g2" 0 10 (0, 0)) home_S1 Hin).
  - now left.
  - reflexivity.
  - reflexivity.
  - reflexivity.
Defined.

(** In that result the block of [S1], a non-mandatory near-home
    suggestion, is not in the first gap, does not end the last gap, and
    is followed there by the block of [S2]. *)
Lemma C6_counterexample :
  exists r b,
    schedule_suggestions hypot_rat [home_S1; home_S2] [short_gap; long_gap]
      default_max_distance default_permutation_limit default_tolerance
      default_resolution_minutes = Ok r /\
    ScheduleResult.scheduled_blocks r
    = [b; ScheduledBlock.mk "S2" "g2" 10 10 (0, 0)] /\
    block_for home_S1 b /\ near_home home_S1 /\
    is_mandatory default_tolerance home_S1 = false /\
    ~ at_first_gap_start hypot_rat [short_gap; long_gap] default_tolerance b /\
    ~ at_last_gap_end hypot_rat [short_gap; long_gap] b.
Proof.
  eexists. exists (ScheduledBlock.mk "S1" "g2" 0 10 (0, 0)).
  split; [vm_compute; reflexivity|]. split; [reflexivity|].
  split; [repeat split|]. split; [reflexivity|]. split; [reflexivity|].
  split.
  - intros (g & Hg & Hid & _). inversion Hg; subst g. discriminate.
  - intros (g & Hg & _ & Hle). inversion Hg; subst g. vm_compute in Hle.
    now apply Hle.
Qed.


(** ** Mandatory inclusion *)

Section PlacesInFirstGap.

Variable hypot : Q -> Q -> Q.
Variable g0 : Gap.t.
Variable rest : list Gap.t.
Variable gap_labels : gmap string (string * string).
Variable tolerance : Q.
Variable L : Coordinate.

Hypothesis tolerance_nonneg : 0 <= tolerance.
Hypothesis stay : leg hypot L L == 0.
Hypothesis travel_in_nonneg : 0 <= leg hypot (Gap.start_location g0) L.
Hypothesis travel_out_nonneg : 0 <= leg hypot L (Gap.end_location g0).

Abbreviation gaps0 := (g0 :: rest).

(** When the guards hold the loop places the suggestion at once. *)
Lemma allocate_loop_places (gaps : list Gap.t) (fuel : nat)
    (s : Suggestion.t) (is_last : bool) (f : Frame) (gap : Gap.t) :
  placeable hypot gaps gap_labels tolerance f gap s is_last ->
  allocate_loop hypot gaps gap_labels tolerance (S fuel) s is_last f
  = Ok (place_block (pay_travel hypot gap_labels tolerance f gap s) gap s,
        true).
Proof using Type.
  intros [Hg Hroom Hpref Hfit Hdur].
  rewrite allocate_loop_unfold, Hg. cbv zeta.
  apply Qleb_false in Hroom. rewrite Hroom, Hpref.
  apply Qgtb_false in Hfit. rewrite Hfit.
  rewrite pay_travel_usage in Hdur. cbv zeta in Hdur.
  destruct (Qgtb (snd (travel_minutes_between hypot _ _)) tolerance)
    eqn:Hmoved.
  - rewrite dget_dadd_eq in Hdur.
    destruct (Qgtb (Suggestion.duration s) _) eqn:E; [|reflexivity].
    qprop. lra.
  - destruct (Qgtb (Suggestion.duration s) _) eqn:E; [|reflexivity].
    qprop. lra.
Qed.

Lemma supported_mandatory_passes (gaps : list Gap.t) (f : Frame)
    (gap : Gap.t) (cursor : Coordinate) (remaining : Q) (s : Suggestion.t)
    (is_last : bool) :
  is_mandatory tolerance s = true -> ~ unsupported s ->
  preference_blocks hypot gaps gap_labels tolerance f gap cursor remaining
    s is_last = false.
Proof using Type.
  intros Hm Hsup. unfold preference_blocks.
  destruct (Suggestion.location_preference s) as [p|] eqn:Hp;
    cbn [truthy]; [|reflexivity].
  destruct (String.eqb_spec p "") as [->|Hne]; [reflexivity|]. cbn [negb].
  cbn [opt_string_eqb].
  destruct (String.eqb_spec p "near_home") as [->|Hnh].
  - cbn [negb]. destruct (default _ _) as [sl el]. now rewrite Hm.
  - exfalso. apply Hsup. exists p. auto.
Qed.

Lemma Qsum_durations_nonneg (todo : list Suggestion.t) :
  (forall s, In s todo -> fits_at tolerance L s) ->
  0 <= Qsum (map Suggestion.duration todo).
Proof using tolerance_nonneg.
  induction todo as [|s todo IH]; intros H; simpl; [lra|].
  destruct (H s (or_introl eq_refl)) as (_ & _ & _ & Hd).
  assert (0 <= Qsum (map Suggestion.duration todo)).
  { apply IH. intros x Hx. apply H. now right. }
  lra.
Qed.

Lemma ready_placeable (f : Frame) (s : Suggestion.t)
    (todo : list Suggestion.t) (is_last : bool) :
  ready hypot g0 L f (s :: todo) ->
  (forall x, In x (s :: todo) -> fits_at tolerance L x) ->
  placeable hypot gaps0 gap_labels tolerance f g0 s is_last /\
  ready hypot g0 L
    (place_block (pay_travel hypot gap_labels tolerance f g0 s) g0 s) todo.
Proof using tolerance_nonneg stay travel_in_nonneg travel_out_nonneg.
  intros (Hidx & Hcur & Hbudget) Hfits.
  destruct (Hfits s (or_introl eq_refl)) as (Hm & Hloc & Hsup & Hd).
  assert (Htodo : 0 <= Qsum (map Suggestion.duration todo)).
  { apply Qsum_durations_nonneg. intros x Hx. apply Hfits. now right. }
  simpl in Hbudget.
  set (used := dget (gap_usage f) (Gap.gap_id g0)) in *.
  set (travel_in :=
         snd (travel_minutes_between hypot
                (default (Gap.start_location g0) (current_cursor f))
                (Suggestion.location s))).
  assert (Hti : 0 <= travel_in /\
                used + travel_in + Suggestion.duration s
                + Qsum (map Suggestion.duration todo)
                + leg hypot L (Gap.end_location g0) <= Gap.duration g0).
  { unfold travel_in. rewrite Hloc.
    destruct Hcur as [Hc|Hc]; rewrite Hc in *; cbn [default].
    - fold (leg hypot (Gap.start_location g0) L). split; lra.
    - fold (leg hypot L L). rewrite stay. split; lra. }
  destruct Hti as [Hti Hb].
  assert (Hpay : dget (gap_usage
                         (pay_travel hypot gap_labels tolerance f g0 s))
                      (Gap.gap_id g0) <= used + travel_in).
  { rewrite pay_travel_usage. cbv zeta. fold travel_in.
    destruct (Qgtb travel_in tolerance).
    - rewrite dget_dadd_eq. fold used. lra.
    - fold used. lra. }
  split.
  - constructor.
    + unfold current_gap. now rewrite Hidx.
    + fold used. lra.
    + now apply supported_mandatory_passes.
    + fold travel_in used. lra.
    + lra.
  - split; [|split].
    + cbn [place_block gap_index]. now rewrite pay_travel_index.
    + right. cbn [place_block current_cursor]. now rewrite Hloc.
    + cbn [place_block current_cursor gap_usage].
      rewrite dget_dadd_eq. lra.
Qed.

(** From a ready frame the whole ordering is placed in the first gap,
    one block per suggestion. *)
Lemma allocate_all_places (todo : list Suggestion.t) :
  forall f,
    ready hypot g0 L f todo ->
    (forall x, In x todo -> fits_at tolerance L x) ->
    exists f' blocks,
      allocate_all hypot gaps0 gap_labels tolerance todo f = Ok (f', true) /\
      ready hypot g0 L f' [] /\
      (todo <> [] \/ current_cursor f = Some L ->
       current_cursor f' = Some L) /\
      schedule f' = schedule f ++ blocks /\
      Forall2 (block_in g0) todo blocks.
Proof using tolerance_nonneg stay travel_in_nonneg travel_out_nonneg.
  induction todo as [|s todo IH]; intros f Hready Hfits.
  - exists f, []. rewrite app_nil_r.
    split; [reflexivity|]. split; [exact Hready|].
    split; [intros [H|H]; [congruence|exact H]|].
    split; [reflexivity|constructor].
  - destruct (ready_placeable f s todo (bool_decide (todo = [])) Hready Hfits)
      as [Hp Hready'].
    cbn [allocate_all]. unfold allocate_suggestion.
    rewrite (allocate_loop_places gaps0 _ _ _ _ g0 Hp). cbn [bind].
    destruct (IH _ Hready') as (f' & blocks & -> & Hr & Hc & Hs & Hf2).
    { intros x Hx. apply Hfits. now right. }
    exists f', (block_of (pay_travel hypot gap_labels tolerance f g0 s)
                         g0 s :: blocks).
    split; [reflexivity|]. split; [exact Hr|]. split; [|split].
    + intros _. apply Hc. right. cbn [place_block current_cursor].
      destruct (Hfits s (or_introl eq_refl)) as (_ & -> & _). reflexivity.
    + rewrite Hs. cbn [place_block schedule].
      rewrite pay_travel_schedule, <- app_assoc. reflexivity.
    + constructor; [|exact Hf2]. repeat split.
Qed.

(** A sufficient condition for the placement engine in plain terms:
    mandatory suggestions at one location [L], with a supported
    preference and each longer than the tolerance, whose durations
    together with the travel from the start of the first gap to [L] and
    from [L] to its end fit in that gap, are all placed, from the empty
    state, in the first gap, one block each and in order. *)
Lemma assign_order_places (order : list Suggestion.t) :
  order <> [] ->
  (forall x, In x order -> fits_at tolerance L x) ->
  leg hypot (Gap.start_location g0) L
  + Qsum (map Suggestion.duration order)
  + leg hypot L (Gap.end_location g0) <= Gap.duration g0 ->
  exists blocks state' logs,
    assign_order_to_gaps hypot gaps0 gap_labels tolerance order None
    = Ok (Some (blocks, state', logs)) /\
    Forall2 (block_in g0) order blocks.
Proof using tolerance_nonneg stay travel_in_nonneg travel_out_nonneg.
  intros Hne Hfits Hbudget. unfold assign_order_to_gaps.
  destruct order as [|s order]; [congruence|].
  destruct (allocate_all_places (s :: order) (initial_frame gaps0 None))
    as (f & blocks & E & (Hidx & Hcur & Hb) & HcL & Hs & Hf2).
  { split; [reflexivity|]. split; [now left|].
    cbn [initial_frame gap_usage current_cursor].
    rewrite dget_zero_usage. lra. }
  { exact Hfits. }
  rewrite E. cbn [bind negb].
  assert (Hg : current_gap gaps0 f = Some g0).
  { unfold current_gap. now rewrite Hidx. }
  rewrite Hg.
  assert (Hne' : s :: order <> []) by discriminate.
  specialize (HcL (or_introl Hne')).
  rewrite HcL in *. cbn [default].
  unfold ensure_gap_exit_ok, travel_minutes_between. cbv beta iota zeta.
  unfold id.
  change (euclidean_distance hypot L (Gap.end_location g0)
          * MINUTES_PER_DISTANCE_UNIT)
    with (leg hypot L (Gap.end_location g0)).
  simpl in Hb.
  destruct (Qgtb (leg hypot L (Gap.end_location g0)) _) eqn:Hexit.
  { qprop. lra. }
  eexists _, _, _. split; [reflexivity|].
  cbn [leave_gap schedule].
  cbn [initial_frame schedule] in Hs. simpl in Hs. rewrite Hs. exact Hf2.
Qed.

End PlacesInFirstGap.


Lemma filter_all {A : Type} (f : A -> bool) (l : list A) :
  (forall x, In x l -> f x = true) -> List.filter f l = l.
Proof.
  induction l as [|x l IH]; intros H; simpl; [reflexivity|].
  rewrite (H x (or_introl eq_refl)). f_equal. apply IH.
  intros y Hy. apply H. now right.
Qed.





Lemma match_nonempty {A B : Type} (l : list A) (a b : B) :
  l <> [] ->
  match l with
  | [] => a
  | _ :: _ => b
  end = b.
Proof. destruct l; [congruence|reflexivity]. Qed.








Lemma hypot_rat_zero : leg hypot_rat (0, 0) (0, 0) == 0.
Proof. reflexivity. Qed.




(** Why the number of mandatory suggestions is bounded above: with more
    of them than [permutation_limit] the batch is shrunk before the
    search, lowest score first, and what is shrunk away is dropped even
    though one gap has room for everything. *)
Lemma mandatory_beyond_limit_dropped :
  mandatory_of default_tolerance [mandatory_A10; mandatory_B10]
  = [mandatory_A10; mandatory_B10] /\
  exists r,
    schedule_suggestions hypot_rat [mandatory_A10; mandatory_B10]
      [test_gap_180] default_max_distance 1 default_tolerance
      default_resolution_minutes = Ok r /\
    map ScheduledBlock.suggestion_id (ScheduleResult.scheduled_blocks r)
    = ["A"] /\
    ScheduleResult.dropped_suggestions r = [mandatory_B10].
Proof.
  split; [reflexivity|]. eexists. split; [vm_compute; reflexivity|].
  split; reflexivity.
Qed.


(** ** The theorems at concrete inputs *)

Lemma C3_greedy_select_candidates_witness :
  exists chosen,
    greedy_select_candidates [test_A; test_B] [test_gap_180]
      default_max_distance (Some 180) default_tolerance
      default_resolution_minutes = Ok chosen /\
    chosen ⊆+ [test_A; test_B] /\
    (total_weight default_resolution_minutes chosen
     <= py_round (180 / default_resolution_minutes))%Z /\
    (forall sub, sub ⊆+ [test_A; test_B] ->
       (total_weight default_resolution_minutes sub
        <= py_round (180 / default_resolution_minutes))%Z ->
       total_score sub <= total_score chosen) /\
    StronglySorted score_ge chosen.
Proof.
  apply (C3_greedy_select_candidates [test_A; test_B] [test_gap_180]
           default_max_distance (Some 180) default_tolerance
           default_resolution_minutes).
  - reflexivity.
  - discriminate.
  - reflexivity.
Defined.


Lemma C5_capacity_conservation_witness :
  exists r,
    schedule_suggestions hypot_rat [test_A; test_B] [test_gap_180]
      default_max_distance 6 default_tolerance default_resolution_minutes
    = Ok r /\
    block_minutes (Gap.gap_id test_gap_180)
                  (ScheduleResult.scheduled_blocks r)
    <= Gap.duration test_gap_180 + default_tolerance.
Proof.
  destruct (C5_capacity_conservation hypot_rat [test_gap_180]
              default_tolerance) as [_ H].
  - repeat constructor. simpl. tauto.
  - repeat constructor.
  - discriminate.
  - destruct (H [test_A; test_B] default_max_distance 6%Z
                default_resolution_minutes) as [_ Hblocks].
    eexists. split; [vm_compute; reflexivity|].
    apply Hblocks; [vm_compute; reflexivity|now left].
Defined.



(** * Further properties of the module *)

(** ** Construction and normalization *)

Lemma lstrip_idem (l : list ascii) : lstrip (lstrip l) = lstrip l.
Proof.
  induction l as [|c l IH]; simpl; [reflexivity|].
  destruct (is_space c) eqn:E; [exact IH|]. simpl. now rewrite E.
Qed.

Lemma lstrip_suffix (l : list ascii) : exists pre, l = pre ++ lstrip l.
Proof.
  induction l as [|c l [pre IH]]; simpl; [now exists []|].
  destruct (is_space c).
  - exists (c :: pre). simpl. now f_equal.
  - now exists [].
Qed.

Lemma lstrip_fixed (l : list ascii) :
  lstrip l = l <->
  match l with
  | [] => True
  | c :: _ => is_space c = false
  end.
Proof.
  destruct l as [|c l]; simpl; [tauto|].
  destruct (is_space c) eqn:E; split; intros H; try congruence.
  exfalso. destruct (lstrip_suffix l) as [pre Hpre].
  apply (f_equal (@length ascii)) in H. rewrite Hpre in H at 2.
  simpl in H. rewrite length_app in H. lia.
Qed.

Lemma strip_list_clean (l : list ascii) :
  let l' := rev (lstrip (rev (lstrip l))) in
  rev (lstrip (rev (lstrip l'))) = l'.
Proof.
  intros l'.
  assert (Hb : lstrip (rev l') = rev l').
  { unfold l'. rewrite rev_involutive. apply lstrip_idem. }
  assert (Ha : lstrip l' = l').
  { apply lstrip_fixed. unfold l'.
    destruct (lstrip_suffix (rev (lstrip l))) as [pre Hpre].
    set (b := lstrip (rev (lstrip l))) in *.
    destruct (rev b) as [|c r] eqn:Er; [exact I|].
    assert (Hl : lstrip l = (c :: r) ++ rev pre).
    { rewrite <- Er, <- rev_app_distr, <- Hpre. now rewrite rev_involutive. }
    pose proof (lstrip_idem l) as Hi. apply lstrip_fixed in Hi.
    rewrite Hl in Hi. exact Hi. }
  rewrite Ha, Hb. apply rev_involutive.
Qed.

Lemma strip_idem (s : string) : strip (strip s) = strip s.
Proof.
  unfold strip. rewrite list_ascii_of_string_of_list_ascii.
  f_equal. apply strip_list_clean.
Qed.

(** What the normalization returns it leaves as it is. *)
Lemma normalize_output_fixed (value : option string) (p : string) :
  normalize_location_preference value = Some p ->
  normalize_location_preference (Some p) = Some p.
Proof.
  destruct value as [v|]; [|discriminate].
  cbn [normalize_location_preference].
  destruct (String.eqb (strip v) "") eqn:E1; [discriminate|].
  destruct (String.eqb (replace_space_underscore (lower (strip v)))
                       "near_home") eqn:E2;
    intros H; inversion H; subst p; [reflexivity|].
  cbn [normalize_location_preference]. rewrite strip_idem, E1, E2.
  reflexivity.
Qed.

(** Normalizing a location preference twice is normalizing it once. *)
Lemma normalize_location_preference_idem (value : option string) :
  normalize_location_preference (normalize_location_preference value)
  = normalize_location_preference value.
Proof.
  destruct (normalize_location_preference value) as [p|] eqn:E;
    [|reflexivity].
  exact (normalize_output_fixed value p E).
Qed.

Lemma clamp01_bounds (x : Q) : 0 <= clamp01 x <= 1.
Proof.
  unfold clamp01. destruct (Qltb x 0) eqn:E1; [lra|].
  destruct (Qgtb x 1) eqn:E2; qprop; lra.
Qed.

(** The constructor of a suggestion fails exactly on a non-positive
    duration; what it builds keeps the given fields, stores the
    normalized preference (a fixed point of the normalization, never the
    empty string), and has a score between 0 and 2. *)
Lemma suggestion_make_spec (id : string) (need importance duration : Q)
    (location : Coordinate) (raw : option string) :
  (duration <= 0 ->
   Suggestion.make id need importance duration location raw
   = Raise ValueError) /\
  (0 < duration ->
   exists s,
     Suggestion.make id need importance duration location raw = Ok s /\
     Suggestion.valid s /\
     Suggestion.suggestion_id s = id /\ Suggestion.need s = need /\
     Suggestion.importance s = importance /\
     Suggestion.duration s = duration /\ Suggestion.location s = location /\
     Suggestion.location_preference s = normalize_location_preference raw /\
     normalize_location_preference (Suggestion.location_preference s)
     = Suggestion.location_preference s /\
     Suggestion.location_preference s <> Some "" /\
     0 <= Suggestion.score s <= 2).
Proof.
  unfold Suggestion.make. split; intros H.
  - apply Qleb_true in H. now rewrite H.
  - apply Qleb_false in H as H'. rewrite H'. eexists. split; [reflexivity|].
    assert (Hfix : normalize_location_preference
                     (normalize_location_preference raw)
                   = normalize_location_preference raw).
    { destruct (normalize_location_preference raw) as [p|] eqn:E;
        [|reflexivity].
      exact (normalize_output_fixed raw p E). }
    unfold Suggestion.valid, Suggestion.score. simpl.
    repeat split; auto using normalize_location_preference_nonempty.
    + pose proof (clamp01_bounds need). pose proof (clamp01_bounds importance).
      lra.
    + pose proof (clamp01_bounds need). pose proof (clamp01_bounds importance).
      lra.
Qed.

Lemma suggestion_make_spec_witness :
  exists s,
    Suggestion.make "A" 1 (1 # 2) 120 (0, 0) (Some " Near Home ") = Ok s /\
    Suggestion.location_preference s = Some "near_home" /\
    0 <= Suggestion.score s <= 2.
Proof.
  destruct (suggestion_make_spec "A" 1 (1 # 2) 120 (0, 0)
              (Some " Near Home ")) as [_ H].
  destruct H as (s & E & _ & _ & _ & _ & _ & _ & Hp & _ & _ & Hs);
    [reflexivity|].
  exists s. split; [exact E|]. split; [rewrite Hp; reflexivity|exact Hs].
Defined.


(** ** Gap labels and allocation state helpers *)

Lemma fold_left_pointwise {A B : Type} (f g : A -> B -> A) (l : list B) :
  (forall a b, f a b = g a b) ->
  forall a, fold_left f l a = fold_left g l a.
Proof.
  intros Hfg. induction l as [|b l IH]; intros a; [reflexivity|].
  cbn [fold_left]. now rewrite Hfg, IH.
Qed.

Lemma resolve_gap_labels_fold (gaps : list Gap.t) :
  resolve_gap_labels gaps
  = fold_left (label_step (length gaps))
              (combine (seq 0 (length gaps)) gaps) ∅.
Proof.
  unfold resolve_gap_labels. cbv zeta. apply fold_left_pointwise.
  intros labels [idx gap]. reflexivity.
Qed.

Lemma label_fold_other (total : nat) (l : list Gap.t) :
  forall (k : nat) (m : gmap string (string * string)) (key : string),
    ~ In key (map Gap.gap_id l) ->
    fold_left (label_step total) (combine (seq k (length l)) l) m !! key
    = m !! key.
Proof.
  induction l as [|g l IH]; intros k m key Hnot; [reflexivity|].
  cbn [length seq combine fold_left]. rewrite IH.
  - unfold label_step. cbn [fst snd]. apply lookup_insert_ne.
    intros E. apply Hnot. now left.
  - intros Hin. apply Hnot. now right.
Qed.

Lemma label_fold_lookup (total : nat) (l : list Gap.t) :
  forall (k i : nat) (m : gmap string (string * string)) (g : Gap.t),
    List.NoDup (map Gap.gap_id l) ->
    l !! i = Some g ->
    fold_left (label_step total) (combine (seq k (length l)) l) m
      !! Gap.gap_id g
    = Some (expected_labels total (k + i) g).
Proof.
  induction l as [|x l IH]; intros k i m g Hnd Hi; [discriminate|].
  cbn [map] in Hnd. apply NoDup_cons_iff in Hnd as [Hnot Hnd].
  cbn [length seq combine fold_left].
  destruct i as [|i]; cbn in Hi.
  - inversion Hi; subst x. rewrite label_fold_other by exact Hnot.
    unfold label_step. cbn [fst snd]. rewrite lookup_insert_eq.
    now rewrite Nat.add_0_r.
  - rewrite (IH (S k) i _ g Hnd Hi). do 2 f_equal. lia.
Qed.

(** With distinct gap identifiers, the label table has for every gap its
    own labels, or "home" for the start of the first gap and the end of
    the last one, or the names derived from its identifier. *)
Theorem resolve_gap_labels_lookup (gaps : list Gap.t) (i : nat) (g : Gap.t) :
  List.NoDup (map Gap.gap_id gaps) ->
  gaps !! i = Some g ->
  resolve_gap_labels gaps !! Gap.gap_id g
  = Some (expected_labels (length gaps) i g).
Proof.
  intros Hnd Hi. rewrite resolve_gap_labels_fold.
  now rewrite (label_fold_lookup (length gaps) gaps 0 i ∅ g Hnd Hi).
Qed.

Lemma resolve_gap_labels_lookup_witness :
  resolve_gap_labels [short_gap; long_gap] !! "g2"
  = Some ("g2:start", "home").
Proof.
  apply (resolve_gap_labels_lookup [short_gap; long_gap] 1 long_gap).
  - repeat constructor; simpl; intuition discriminate.
  - reflexivity.
Defined.

(** When two gaps share an identifier the later one decides the
    labels. *)
Theorem resolve_gap_labels_last_wins (gaps : list Gap.t) (g : Gap.t) :
  resolve_gap_labels (gaps ++ [g]) !! Gap.gap_id g
  = Some (expected_labels (S (length gaps)) (length gaps) g).
Proof.
  rewrite resolve_gap_labels_fold.
  rewrite length_app. cbn [length]. rewrite Nat.add_1_r.
  replace (seq 0 (S (length gaps))) with (seq 0 (length gaps) ++ [length gaps])
    by (rewrite <- Nat.add_1_r, seq_app; reflexivity).
  rewrite combine_snoc by now rewrite length_seq.
  rewrite fold_left_app. cbn [fold_left]. unfold label_step at 1.
  cbn [fst snd]. apply lookup_insert_eq.
Qed.

Lemma Qmax0_nonneg (x : Q) : 0 <= Qmax0 x.
Proof. unfold Qmax0. destruct (Qltb 0 x) eqn:E; qprop; lra. Qed.

Lemma remaining_fold_nonneg (st : AllocationState.t) (tolerance : Q)
    (l : list (nat * Gap.t)) :
  forall total,
    0 <= total ->
    0 <= fold_left
           (fun total '(idx, gap) =>
              if (idx <? AllocationState.gap_index st)%nat then total
              else
                let used :=
                  dget (AllocationState.gap_usage st) (Gap.gap_id gap) in
                let remaining := Qmax0 (Gap.duration gap - used) in
                if Qgtb remaining tolerance then total + remaining else total)
           l total.
Proof.
  induction l as [|[idx gap] l IH]; intros total Ht; [exact Ht|].
  cbn [fold_left]. apply IH.
  destruct (idx <? _)%nat; [exact Ht|]. cbv zeta.
  destruct (Qgtb _ tolerance); [|exact Ht].
  pose proof (Qmax0_nonneg (Gap.duration gap
                            - dget (AllocationState.gap_usage st)
                                   (Gap.gap_id gap))).
  lra.
Qed.

Lemma remaining_fold_skipped (st : AllocationState.t) (tolerance : Q)
    (l : list (nat * Gap.t)) :
  forall total,
    (forall idx gap, In (idx, gap) l ->
       (idx < AllocationState.gap_index st)%nat) ->
    fold_left
      (fun total '(idx, gap) =>
         if (idx <? AllocationState.gap_index st)%nat then total
         else
           let used :=
             dget (AllocationState.gap_usage st) (Gap.gap_id gap) in
           let remaining := Qmax0 (Gap.duration gap - used) in
           if Qgtb remaining tolerance then total + remaining else total)
      l total = total.
Proof.
  induction l as [|[idx gap] l IH]; intros total H; [reflexivity|].
  cbn [fold_left].
  destruct (Nat.ltb_spec idx (AllocationState.gap_index st)) as [_|Hge].
  - apply IH. intros i g Hin. apply (H i g). now right.
  - specialize (H idx gap (or_introl eq_refl)). lia.
Qed.

(** The capacity that remains from a state on is never negative, and it
    is zero once the state is past the last gap. *)
Theorem remaining_capacity_state (gaps : list Gap.t)
    (st : AllocationState.t) (tolerance : Q) :
  0 <= remaining_capacity gaps (Some st) tolerance /\
  ((length gaps <= AllocationState.gap_index st)%nat ->
   remaining_capacity gaps (Some st) tolerance = 0).
Proof.
  unfold remaining_capacity. split.
  - apply remaining_fold_nonneg. lra.
  - intros Hpast. apply remaining_fold_skipped.
    intros idx gap Hin. unfold enumerate in Hin.
    apply in_combine_l in Hin. apply in_seq in Hin. lia.
Qed.

Lemma remaining_capacity_state_witness :
  remaining_capacity [test_gap_180]
    (Some (AllocationState.mk ∅ 1 None None false)) default_tolerance = 0.
Proof.
  apply (remaining_capacity_state [test_gap_180]
           (AllocationState.mk ∅ 1 None None false) default_tolerance).
  simpl. lia.
Defined.

(** There is a starting location unless there are no gaps or the state
    is past the last gap; it is the cursor of the state when set, else the
    start of the current gap. *)
Theorem starting_location_for_state_spec (gaps : list Gap.t)
    (state : option AllocationState.t) :
  (starting_location_for_state gaps state = None <->
   gaps = [] \/
   exists st,
     state = Some st /\ (length gaps <= AllocationState.gap_index st)%nat) /\
  (forall g0 rest, gaps = g0 :: rest -> state = None ->
     starting_location_for_state gaps state = Some (Gap.start_location g0)) /\
  (forall st g, state = Some st ->
     gaps !! AllocationState.gap_index st = Some g ->
     starting_location_for_state gaps state
     = Some (default (Gap.start_location g)
                     (AllocationState.current_cursor st))).
Proof.
  unfold starting_location_for_state. split; [|split].
  - destruct gaps as [|g0 rest]; [split; auto|].
    destruct state as [st|].
    + destruct ((g0 :: rest) !! AllocationState.gap_index st) as [g|] eqn:E.
      * apply lookup_lt_Some in E.
        destruct (AllocationState.current_cursor st); split;
          try discriminate; intros [H|(st' & H & Hlen)]; try discriminate;
          inversion H; subst; lia.
      * apply lookup_ge_None in E. split; [|reflexivity].
        intros _. right. eauto.
    + split; [discriminate|].
      intros [H|(st' & H & _)]; discriminate.
  - intros g0 rest -> ->. reflexivity.
  - intros st g -> Hg. destruct gaps as [|g0 rest]; [discriminate|].
    rewrite Hg. now destruct (AllocationState.current_cursor st).
Qed.

Lemma starting_location_for_state_spec_witness :
  starting_location_for_state [test_gap_180] None = Some (0, 0).
Proof.
  destruct (starting_location_for_state_spec [test_gap_180] None)
    as (_ & H & _).
  apply (H test_gap_180 []); reflexivity.
Defined.


(** ** Bookkeeping of [schedule_suggestions] *)

Lemma minutes_of_app (k : string) (l1 l2 : list ScheduledBlock.t) :
  minutes_of k (l1 ++ l2) == minutes_of k l1 + minutes_of k l2.
Proof.
  unfold minutes_of. rewrite List.filter_app, map_app. apply Qsum_app.
Qed.

Lemma minutes_of_perm (k : string) (l1 l2 : list ScheduledBlock.t) :
  Permutation l1 l2 -> minutes_of k l1 == minutes_of k l2.
Proof.
  unfold minutes_of.
  induction 1 as [|x l1 l2 _ IH|x y l|l1 l2 l3 _ IH1 _ IH2]; simpl.
  - reflexivity.
  - destruct (String.eqb _ k); simpl; rewrite IH; reflexivity.
  - destruct (String.eqb (ScheduledBlock.suggestion_id x) k),
      (String.eqb (ScheduledBlock.suggestion_id y) k); simpl; lra.
  - rewrite IH1. exact IH2.
Qed.

Lemma minutes_of_placed (k : string) (order : list Suggestion.t)
    (blocks : list ScheduledBlock.t) :
  Forall2 block_for order blocks ->
  minutes_of k blocks == placed_minutes k order.
Proof.
  unfold minutes_of, placed_minutes, carrying.
  induction 1 as [|s b order blocks (Hid & Hd & _) _ IH]; simpl;
    [reflexivity|].
  rewrite Hid. destruct (String.eqb _ k); simpl; rewrite ?Hd, IH;
    reflexivity.
Qed.

Lemma allocated_fold (k : string) (schedule : list ScheduledBlock.t) :
  forall m,
    dget (fold_left
            (fun m block =>
               dadd m (ScheduledBlock.suggestion_id block)
                    (ScheduledBlock.duration block))
            schedule m) k
    == dget m k + minutes_of k schedule.
Proof.
  unfold minutes_of.
  induction schedule as [|b schedule IH]; intros m; simpl; [lra|].
  rewrite IH. destruct (String.eqb_spec (ScheduledBlock.suggestion_id b) k)
    as [->|Hne]; simpl.
  - rewrite dget_dadd_eq. lra.
  - rewrite dget_dadd_ne by exact Hne. lra.
Qed.

Lemma ctx_step_tallied (hypot : Q -> Q -> Q) (gap_list : list Gap.t)
    (gap_labels : gmap string (string * string)) (tolerance : Q)
    (pool : list Suggestion.t) (c c' : Ctx) :
  ctx_step hypot gap_list gap_labels tolerance pool c c' ->
  tallied c -> tallied c'.
Proof.
  intros Hstep [Hb Ha].
  destruct Hstep as [c x Hx|c order tc n blocks st logs Hne Hin Has];
    [split; assumption|].
  apply assign_order_blocks in Has as [Hf _].
  split; cbn [commit ordered_total scheduled_blocks_total allocated_minutes].
  - now apply Forall2_app.
  - intros k. rewrite allocated_fold, minutes_of_app, Ha. reflexivity.
Qed.

Lemma schedule_suggestions_tallied (hypot : Q -> Q -> Q)
    (suggestions : list Suggestion.t) (gaps : list Gap.t)
    (max_distance : Q) (permutation_limit : Z)
    (tolerance resolution_minutes : Q) (r : ScheduleResult.t) :
  schedule_suggestions hypot suggestions gaps max_distance permutation_limit
    tolerance resolution_minutes = Ok r ->
  exists blocks,
    Permutation blocks (ScheduleResult.scheduled_blocks r) /\
    Forall2 block_for (ScheduleResult.ordered_suggestions r) blocks /\
    forall k,
      dget (ScheduleResult.allocated_minutes r) k == minutes_of k blocks.
Proof.
  intros E.
  pose proof (schedule_suggestions_sound hypot suggestions gaps max_distance
                permutation_limit tolerance resolution_minutes) as H.
  rewrite E in H. cbn [outcome] in H.
  destruct H as [(unused & ->)|(_ & ctx & _ & Hsteps & ->)].
  - exists []. simpl. split; [constructor|]. split; [constructor|].
    intros k. reflexivity.
  - assert (Ht : tallied ctx).
    { eapply ctx_steps_invariant; [|exact Hsteps|].
      - intros c c'. apply ctx_step_tallied.
      - split; [constructor|]. intros k. reflexivity. }
    destruct Ht as [Hb Ha]. exists (scheduled_blocks_total ctx).
    cbn [final_result ScheduleResult.scheduled_blocks
         ScheduleResult.ordered_suggestions ScheduleResult.allocated_minutes].
    split; [apply Permutation_sym, sort_by_perm|]. split; assumption.
Qed.

(** In a result of the scheduler the blocks are, up to their final
    sorting, those of the placed suggestions, one each and in order; so
    there are as many blocks as placed suggestions, and the result is
    feasible exactly when a suggestion was placed. *)
Theorem schedule_suggestions_one_block_each (hypot : Q -> Q -> Q)
    (suggestions : list Suggestion.t) (gaps : list Gap.t)
    (max_distance : Q) (permutation_limit : Z)
    (tolerance resolution_minutes : Q) (r : ScheduleResult.t) :
  schedule_suggestions hypot suggestions gaps max_distance permutation_limit
    tolerance resolution_minutes = Ok r ->
  (exists blocks,
     Permutation blocks (ScheduleResult.scheduled_blocks r) /\
     Forall2 block_for (ScheduleResult.ordered_suggestions r) blocks) /\
  length (ScheduleResult.scheduled_blocks r)
  = length (ScheduleResult.ordered_suggestions r) /\
  (is_feasible r = true <-> ScheduleResult.ordered_suggestions r <> []).
Proof.
  intros E.
  destruct (schedule_suggestions_tallied _ _ _ _ _ _ _ _ E)
    as (blocks & Hp & Hf & _).
  assert (Hlen : length (ScheduleResult.scheduled_blocks r)
                 = length (ScheduleResult.ordered_suggestions r)).
  { rewrite <- (Permutation_length Hp). symmetry.
    eapply Forall2_length. exact Hf. }
  split; [eauto|]. split; [exact Hlen|].
  unfold is_feasible.
  destruct (ScheduleResult.scheduled_blocks r),
    (ScheduleResult.ordered_suggestions r); simpl in Hlen;
    try discriminate; split; congruence.
Qed.

Lemma schedule_suggestions_one_block_each_witness :
  exists r,
    schedule_suggestions hypot_rat [test_A; test_B] [test_gap_180]
      default_max_distance default_permutation_limit default_tolerance
      default_resolution_minutes = Ok r /\
    length (ScheduleResult.scheduled_blocks r)
    = length (ScheduleResult.ordered_suggestions r) /\
    is_feasible r = true.
Proof.
  assert (H : exists r,
             schedule_suggestions hypot_rat [test_A; test_B] [test_gap_180]
               default_max_distance default_permutation_limit
               default_tolerance default_resolution_minutes = Ok r /\
             ScheduleResult.ordered_suggestions r <> []).
  { eexists. split; [vm_compute; reflexivity|]. discriminate. }
  destruct H as (r & E & Hne). exists r. split; [exact E|].
  destruct (schedule_suggestions_one_block_each _ _ _ _ _ _ _ _ E)
    as (_ & Hlen & Hfe).
  split; [exact Hlen|]. apply Hfe, Hne.
Defined.

(** The minutes recorded for an identifier are the total duration of the
    blocks that carry it, which is the total duration of the placed
    suggestions that carry it. *)
Theorem allocated_minutes_tally (hypot : Q -> Q -> Q)
    (suggestions : list Suggestion.t) (gaps : list Gap.t)
    (max_distance : Q) (permutation_limit : Z)
    (tolerance resolution_minutes : Q) (r : ScheduleResult.t) (k : string) :
  schedule_suggestions hypot suggestions gaps max_distance permutation_limit
    tolerance resolution_minutes = Ok r ->
  dget (ScheduleResult.allocated_minutes r) k
  == minutes_of k (ScheduleResult.scheduled_blocks r) /\
  dget (ScheduleResult.allocated_minutes r) k
  == placed_minutes k (ScheduleResult.ordered_suggestions r).
Proof.
  intros E.
  destruct (schedule_suggestions_tallied _ _ _ _ _ _ _ _ E)
    as (blocks & Hp & Hf & Ha).
  split.
  - rewrite Ha. now apply minutes_of_perm.
  - rewrite Ha. now apply minutes_of_placed.
Qed.

Lemma allocated_minutes_tally_witness :
  exists r,
    schedule_suggestions hypot_rat [test_A; test_B] [test_gap_180]
      default_max_distance default_permutation_limit default_tolerance
      default_resolution_minutes = Ok r /\
    dget (ScheduleResult.allocated_minutes r) "A"
    == minutes_of "A" (ScheduleResult.scheduled_blocks r).
Proof.
  assert (H : exists r,
             schedule_suggestions hypot_rat [test_A; test_B] [test_gap_180]
               default_max_distance default_permutation_limit
               default_tolerance default_resolution_minutes = Ok r).
  { eexists. vm_compute. reflexivity. }
  destruct H as (r & E). exists r. split; [exact E|].
  apply (allocated_minutes_tally _ _ _ _ _ _ _ r "A" E).
Defined.

(** [blocks_used] never raises; for a result of the scheduler it is 1 for
    a placed suggestion that alone carries its identifier, and 0 for a
    suggestion whose identifier no placed suggestion carries. *)
Theorem blocks_used_placed (hypot : Q -> Q -> Q)
    (suggestions : list Suggestion.t) (gaps : list Gap.t)
    (max_distance : Q) (permutation_limit : Z)
    (tolerance resolution_minutes : Q) (r : ScheduleResult.t)
    (s : Suggestion.t) :
  schedule_suggestions hypot suggestions gaps max_distance permutation_limit
    tolerance resolution_minutes = Ok r ->
  exists used,
    blocks_used r s = Ok used /\
    (Suggestion.valid s ->
     carrying (Suggestion.suggestion_id s)
       (ScheduleResult.ordered_suggestions r) = [s] ->
     used == 1) /\
    (carrying (Suggestion.suggestion_id s)
       (ScheduleResult.ordered_suggestions r) = [] ->
     used == 0).
Proof.
  intros E.
  assert (Ha : dget (ScheduleResult.allocated_minutes r)
                    (Suggestion.suggestion_id s)
               == placed_minutes (Suggestion.suggestion_id s)
                    (ScheduleResult.ordered_suggestions r)).
  { destruct (schedule_suggestions_tallied _ _ _ _ _ _ _ _ E)
      as (blocks & _ & Hf & Hal).
    rewrite Hal. now apply minutes_of_placed. }
  unfold blocks_used, py_div.
  destruct (Qeqb (Suggestion.duration s) 0) eqn:Ez.
  - exists 0. split; [reflexivity|]. split; [|reflexivity].
    intros Hv _. unfold Suggestion.valid in Hv.
    apply Qeq_bool_iff in Ez. lra.
  - eexists. split; [reflexivity|].
    assert (Hnz : ~ Suggestion.duration s == 0).
    { intros Hz. apply Qeq_bool_iff in Hz. unfold Qeqb in Ez. congruence. }
    split.
    + intros _ Hc. rewrite Ha. unfold placed_minutes. rewrite Hc. simpl.
      field. exact Hnz.
    + intros Hc. rewrite Ha. unfold placed_minutes. rewrite Hc. simpl.
      field. exact Hnz.
Qed.

Lemma blocks_used_placed_witness :
  exists r used,
    schedule_suggestions hypot_rat [test_A; test_B] [test_gap_180]
      default_max_distance default_permutation_limit default_tolerance
      default_resolution_minutes = Ok r /\
    blocks_used r test_A = Ok used /\ used == 1.
Proof.
  assert (H : exists r,
             schedule_suggestions hypot_rat [test_A; test_B] [test_gap_180]
               default_max_distance default_permutation_limit
               default_tolerance default_resolution_minutes = Ok r /\
             carrying "A" (ScheduleResult.ordered_suggestions r) = [test_A]).
  { eexists. split; [vm_compute; reflexivity|]. vm_compute. reflexivity. }
  destruct H as (r & E & Hc).
  destruct (blocks_used_placed _ _ _ _ _ _ _ r test_A E)
    as (used & Hu & H1 & _).
  exists r, used. split; [exact E|]. split; [exact Hu|].
  apply H1; [reflexivity|exact Hc].
Defined.


(** ** Placement in the first gap *)

Lemma assign_order_places_witness :
  exists blocks state' logs,
    assign_order_to_gaps hypot_rat [test_gap_180]
      (resolve_gap_labels [test_gap_180]) default_tolerance [test_A] None
    = Ok (Some (blocks, state', logs)) /\
    Forall2 (block_in test_gap_180) [test_A] blocks.
Proof.
  apply (assign_order_places hypot_rat test_gap_180 []
           (resolve_gap_labels [test_gap_180]) default_tolerance (0, 0)).
  - discriminate.
  - reflexivity.
  - discriminate.
  - discriminate.
  - discriminate.
  - intros x [<-|[]]. split; [reflexivity|]. split; [reflexivity|].
    split; [|reflexivity]. intros (p & Hp & _). discriminate.
  - vm_compute. discriminate.
Defined.


(** ** What a result of [schedule_suggestions] holds *)

Lemma discard_all_In (order : list Suggestion.t) (s : Suggestion.t) :
  forall l,
    In s (fold_left (fun r x => discard x r) order l) -> In s l.
Proof.
  induction order as [|x order IH]; intros l H; simpl in H; [exact H|].
  apply IH in H. now apply discard_In in H.
Qed.

Lemma ctx_step_sourced (hypot : Q -> Q -> Q) (gap_list : list Gap.t)
    (gap_labels : gmap string (string * string)) (tolerance : Q)
    (pool : list Suggestion.t) (c c' : Ctx) :
  ctx_step hypot gap_list gap_labels tolerance pool c c' ->
  sourced pool c -> sourced pool c'.
Proof.
  intros Hstep [Hr Hd].
  destruct Hstep as [c x Hx|c order tc n blocks st logs Hne Hin Has].
  - split; cbn [drop_candidate remaining dropped_total].
    + intros s Hs. apply Hr. now apply discard_In in Hs.
    + intros s Hs. apply in_app_or in Hs as [Hs|[<-|[]]]; auto.
  - split; cbn [commit remaining dropped_total]; [|exact Hd].
    intros s Hs. apply Hr. now apply discard_all_In in Hs.
Qed.

(** Nothing is lost and nothing is invented: every suggestion of the
    input is, up to the equality of suggestions, among the dropped or
    among the placed ones of the result, and the dropped and the placed
    ones are suggestions of the input. *)
Theorem schedule_suggestions_nothing_lost (hypot : Q -> Q -> Q)
    (suggestions : list Suggestion.t) (gaps : list Gap.t)
    (max_distance : Q) (permutation_limit : Z)
    (tolerance resolution_minutes : Q) (r : ScheduleResult.t) :
  schedule_suggestions hypot suggestions gaps max_distance permutation_limit
    tolerance resolution_minutes = Ok r ->
  (forall s, In s suggestions ->
     mem s (ScheduleResult.dropped_suggestions r) = true \/
     mem s (ScheduleResult.ordered_suggestions r) = true) /\
  (forall s, In s (ScheduleResult.ordered_suggestions r) ->
     In s suggestions) /\
  (forall s, In s (ScheduleResult.dropped_suggestions r) ->
     In s suggestions).
Proof.
  intros E.
  pose proof (schedule_suggestions_sound hypot suggestions gaps max_distance
                permutation_limit tolerance resolution_minutes) as H.
  rewrite E in H. cbn [outcome] in H.
  destruct H as [(unused & ->)|(_ & ctx & _ & Hsteps & ->)].
  { simpl. split; [|split]; auto using mem_In. intros s []. }
  assert (Hacc : accounted suggestions ctx).
  { eapply ctx_steps_invariant; [|exact Hsteps|apply initial_ctx_accounted].
    intros c c'. apply ctx_step_accounted. }
  assert (Hsrc : sourced suggestions ctx).
  { eapply ctx_steps_invariant; [|exact Hsteps|].
    - intros c c'. apply ctx_step_sourced.
    - split; cbn [initial_ctx remaining dropped_total]; [|intros s []].
      intros s Hs. apply in_app_or in Hs as [Hs|Hs].
      + now apply mandatory_of_In in Hs.
      + now apply optional_of_In in Hs. }
  destruct Hacc as (Hall & Hord & _). destruct Hsrc as [Hr Hd].
  cbn [final_result ScheduleResult.dropped_suggestions
       ScheduleResult.ordered_suggestions].
  split; [|split].
  - intros s Hs. destruct (Hall s Hs) as [H|[H|H]]; [|left|right; exact H].
    + destruct (mem s (dropped_total ctx)) eqn:Ed.
      * left. rewrite mem_app, Ed. reflexivity.
      * left. rewrite mem_app, Ed. simpl.
        apply mem_spec in H as (y & Hy & Ey). apply mem_spec. exists y.
        split; [|exact Ey]. apply filter_In. split; [exact Hy|].
        rewrite <- (mem_eqb s y) by exact Ey. now rewrite Ed.
    + rewrite mem_app, H. reflexivity.
  - intros s Hs. now apply Hord.
  - intros s Hs. apply in_app_or in Hs as [Hs|Hs]; [now apply Hd|].
    apply filter_In in Hs as [Hs _]. now apply Hr.
Qed.

Lemma schedule_suggestions_nothing_lost_witness :
  exists r,
    schedule_suggestions hypot_rat [test_midtown; test_plain] [test_gap_180]
      default_max_distance default_permutation_limit default_tolerance
      default_resolution_minutes = Ok r /\
    (mem test_midtown (ScheduleResult.dropped_suggestions r) = true \/
     mem test_midtown (ScheduleResult.ordered_suggestions r) = true).
Proof.
  assert (H : exists r,
             schedule_suggestions hypot_rat [test_midtown; test_plain]
               [test_gap_180] default_max_distance default_permutation_limit
               default_tolerance default_resolution_minutes = Ok r).
  { eexists. vm_compute. reflexivity. }
  destruct H as (r & E). exists r. split; [exact E|].
  destruct (schedule_suggestions_nothing_lost _ _ _ _ _ _ _ r E)
    as (H & _ & _).
  apply H. now left.
Defined.

Lemma total_gap_minutes_nonneg (gaps : list Gap.t) :
  Forall Gap.valid gaps -> 0 <= total_gap_minutes gaps.
Proof.
  intros H. unfold total_gap_minutes. rewrite py_sum_Qsum.
  induction H as [|g l Hg _ IH]; simpl; [lra|].
  unfold Gap.valid in Hg. lra.
Qed.

(** The unused gap time of a result is never negative. *)
Theorem unused_gap_time_nonneg (hypot : Q -> Q -> Q)
    (suggestions : list Suggestion.t) (gaps : list Gap.t)
    (max_distance : Q) (permutation_limit : Z)
    (tolerance resolution_minutes : Q) (r : ScheduleResult.t) :
  Forall Gap.valid gaps ->
  schedule_suggestions hypot suggestions gaps max_distance permutation_limit
    tolerance resolution_minutes = Ok r ->
  0 <= ScheduleResult.unused_gap_time r.
Proof.
  intros Hv E. unfold schedule_suggestions in E.
  pose proof (total_gap_minutes_nonneg gaps Hv) as Ht.
  destruct gaps as [|g gaps]; [inversion E; simpl; lra|].
  destruct (Qgtb _ _); [inversion E; simpl; exact Ht|].
  destruct (run_phases _ _ _ _ _ _ _) as [[ctx|]|e|]; simpl in E;
    try discriminate; inversion E; subst r; clear E; [|simpl; exact Ht].
  cbn [final_result ScheduleResult.unused_gap_time].
  destruct (state ctx) as [st|]; [|exact Ht].
  unfold remaining_capacity. apply remaining_fold_nonneg. lra.
Qed.

Lemma unused_gap_time_nonneg_witness :
  exists r,
    schedule_suggestions hypot_rat [test_A; test_B] [test_gap_180]
      default_max_distance default_permutation_limit default_tolerance
      default_resolution_minutes = Ok r /\
    0 <= ScheduleResult.unused_gap_time r.
Proof.
  assert (H : exists r,
             schedule_suggestions hypot_rat [test_A; test_B] [test_gap_180]
               default_max_distance default_permutation_limit
               default_tolerance default_resolution_minutes = Ok r).
  { eexists. vm_compute. reflexivity. }
  destruct H as (r & E). exists r. split; [exact E|].
  apply (unused_gap_time_nonneg hypot_rat [test_A; test_B] [test_gap_180]
           default_max_distance default_permutation_limit default_tolerance
           default_resolution_minutes r); [repeat constructor|exact E].
Defined.


(** ** Errors of a configuration outside its domain *)

(** With a negative limit the batch is popped until it is empty, and
    then once more. *)
Lemma shrink_batch_negative (permutation_limit : Z) (fuel : nat) :
  (permutation_limit < 0)%Z ->
  forall (batch : list Suggestion.t) (ctx : Ctx),
    (length batch < fuel)%nat ->
    shrink_batch permutation_limit fuel batch ctx = Raise IndexError.
Proof.
  intros Hneg. induction fuel as [|fuel IH]; intros batch ctx Hlen; [lia|].
  cbn [shrink_batch].
  destruct (Z.gtb_spec (Z.of_nat (length batch)) permutation_limit)
    as [_|Hle]; [|lia].
  pose proof (pop_spec batch) as Hpop.
  destruct (pop batch) as [[batch' x]|]; [|reflexivity].
  apply IH. subst batch. rewrite length_app in Hlen. simpl in Hlen. lia.
Qed.

(** A negative [permutation_limit] makes the mandatory phase raise
    [IndexError] as soon as there is a mandatory suggestion and the
    feasibility gate lets the input through. *)
Theorem negative_permutation_limit_raises (hypot : Q -> Q -> Q)
    (suggestions : list Suggestion.t) (gaps : list Gap.t)
    (max_distance : Q) (permutation_limit : Z)
    (tolerance resolution_minutes : Q) :
  (permutation_limit < 0)%Z ->
  gaps <> [] ->
  mandatory_of tolerance suggestions <> [] ->
  py_sum (map Suggestion.duration (mandatory_of tolerance suggestions))
  <= total_gap_minutes gaps + tolerance ->
  schedule_suggestions hypot suggestions gaps max_distance permutation_limit
    tolerance resolution_minutes = Raise IndexError.
Proof.
  intros Hneg Hgaps Hne Hsum. unfold schedule_suggestions.
  destruct gaps as [|g gaps]; [congruence|].
  apply Qgtb_false in Hsum. rewrite Hsum.
  unfold run_phases. rewrite filter_all.
  2:{ intros s Hs. cbn [remaining]. apply mem_In. apply in_or_app.
      now left. }
  rewrite (match_nonempty (mandatory_of tolerance suggestions)) by exact Hne.
  unfold schedule_group. rewrite filter_all.
  2:{ intros s Hs. cbn [remaining]. apply mem_In. apply in_or_app.
      now left. }
  rewrite (match_nonempty (mandatory_of tolerance suggestions)) by exact Hne.
  rewrite shrink_batch_negative by (exact Hneg || lia). reflexivity.
Qed.

Lemma negative_permutation_limit_raises_witness :
  schedule_suggestions hypot_rat [test_A; test_B] [test_gap_180]
    default_max_distance (-1) default_tolerance default_resolution_minutes
  = Raise IndexError.
Proof.
  apply (negative_permutation_limit_raises hypot_rat [test_A; test_B]
           [test_gap_180] default_max_distance (-1) default_tolerance
           default_resolution_minutes).
  - lia.
  - discriminate.
  - discriminate.
  - vm_compute. discriminate.
Defined.

(** The selector returns nothing when the capacity is within the
    tolerance, whatever the resolution; otherwise a zero resolution
    makes it raise [ZeroDivisionError], even without candidates. *)
Theorem greedy_select_candidates_edges (suggestions : list Suggestion.t)
    (gaps : list Gap.t) (max_distance : Q) (available_minutes : option Q)
    (tolerance resolution_minutes : Q) :
  let capacity := default (total_gap_minutes gaps) available_minutes in
  (capacity <= tolerance ->
   greedy_select_candidates suggestions gaps max_distance available_minutes
     tolerance resolution_minutes = Ok []) /\
  (tolerance < capacity -> resolution_minutes == 0 ->
   greedy_select_candidates suggestions gaps max_distance available_minutes
     tolerance resolution_minutes = Raise ZeroDivisionError).
Proof.
  intros capacity. unfold greedy_select_candidates.
  assert (Hc : match available_minutes with
               | Some c => c
               | None => total_gap_minutes gaps
               end = capacity) by (destruct available_minutes; reflexivity).
  rewrite Hc. split.
  - intros H. apply Qleb_true in H. now rewrite H.
  - intros H Hz. apply Qleb_false in H. rewrite H.
    unfold py_div. apply Qeqb_true in Hz. now rewrite Hz.
Qed.

Lemma greedy_select_candidates_edges_witness :
  greedy_select_candidates [test_B] [test_gap_180] default_max_distance
    None default_tolerance 0 = Raise ZeroDivisionError.
Proof.
  apply (greedy_select_candidates_edges [test_B] [test_gap_180]
           default_max_distance None default_tolerance 0).
  - vm_compute. reflexivity.
  - reflexivity.
Defined.


(** ** The order of the blocks of a result *)

Lemma ascii_compare_refl (x : ascii) : Ascii.compare x x = Eq.
Proof. unfold Ascii.compare. apply N.compare_refl. Qed.

Lemma ascii_compare_lt_trans (x y z : ascii) :
  Ascii.compare x y = Lt -> Ascii.compare y z = Lt ->
  Ascii.compare x z = Lt.
Proof.
  unfold Ascii.compare. rewrite !N.compare_lt_iff. apply N.lt_trans.
Qed.

Lemma string_compare_refl (a : string) : String.compare a a = Eq.
Proof.
  induction a as [|x a IH]; simpl; [reflexivity|].
  now rewrite ascii_compare_refl.
Qed.

Lemma string_compare_lt_trans (a : string) :
  forall b c,
    String.compare a b = Lt -> String.compare b c = Lt ->
    String.compare a c = Lt.
Proof.
  induction a as [|x a IH]; intros [|y b] [|z c]; simpl;
    try discriminate; auto.
  destruct (Ascii.compare x y) eqn:Exy; try discriminate;
    destruct (Ascii.compare y z) eqn:Eyz; try discriminate; intros H1 H2.
  - apply Ascii.compare_eq_iff in Exy, Eyz. subst.
    rewrite ascii_compare_refl. eauto.
  - apply Ascii.compare_eq_iff in Exy. subst. now rewrite Eyz.
  - apply Ascii.compare_eq_iff in Eyz. subst. now rewrite Exy.
  - now rewrite (ascii_compare_lt_trans x y z).
Qed.

Lemma string_compare_gt_lt (a b : string) :
  String.compare a b = Gt <-> String.compare b a = Lt.
Proof.
  rewrite (String.compare_antisym b a).
  destruct (String.compare a b); simpl; split; congruence.
Qed.

(** A key does not come before itself, and [a < c] puts any [b] after
    [a] or before [c]. *)
Lemma block_key_lt_asym (a b : ScheduledBlock.t) :
  block_key_lt a b = true -> block_key_lt b a = false.
Proof.
  unfold block_key_lt.
  rewrite (String.compare_antisym (ScheduledBlock.gap_id b)
             (ScheduledBlock.gap_id a)).
  destruct (String.compare (ScheduledBlock.gap_id a)
              (ScheduledBlock.gap_id b)); simpl; try congruence.
  intros H. qprop. lra.
Qed.

Lemma block_key_lt_cotrans (a b c : ScheduledBlock.t) :
  block_key_lt a c = true ->
  block_key_lt a b = true \/ block_key_lt b c = true.
Proof.
  unfold block_key_lt.
  destruct (String.compare (ScheduledBlock.gap_id a)
              (ScheduledBlock.gap_id c)) eqn:Eac; try discriminate.
  - apply String.compare_eq_iff in Eac. rewrite <- Eac.
    rewrite (String.compare_antisym (ScheduledBlock.gap_id b)
               (ScheduledBlock.gap_id a)).
    destruct (String.compare (ScheduledBlock.gap_id a)
                (ScheduledBlock.gap_id b)); simpl; auto.
    intros H.
    destruct (Qltb (ScheduledBlock.start_offset a)
                (ScheduledBlock.start_offset b)) eqn:E1; [now left|].
    right. qprop. lra.
  - intros _.
    destruct (String.compare (ScheduledBlock.gap_id a)
                (ScheduledBlock.gap_id b)) eqn:Eab; [|now left|].
    + apply String.compare_eq_iff in Eab. rewrite <- Eab, Eac. now right.
    + apply string_compare_gt_lt in Eab.
      rewrite (string_compare_lt_trans _ _ _ Eab Eac). now right.
Qed.

Lemma block_key_le_trans (a b c : ScheduledBlock.t) :
  block_key_le a b -> block_key_le b c -> block_key_le a c.
Proof.
  unfold block_key_le. intros Hab Hbc.
  destruct (block_key_lt c a) eqn:E; [|reflexivity].
  destruct (block_key_lt_cotrans c b a E) as [H|H]; congruence.
Qed.

Lemma insert_block_sorted (x : ScheduledBlock.t)
    (l : list ScheduledBlock.t) :
  StronglySorted block_key_le l ->
  StronglySorted block_key_le (insert_by block_key_lt x l).
Proof.
  induction l as [|y l IH]; intros Hs; simpl.
  - repeat constructor.
  - apply StronglySorted_inv in Hs as [Hs Hy].
    destruct (block_key_lt y x) eqn:E.
    + constructor; [now apply IH|].
      eapply Permutation_Forall;
        [apply Permutation_sym, insert_by_perm|].
      constructor; [now apply block_key_lt_asym|exact Hy].
    + constructor; [now constructor|].
      constructor; [exact E|].
      eapply List.Forall_impl; [|exact Hy].
      intros z Hz. now apply (block_key_le_trans x y z).
Qed.

(** The blocks of a result are in the order of their keys
    [(gap_id, start_offset)]: no block comes after a block that follows
    it in the list. *)
Theorem schedule_suggestions_blocks_sorted (hypot : Q -> Q -> Q)
    (suggestions : list Suggestion.t) (gaps : list Gap.t)
    (max_distance : Q) (permutation_limit : Z)
    (tolerance resolution_minutes : Q) (r : ScheduleResult.t) :
  schedule_suggestions hypot suggestions gaps max_distance permutation_limit
    tolerance resolution_minutes = Ok r ->
  StronglySorted block_key_le (ScheduleResult.scheduled_blocks r).
Proof.
  intros E.
  pose proof (schedule_suggestions_sound hypot suggestions gaps max_distance
                permutation_limit tolerance resolution_minutes) as H.
  rewrite E in H. cbn [outcome] in H.
  destruct H as [(unused & ->)|(_ & ctx & _ & _ & ->)]; [constructor|].
  cbn [final_result ScheduleResult.scheduled_blocks].
  induction (scheduled_blocks_total ctx) as [|b l IH]; simpl;
    [constructor|].
  now apply insert_block_sorted.
Qed.

Lemma schedule_suggestions_blocks_sorted_witness :
  exists r,
    schedule_suggestions hypot_rat [mandatory_A10; mandatory_B10]
      [ten_gap_1; ten_gap_2] default_max_distance default_permutation_limit
      default_tolerance default_resolution_minutes = Ok r /\
    StronglySorted block_key_le (ScheduleResult.scheduled_blocks r).
Proof.
  assert (H : exists r,
             schedule_suggestions hypot_rat [mandatory_A10; mandatory_B10]
               [ten_gap_1; ten_gap_2] default_max_distance
               default_permutation_limit default_tolerance
               default_resolution_minutes = Ok r).
  { eexists. vm_compute. reflexivity. }
  destruct H as (r & E). exists r. split; [exact E|].
  exact (schedule_suggestions_blocks_sorted _ _ _ _ _ _ _ r E).
Defined.


(** ** Capacity per identifier *)

Section CapacityPerId.

Variable hypot : Q -> Q -> Q.
Variable gaps : list Gap.t.
Variable gap_labels : gmap string (string * string).
Variable tolerance : Q.
Hypothesis gaps_valid : Forall Gap.valid gaps.
Hypothesis tolerance_nonneg : 0 <= tolerance.

Lemma some_capacity_dadd (usage : gmap string Q) (gap : Gap.t) (v : Q) :
  In gap gaps -> within_some_capacity gaps tolerance usage ->
  dget usage (Gap.gap_id gap) + v <= Gap.duration gap + tolerance ->
  within_some_capacity gaps tolerance (dadd usage (Gap.gap_id gap) v).
Proof using Type.
  intros Hin Hw Hv g Hg.
  destruct (decide (Gap.gap_id gap = Gap.gap_id g)) as [E|Hne].
  - exists gap. split; [exact Hin|]. split; [exact E|].
    rewrite <- E, dget_dadd_eq. exact Hv.
  - rewrite dget_dadd_ne by exact Hne. now apply Hw.
Qed.

Lemma leave_gap_some_capacity (f : Frame) (gap : Gap.t)
    (exit_info : Q * Q * string * string) :
  within_some_capacity gaps tolerance (gap_usage f) ->
  can_leave hypot gaps gap_labels tolerance f gap exit_info ->
  within_some_capacity gaps tolerance
    (gap_usage (leave_gap tolerance f gap exit_info)).
Proof using Type.
  intros Hw [Hg He]. unfold ensure_gap_exit_ok in He.
  destruct (travel_minutes_between _ _ _) as [d m].
  destruct (Qgtb m _) eqn:Hfit; [discriminate|].
  inversion He; subst exit_info. cbn [leave_gap gap_usage].
  destruct (Qgtb m tolerance); [|exact Hw].
  apply some_capacity_dadd; [now apply (current_gap_In gaps f)|exact Hw|].
  qprop. lra.
Qed.

Lemma place_block_some_capacity (f : Frame) (gap : Gap.t)
    (s : Suggestion.t) (is_last : bool) :
  within_some_capacity gaps tolerance (gap_usage f) ->
  placeable hypot gaps gap_labels tolerance f gap s is_last ->
  within_some_capacity gaps tolerance
    (gap_usage
       (place_block (pay_travel hypot gap_labels tolerance f gap s) gap s)).
Proof using Type.
  intros Hw [Hg Hroom Hpref Hfit Hdur]. cbn [place_block gap_usage].
  pose proof (current_gap_In gaps _ _ Hg) as Hin.
  intros g Hgin.
  destruct (decide (Gap.gap_id gap = Gap.gap_id g)) as [E|Hne].
  - exists gap. split; [exact Hin|]. split; [exact E|].
    rewrite <- E, dget_dadd_eq. lra.
  - rewrite dget_dadd_ne by exact Hne.
    rewrite pay_travel_usage. cbv zeta.
    destruct (Qgtb _ tolerance); [|now apply Hw].
    rewrite dget_dadd_ne by exact Hne. now apply Hw.
Qed.

Lemma zero_usage_some_capacity :
  within_some_capacity gaps tolerance (zero_usage gaps).
Proof using gaps_valid tolerance_nonneg.
  intros g Hg. exists g. split; [exact Hg|]. split; [reflexivity|].
  rewrite dget_zero_usage.
  pose proof (proj1 (List.Forall_forall _ _) gaps_valid g Hg) as Hv.
  unfold Gap.valid in Hv. lra.
Qed.

Lemma initial_frame_some_capacity
    (initial_state : option AllocationState.t) :
  (forall s0, initial_state = Some s0 ->
     within_some_capacity gaps tolerance (AllocationState.gap_usage s0)) ->
  within_some_capacity gaps tolerance
    (gap_usage (initial_frame gaps initial_state)).
Proof using gaps_valid tolerance_nonneg.
  intros H. destruct initial_state as [s0|]; simpl;
    [|apply zero_usage_some_capacity].
  specialize (H s0 eq_refl). intros g Hg. rewrite dget_union.
  destruct (AllocationState.gap_usage s0 !! Gap.gap_id g) as [v|] eqn:E.
  - destruct (H g Hg) as (g' & Hg' & Hid & Hle). exists g'.
    split; [exact Hg'|]. split; [exact Hid|].
    unfold dget in Hle. now rewrite E in Hle.
  - now apply zero_usage_some_capacity.
Qed.

(** Whether or not gap identifiers repeat: after a placement the minutes
    recorded under the identifier of any gap are at most the duration,
    plus the tolerance, of some gap that carries this identifier
    (provided the initial state is so). *)
Theorem assign_order_capacity_per_id (order : list Suggestion.t)
    (initial_state : option AllocationState.t)
    (blocks : list ScheduledBlock.t) (state' : AllocationState.t)
    (logs : list MovementLogEntry.t) :
  (forall s0, initial_state = Some s0 ->
     within_some_capacity gaps tolerance (AllocationState.gap_usage s0)) ->
  assign_order_to_gaps hypot gaps gap_labels tolerance order initial_state
  = Ok (Some (blocks, state', logs)) ->
  within_some_capacity gaps tolerance (AllocationState.gap_usage state').
Proof using gaps_valid tolerance_nonneg.
  intros Hinit E.
  destruct (assign_order_to_gaps_sound hypot gaps gap_labels tolerance
              order initial_state) as (result & E' & H).
  rewrite E in E'. inversion E'; subst result. clear E'.
  destruct H as [(_ & _ & _ & ->)|(Hne & f & f' & Hall & Hcl & _ & -> & _)].
  { destruct initial_state as [s0|]; simpl; [now apply Hinit|].
    apply zero_usage_some_capacity. }
  assert (Hf : within_some_capacity gaps tolerance (gap_usage f)).
  { eapply (allocates_all_invariant hypot gaps gap_labels tolerance
              (fun f => within_some_capacity gaps tolerance (gap_usage f)));
      [| |exact Hall|now apply initial_frame_some_capacity].
    - intros. now apply leave_gap_some_capacity.
    - intros. eapply place_block_some_capacity; eauto. }
  destruct Hcl as [f Hg|f gap ei Hcan]; [exact Hf|].
  now apply leave_gap_some_capacity.
Qed.

End CapacityPerId.

Lemma assign_order_capacity_per_id_witness :
  exists blocks state' logs,
    assign_order_to_gaps hypot_rat [twin_gap_100; twin_gap_10]
      (resolve_gap_labels [twin_gap_100; twin_gap_10]) default_tolerance
      [fifty] None = Ok (Some (blocks, state', logs)) /\
    within_some_capacity [twin_gap_100; twin_gap_10] default_tolerance
      (AllocationState.gap_usage state').
Proof.
  assert (H : exists placement,
             assign_order_to_gaps hypot_rat [twin_gap_100; twin_gap_10]
               (resolve_gap_labels [twin_gap_100; twin_gap_10])
               default_tolerance [fifty] None = Ok (Some placement)).
  { eexists. vm_compute. reflexivity. }
  destruct H as ([[blocks st] logs] & E). exists blocks, st, logs.
  split; [exact E|].
  apply (assign_order_capacity_per_id hypot_rat [twin_gap_100; twin_gap_10]
           (resolve_gap_labels [twin_gap_100; twin_gap_10])
           default_tolerance) with (order := [fifty]) (initial_state := None)
           (blocks := blocks) (logs := logs).
  - repeat constructor.
  - discriminate.
  - discriminate.
  - exact E.
Defined.


(** ** The movement log *)

Section MovementLog.

Variable hypot : Q -> Q -> Q.
Variable gaps : list Gap.t.
Variable gap_labels : gmap string (string * string).
Variable tolerance : Q.




End MovementLog.




(** ** Blocks of one gap do not overlap *)

Lemma ForallOrdPairs_snoc {A : Type} (R : A -> A -> Prop) (l : list A)
    (x : A) :
  ForallOrdPairs R l -> Forall (fun y => R y x) l ->
  ForallOrdPairs R (l ++ [x]).
Proof.
  induction 1 as [|a l Ha Hl IH]; intros Hx; simpl.
  - constructor; constructor.
  - apply Forall_cons_iff in Hx as [Hax Hx]. constructor.
    + apply Forall_app. split; [exact Ha|]. now constructor.
    + now apply IH.
Qed.

Lemma ForallOrdPairs_app {A : Type} (R : A -> A -> Prop) (l1 l2 : list A) :
  ForallOrdPairs R l1 -> ForallOrdPairs R l2 ->
  (forall a b, In a l1 -> In b l2 -> R a b) ->
  ForallOrdPairs R (l1 ++ l2).
Proof.
  induction 1 as [|a l Ha Hl IH]; intros H2 Hx; simpl; [exact H2|].
  constructor.
  - apply Forall_app. split; [exact Ha|].
    apply List.Forall_forall. intros b Hb. apply Hx; [now left|exact Hb].
  - apply IH; [exact H2|]. intros x y Hx' Hy. apply Hx; [now right|exact Hy].
Qed.

Lemma ForallOrdPairs_impl {A : Type} (R S : A -> A -> Prop) (l : list A) :
  (forall a b, R a b -> S a b) ->
  ForallOrdPairs R l -> ForallOrdPairs S l.
Proof.
  intros H. induction 1 as [|a l Ha Hl IH]; constructor; [|exact IH].
  eapply List.Forall_impl; [|exact Ha]. intros b. apply H.
Qed.

Lemma ForallOrdPairs_perm {A : Type} (R : A -> A -> Prop) (l l' : list A) :
  (forall a b, R a b -> R b a) ->
  Permutation l l' -> ForallOrdPairs R l -> ForallOrdPairs R l'.
Proof.
  intros Hsym. induction 1 as [|x l l' Hp IH|x y l|l1 l2 l3 _ IH1 _ IH2];
    intros H.
  - exact H.
  - inversion H as [|a k Ha Hk]; subst. constructor; [|now apply IH].
    eapply Permutation_Forall; eauto.
  - inversion H as [|a k Ha Hk]; subst.
    inversion Hk as [|b k' Hb Hk']; subst.
    apply Forall_cons_iff in Ha as [Hyx Ha].
    constructor; [constructor; [now apply Hsym|exact Hb]|].
    constructor; assumption.
  - auto.
Qed.

Section Stacked.

Variable hypot : Q -> Q -> Q.
Variable gaps : list Gap.t.
Variable gap_labels : gmap string (string * string).
Variable tolerance : Q.
Hypothesis tolerance_nonneg : 0 <= tolerance.

Lemma stacked_dadd (base : string -> Q) (blocks : list ScheduledBlock.t)
    (usage : gmap string Q) (k : string) (v : Q) :
  0 <= v -> stacked base blocks usage ->
  stacked base blocks (dadd usage k v).
Proof using Type.
  intros Hv (Hb & Hf & Ho). split; [|split; [|exact Ho]].
  - intros k'. pose proof (dget_dadd_ge usage k k' v Hv).
    specialize (Hb k'). lra.
  - eapply List.Forall_impl; [|exact Hf]. intros b [H1 H2].
    split; [exact H1|].
    pose proof (dget_dadd_ge usage k (ScheduledBlock.gap_id b) v Hv). lra.
Qed.

Lemma leave_gap_stacked (base : string -> Q) (f : Frame) (gap : Gap.t)
    (exit_info : Q * Q * string * string) :
  stacked base (schedule f) (gap_usage f) ->
  stacked base (schedule (leave_gap tolerance f gap exit_info))
    (gap_usage (leave_gap tolerance f gap exit_info)).
Proof using tolerance_nonneg.
  intros H. destruct exit_info as [[[d m] fl] tl].
  cbn [leave_gap schedule gap_usage].
  destruct (Qgtb m tolerance) eqn:E; [|exact H].
  apply stacked_dadd; [|exact H]. qprop. lra.
Qed.

Lemma pay_travel_stacked (base : string -> Q) (f : Frame) (gap : Gap.t)
    (s : Suggestion.t) :
  stacked base (schedule f) (gap_usage f) ->
  stacked base (schedule (pay_travel hypot gap_labels tolerance f gap s))
    (gap_usage (pay_travel hypot gap_labels tolerance f gap s)).
Proof using tolerance_nonneg.
  intros H. unfold pay_travel, travel_minutes_between. cbv zeta.
  destruct (Qgtb _ tolerance) eqn:E; [|exact H].
  cbn [schedule gap_usage]. apply stacked_dadd; [|exact H]. qprop. lra.
Qed.

Lemma place_block_stacked (base : string -> Q) (f : Frame) (gap : Gap.t)
    (s : Suggestion.t) :
  0 <= Suggestion.duration s ->
  stacked base (schedule f) (gap_usage f) ->
  stacked base
    (schedule
       (place_block (pay_travel hypot gap_labels tolerance f gap s) gap s))
    (gap_usage
       (place_block (pay_travel hypot gap_labels tolerance f gap s) gap s)).
Proof using tolerance_nonneg.
  intros Hd H. apply (pay_travel_stacked base f gap s) in H.
  set (f1 := pay_travel hypot gap_labels tolerance f gap s) in *.
  cbn [place_block schedule gap_usage].
  pose proof (stacked_dadd base (schedule f1) (gap_usage f1)
                (Gap.gap_id gap) (Suggestion.duration s) Hd H)
    as (Hb & Hf & Ho).
  destruct H as (Hb1 & Hf1 & _).
  split; [exact Hb|]. split.
  - apply Forall_app. split; [exact Hf|]. constructor; [|constructor].
    unfold block_of, block_end.
    cbn [ScheduledBlock.gap_id ScheduledBlock.start_offset
         ScheduledBlock.duration].
    rewrite dget_dadd_eq. split; [apply Hb1|lra].
  - apply ForallOrdPairs_snoc; [exact Ho|].
    eapply List.Forall_impl; [|exact Hf1]. intros b [_ Hend] Hid.
    unfold block_of in *.
    cbn [ScheduledBlock.gap_id ScheduledBlock.start_offset] in *.
    now rewrite <- Hid.
Qed.

(** The blocks of a placement are stacked on the usage carried over. *)
Lemma assign_order_stacked (order : list Suggestion.t)
    (initial_state : option AllocationState.t)
    (blocks : list ScheduledBlock.t) (state' : AllocationState.t)
    (logs : list MovementLogEntry.t) :
  (forall s, In s order -> 0 <= Suggestion.duration s) ->
  assign_order_to_gaps hypot gaps gap_labels tolerance order initial_state
  = Ok (Some (blocks, state', logs)) ->
  stacked (fun k =>
             match initial_state with
             | Some s0 => dget (AllocationState.gap_usage s0) k
             | None => 0
             end)
          blocks (AllocationState.gap_usage state').
Proof using tolerance_nonneg.
  intros Hdur E.
  set (base := fun k => match initial_state with
                        | Some s0 => dget (AllocationState.gap_usage s0) k
                        | None => 0
                        end).
  assert (Hinit : forall k,
            base k <= dget (gap_usage (initial_frame gaps initial_state)) k).
  { intros k. unfold base. destruct initial_state as [s0|]; simpl.
    - rewrite dget_union. unfold dget at 1.
      destruct (AllocationState.gap_usage s0 !! k); simpl; [lra|].
      rewrite dget_zero_usage. lra.
    - rewrite dget_zero_usage. lra. }
  destruct (assign_order_to_gaps_sound hypot gaps gap_labels tolerance
              order initial_state) as (result & E' & H).
  rewrite E in E'. inversion E'; subst result. clear E'.
  destruct H as [(_ & -> & _ & ->)|(Hne & f & f' & Hall & Hcl & -> & -> & _)].
  { split; [|split; constructor]. intros k. unfold base.
    destruct initial_state as [s0|]; simpl; [lra|].
    rewrite dget_zero_usage. lra. }
  assert (Hf : stacked base (schedule f) (gap_usage f)).
  { eapply (allocates_all_invariant hypot gaps gap_labels tolerance
              (fun f => stacked base (schedule f) (gap_usage f)));
      [| |exact Hall|].
    - intros. now apply leave_gap_stacked.
    - intros s is_last f0 gap Hs Hst _. apply place_block_stacked; auto.
    - split; [exact Hinit|]. destruct initial_state; split; constructor. }
  destruct Hcl as [f Hg|f gap ei Hcan]; [exact Hf|].
  now apply leave_gap_stacked.
Qed.

End Stacked.

Lemma ctx_step_stacked (hypot : Q -> Q -> Q) (gap_list : list Gap.t)
    (gap_labels : gmap string (string * string)) (tolerance : Q)
    (pool : list Suggestion.t) (c c' : Ctx) :
  0 <= tolerance -> Forall Suggestion.valid pool ->
  ctx_step hypot gap_list gap_labels tolerance pool c c' ->
  ctx_stacked c -> ctx_stacked c'.
Proof.
  intros Htol Hvalid Hstep [Hend Hord].
  destruct Hstep as [c x Hx|c order tc n blocks st logs Hne Hin Has];
    [split; assumption|].
  assert (Hdur : forall s, In s order -> 0 <= Suggestion.duration s).
  { intros s Hs.
    pose proof (proj1 (List.Forall_forall _ _) Hvalid s (Hin s Hs)) as Hv.
    unfold Suggestion.valid in Hv. lra. }
  pose proof (assign_order_stacked hypot gap_list gap_labels tolerance Htol
                order (state c) blocks st logs Hdur Has)
    as (Hbase & Hnew & Hnord).
  split; cbn [commit scheduled_blocks_total].
  - apply Forall_app. split.
    + eapply List.Forall_impl; [|exact Hend]. intros b Hb.
      unfold ctx_usage in *. cbn [commit state].
      specialize (Hbase (ScheduledBlock.gap_id b)). cbv beta in Hbase. lra.
    + eapply List.Forall_impl; [|exact Hnew]. intros b [_ Hb].
      unfold ctx_usage. cbn [commit state]. exact Hb.
  - apply ForallOrdPairs_app; [exact Hord|exact Hnord|].
    intros a b Ha Hb Hid.
    pose proof (proj1 (List.Forall_forall _ _) Hend a Ha) as Hea.
    pose proof (proj1 (List.Forall_forall _ _) Hnew b Hb) as [Hsb _].
    unfold ctx_usage in Hea. cbv beta in Hea, Hsb. rewrite Hid in Hea. lra.
Qed.

Lemma follows_disjoint (a b : ScheduledBlock.t) :
  follows a b -> disjoint_blocks a b.
Proof. intros H Hid. left. now apply H. Qed.

Lemma disjoint_blocks_sym (a b : ScheduledBlock.t) :
  disjoint_blocks a b -> disjoint_blocks b a.
Proof. intros H Hid. destruct (H (eq_sym Hid)); [now right|now left]. Qed.

(** Blocks do not overlap: within a placement every block starts where
    the earlier blocks of its gap have ended, and in a result of the
    scheduler any two blocks of the same gap occupy disjoint stretches of
    it (for suggestions of non-negative duration and a non-negative
    tolerance). *)
Theorem blocks_do_not_overlap (hypot : Q -> Q -> Q) (gaps : list Gap.t)
    (tolerance : Q) :
  0 <= tolerance ->
  (forall gap_labels order initial_state blocks state' logs,
     (forall s, In s order -> 0 <= Suggestion.duration s) ->
     assign_order_to_gaps hypot gaps gap_labels tolerance order
       initial_state = Ok (Some (blocks, state', logs)) ->
     ForallOrdPairs follows blocks) /\
  (forall suggestions max_distance permutation_limit resolution_minutes r,
     Forall Suggestion.valid suggestions ->
     schedule_suggestions hypot suggestions gaps max_distance
       permutation_limit tolerance resolution_minutes = Ok r ->
     ForallOrdPairs disjoint_blocks (ScheduleResult.scheduled_blocks r)).
Proof.
  intros Htol. split.
  { intros gl order init blocks st logs Hdur E.
    now destruct (assign_order_stacked hypot gaps gl tolerance Htol order
                    init blocks st logs Hdur E) as (_ & _ & H). }
  intros suggestions md pl res r Hvalid E.
  pose proof (schedule_suggestions_sound hypot suggestions gaps md pl
                tolerance res) as H.
  rewrite E in H. cbn [outcome] in H.
  destruct H as [(unused & ->)|(_ & ctx & _ & Hsteps & ->)]; [constructor|].
  cbn [final_result ScheduleResult.scheduled_blocks].
  assert (Hst : ctx_stacked ctx).
  { eapply ctx_steps_invariant; [|exact Hsteps|split; constructor].
    intros c c'. now apply ctx_step_stacked. }
  destruct Hst as [_ Hord].
  eapply ForallOrdPairs_perm;
    [apply disjoint_blocks_sym|apply Permutation_sym, sort_by_perm|].
  eapply ForallOrdPairs_impl; [apply follows_disjoint|exact Hord].
Qed.

Lemma blocks_do_not_overlap_witness :
  exists r,
    schedule_suggestions hypot_rat [test_A; test_B; test_away]
      [test_gap_180; long_gap] default_max_distance
      default_permutation_limit default_tolerance
      default_resolution_minutes = Ok r /\
    (2 <= length (ScheduleResult.scheduled_blocks r))%nat /\
    ForallOrdPairs disjoint_blocks (ScheduleResult.scheduled_blocks r).
Proof.
  assert (H : exists r,
             schedule_suggestions hypot_rat [test_A; test_B; test_away]
               [test_gap_180; long_gap] default_max_distance
               default_permutation_limit default_tolerance
               default_resolution_minutes = Ok r /\
             (2 <= length (ScheduleResult.scheduled_blocks r))%nat).
  { eexists. split; [vm_compute; reflexivity|]. vm_compute. lia. }
  destruct H as (r & E & Hlen). exists r. split; [exact E|].
  split; [exact Hlen|].
  destruct (blocks_do_not_overlap hypot_rat [test_gap_180; long_gap]
              default_tolerance) as [_ H]; [discriminate|].
  apply (H [test_A; test_B; test_away] default_max_distance
           default_permutation_limit default_resolution_minutes r);
    [repeat constructor|exact E].
Defined.
